(** * The blog-post level extractor of gd-difficulty-visualization

    A shallow embedding of [fetchAndParseLevelData] (dataParser.ts) and of
    the browser operations it calls: JavaScript strings, the four regular
    expressions of the parser, [parseFloat]/[parseInt], and the DOM
    operations (textContent, querySelectorAll, cloneNode, remove,
    replaceChild, outerHTML).  The repository holds three revisions of the
    parser; they share most of their code and are embedded side by side.
    With them come the entry point [init] (main.ts), which hands the
    levels to the visualization, and of the visualization
    (visualization.ts) its navigation state and the size of its chart. *)

From Stdlib Require Import List NArith ZArith QArith Bool Lia String Ascii.
From Stdlib Require Import DecimalString.
From Stdlib Require Import Sorted Qabs.
Import ListNotations.

(** ** JavaScript strings

    A JavaScript string is a sequence of UTF-16 code units. *)

Module JS.

Definition jsstring := list N.

(** String literals of the source; they are all ASCII. *)
Definition js (s : string) : jsstring :=
  List.map N_of_ascii (list_ascii_of_string s).

Fixpoint str_eqb (a b : jsstring) : bool :=
  match a, b with
  | [], [] => true
  | x :: a', y :: b' => N.eqb x y && str_eqb a' b'
  | _, _ => false
  end.

(** ECMAScript WhiteSpace and LineTerminator code units: the set that both
    [String.prototype.trim] strips and the class escape [\s] matches. *)
Definition is_line_terminator (c : N) : bool :=
  (c =? 10)%N || (c =? 13)%N || (c =? 8232)%N || (c =? 8233)%N.

Definition is_space (c : N) : bool :=
  (c =? 9)%N || (c =? 11)%N || (c =? 12)%N || (c =? 32)%N || (c =? 160)%N
  || (c =? 5760)%N || ((8192 <=? c)%N && (c <=? 8202)%N)
  || (c =? 8239)%N || (c =? 8287)%N || (c =? 12288)%N || (c =? 65279)%N
  || is_line_terminator c.

Definition is_digit (c : N) : bool := (48 <=? c)%N && (c <=? 57)%N.

Fixpoint trimStart (s : jsstring) : jsstring :=
  match s with
  | c :: s' => if is_space c then trimStart s' else s
  | [] => []
  end.

Definition trimEnd (s : jsstring) : jsstring := rev (trimStart (rev s)).

(** [s.trim()] *)
Definition trim (s : jsstring) : jsstring := trimEnd (trimStart s).

(** [s.startsWith(p)] *)
Fixpoint startsWith (p s : jsstring) : bool :=
  match p, s with
  | [], _ => true
  | x :: p', y :: s' => N.eqb x y && startsWith p' s'
  | _ :: _, [] => false
  end.

(** [s.includes(p)] *)
Fixpoint includes (s p : jsstring) : bool :=
  startsWith p s ||
  match s with
  | [] => false
  | _ :: s' => includes s' p
  end.

(** [s.replace(/,/g, '')] *)
Definition remove_commas (s : jsstring) : jsstring :=
  filter (fun c => negb (c =? 44)%N) s.

Definition ascii_lower (c : N) : N :=
  if (65 <=? c)%N && (c <=? 90)%N then (c + 32)%N else c.

Definition ascii_upper (c : N) : N :=
  if (97 <=? c)%N && (c <=? 122)%N then (c - 32)%N else c.

(** [s.toLowerCase()].  An ASCII code unit is lowered by itself whatever
    stands around it.  What a code unit above U+007F becomes is decided by
    the Unicode tables of the engine, and may depend on what stands before
    and after it; the tables are a parameter [lower] of the model. *)
Fixpoint toLowerCase_from (lower : jsstring -> N -> jsstring -> jsstring)
    (before s : jsstring) : jsstring :=
  match s with
  | [] => []
  | c :: s' =>
      (if (c <? 128)%N then [ascii_lower c] else lower (rev before) c s')
      ++ toLowerCase_from lower (c :: before) s'
  end.

Definition toLowerCase lower (s : jsstring) : jsstring :=
  toLowerCase_from lower [] s.

End JS.
Export JS.

(** ** Regular expressions

    The fragment of ECMAScript regular expressions the parser uses:
    literal characters, character classes, [^] and [$] (no [m] flag),
    sequence, alternation, capturing groups, and the quantifiers [+], [*]
    and [+?] applied to a single-character atom.  The matcher is the
    backtracking matcher of the language specification, written with
    continuations. *)

Module Regex.

Inductive regex :=
| Eps
| Chr (c : N)
| Cls (p : N -> bool)
| Bol
| Eol
| Cat (r1 r2 : regex)
| Alt (r1 r2 : regex)
| Grp (n : nat) (r : regex)
| Rep (lazy : bool) (min : nat) (p : N -> bool).

Definition Seq (rs : list regex) : regex := fold_right Cat Eps rs.
Definition Lit (s : string) : regex := Seq (List.map Chr (js s)).

(** Character classes *)
Definition dot (c : N) : bool := negb (is_line_terminator c).
Definition cls_s : N -> bool := is_space.
Definition cls_d : N -> bool := is_digit.
(** [[\d,.]] *)
Definition cls_num (c : N) : bool := is_digit c || (c =? 44)%N || (c =? 46)%N.

(** Comparison of a pattern character with an input code unit.  Under the
    [i] flag both are canonicalized; canonicalization never maps a code
    unit above U+007F to an ASCII one, so against an ASCII pattern
    character only the ASCII upper-casing matters. *)
Definition chr_eq (ic : bool) (c x : N) : bool :=
  if ic then (ascii_upper c =? ascii_upper x)%N else (c =? x)%N.

Record mstate := MState {
  ms_pos : nat;
  ms_rest : jsstring;
  ms_caps : list (nat * jsstring)
}.

Definition advance (st : mstate) (xs : jsstring) : mstate :=
  MState (S (ms_pos st)) xs (ms_caps st).

Definition cont := mstate -> option mstate.

Fixpoint rep_greedy (p : N -> bool) (min pos : nat) (rest : jsstring)
    (caps : list (nat * jsstring)) (k : cont) : option mstate :=
  let stop := match min with
              | O => k (MState pos rest caps)
              | S _ => None
              end in
  match rest with
  | x :: xs =>
      if p x then
        match rep_greedy p (pred min) (S pos) xs caps k with
        | Some r => Some r
        | None => stop
        end
      else stop
  | [] => stop
  end.

Fixpoint rep_lazy (p : N -> bool) (min pos : nat) (rest : jsstring)
    (caps : list (nat * jsstring)) (k : cont) : option mstate :=
  let more := match rest with
              | x :: xs =>
                  if p x then rep_lazy p (pred min) (S pos) xs caps k
                  else None
              | [] => None
              end in
  match min with
  | O => match k (MState pos rest caps) with
         | Some r => Some r
         | None => more
         end
  | S _ => more
  end.

Fixpoint rmatch (ic : bool) (r : regex) (st : mstate) (k : cont)
    : option mstate :=
  match r with
  | Eps => k st
  | Chr c =>
      match ms_rest st with
      | x :: xs => if chr_eq ic c x then k (advance st xs) else None
      | [] => None
      end
  | Cls p =>
      match ms_rest st with
      | x :: xs => if p x then k (advance st xs) else None
      | [] => None
      end
  | Bol => match ms_pos st with O => k st | S _ => None end
  | Eol => match ms_rest st with [] => k st | _ :: _ => None end
  | Cat r1 r2 => rmatch ic r1 st (fun st' => rmatch ic r2 st' k)
  | Alt r1 r2 =>
      match rmatch ic r1 st k with
      | Some res => Some res
      | None => rmatch ic r2 st k
      end
  | Grp n r1 =>
      rmatch ic r1 st (fun st' =>
        k (MState (ms_pos st') (ms_rest st')
             ((n, firstn (ms_pos st' - ms_pos st) (ms_rest st))
                :: ms_caps st')))
  | Rep lazy min p =>
      if lazy then rep_lazy p min (ms_pos st) (ms_rest st) (ms_caps st) k
      else rep_greedy p min (ms_pos st) (ms_rest st) (ms_caps st) k
  end.

(** The match array of [String.prototype.match] for a regular expression
    without the [g] flag: [m_whole] is element 0, [m_group n] element [n]
    ([None] for [undefined]). *)
Record match_array := MatchArray {
  m_index : nat;
  m_whole : jsstring;
  m_caps : list (nat * jsstring)
}.

Fixpoint assoc (n : nat) (l : list (nat * jsstring)) : option jsstring :=
  match l with
  | [] => None
  | (m, s) :: l' => if Nat.eqb n m then Some s else assoc n l'
  end.

Definition m_group (m : match_array) (n : nat) : option jsstring :=
  assoc n (m_caps m).

Fixpoint exec_from (ic : bool) (r : regex) (pos : nat) (rest : jsstring)
    : option match_array :=
  match rmatch ic r (MState pos rest []) Some with
  | Some st =>
      Some (MatchArray pos (firstn (ms_pos st - pos) rest) (ms_caps st))
  | None =>
      match rest with
      | [] => None
      | _ :: xs => exec_from ic r (S pos) xs
      end
  end.

(** [s.match(r)] *)
Definition str_match (ic : bool) (r : regex) (s : jsstring)
    : option match_array :=
  exec_from ic r 0 s.

(** [r.test(s)] *)
Definition test (ic : bool) (r : regex) (s : jsstring) : bool :=
  match str_match ic r s with Some _ => true | None => false end.

End Regex.
Export Regex.

(** The regular expressions of the parser, as written in the source. *)

(** [(?:\s+by\s+|\s+-\s+)] *)
Definition re_separator : regex :=
  Alt (Seq [Rep false 1 cls_s; Lit "by"; Rep false 1 cls_s])
      (Seq [Rep false 1 cls_s; Lit "-"; Rep false 1 cls_s]).

(** [/^(.+?)(?:\s+by\s+|\s+-\s+)(.+)$/i] *)
Definition re_name_author : regex :=
  Seq [ Bol; Grp 1 (Rep true 1 dot); re_separator;
        Grp 2 (Rep false 1 dot); Eol ].

(** [/Difficulty\s+value:\s*([\d,.]+)/i] *)
Definition re_difficulty : regex :=
  Seq [ Lit "Difficulty"; Rep false 1 cls_s; Lit "value:";
        Rep false 0 cls_s; Grp 1 (Rep false 1 cls_num) ].

(** [/Difficulty\s+value:/i] *)
Definition re_difficulty_label : regex :=
  Seq [ Lit "Difficulty"; Rep false 1 cls_s; Lit "value:" ].

(** [/^H[1-6]$/] *)
Definition re_heading : regex :=
  Seq [ Bol; Lit "H"; Cls (fun c => (49 <=? c)%N && (c <=? 54)%N); Eol ].

(** [/(\d+)$/] *)
Definition re_trailing_digits : regex :=
  Seq [ Grp 1 (Rep false 1 cls_d); Eol ].


(** ** Numbers

    A JavaScript number is modelled by the exact value of the literal it
    was parsed from.  The engine rounds that value to the nearest IEEE
    double (and to an infinity beyond the range of doubles); the rounding
    is outside the model.  The sign of zero is not kept. *)

Module Num.

Inductive number :=
| NaN
| PosInf
| NegInf
| Fin (q : Q).


Fixpoint span (p : N -> bool) (s : jsstring) : jsstring * jsstring :=
  match s with
  | c :: s' =>
      if p c then let '(a, b) := span p s' in (c :: a, b) else ([], s)
  | [] => ([], [])
  end.

Definition digit_val (c : N) : N := (c - 48)%N.

Definition digits_value (ds : jsstring) : N :=
  fold_left (fun acc d => (10 * acc + digit_val d)%N) ds 0%N.

(** The value [m * 10^e] as a reduced fraction. *)
Definition scale10 (m : Z) (e : Z) : Q :=
  Qred (if (0 <=? e)%Z then (m * 10 ^ e)%Z # 1
        else m # Z.to_pos (10 ^ (- e))%Z).

(** An optional sign: whether it is a minus, and the rest. *)
Definition split_sign (s : jsstring) : bool * jsstring :=
  match s with
  | c :: r =>
      if (c =? 43)%N then (false, r)
      else if (c =? 45)%N then (true, r)
      else (false, s)
  | [] => (false, s)
  end.

(** ExponentPart of a StrDecimalLiteral; absent or malformed counts 0. *)
Definition exponent_part (s : jsstring) : Z :=
  match s with
  | c :: s1 =>
      if (c =? 101)%N || (c =? 69)%N then
        let '(neg, s2) := split_sign s1 in
        let '(ds, _) := span is_digit s2 in
        match ds with
        | [] => 0%Z
        | _ => let v := Z.of_N (digits_value ds) in
               if neg then (- v)%Z else v
        end
      else 0%Z
  | [] => 0%Z
  end.

(** The digits after a decimal point, and the rest. *)
Definition fraction_part (s : jsstring) : jsstring * jsstring :=
  match s with
  | c :: r => if (c =? 46)%N then span is_digit r else ([], s)
  | [] => ([], s)
  end.

(** [parseFloat(s)]: leading white space is skipped, then the longest
    prefix that is a StrDecimalLiteral is taken; NaN when there is none. *)
Definition parseFloat (s : jsstring) : number :=
  let '(neg, s2) := split_sign (trimStart s) in
  if startsWith (js "Infinity") s2 then (if neg then NegInf else PosInf)
  else
    let '(ip, s3) := span is_digit s2 in
    let '(fp, s4) := fraction_part s3 in
    match ip ++ fp with
    | [] => NaN
    | ds =>
        let m := Z.of_N (digits_value ds) in
        Fin (scale10 (if neg then (- m)%Z else m)
               (exponent_part s4 - Z.of_nat (List.length fp))%Z)
    end.

Definition N_to_string (n : N) : jsstring :=
  js (NilZero.string_of_uint (N.to_uint n)).

(** [String(parseInt(ds, 10))] for a string [ds] of decimal digits.  Up to
    2^53 every integer is a double and prints as its decimal digits; what a
    larger one rounds and prints to is left to the engine ([big]). *)
Definition parseInt_toString (big : N -> jsstring) (ds : jsstring)
    : jsstring :=
  let v := digits_value ds in
  if (v <=? 2 ^ 53)%N then N_to_string v else big v.

End Num.
Export Num.

(** ** The DOM *)

Module Dom.

(** A node of the parsed document.  Elements are those the HTML parser
    builds: [tag] is the local name (which the parser lower-cases), the
    attribute list holds each name once. *)
Inductive node :=
| Text (data : jsstring)
| Comment (data : jsstring)
| Element (tag : jsstring) (attrs : list (jsstring * jsstring))
          (children : list node).

(** The document the parser returns: its child nodes, and whether the
    missing or old doctype put it in quirks mode (class selectors then
    compare ASCII case-insensitively). *)
Record document := Document {
  doc_quirks : bool;
  doc_children : list node
}.

Definition is_element (n : node) : bool :=
  match n with Element _ _ _ => true | _ => false end.

Definition children (n : node) : list node :=
  match n with Element _ _ cs => cs | _ => [] end.

Definition attributes (n : node) : list (jsstring * jsstring) :=
  match n with Element _ a _ => a | _ => [] end.

(** [el.tagName]: the local name in ASCII upper case. *)
Definition tagName (n : node) : jsstring :=
  match n with Element t _ _ => List.map ascii_upper t | _ => [] end.

(** Type selector: [el.matches('tag')] for a lower-case [tag]. *)
Definition has_tag (t : string) (n : node) : bool :=
  match n with Element t' _ _ => str_eqb (js t) t' | _ => false end.

Fixpoint lookup_attr (name : jsstring) (a : list (jsstring * jsstring))
    : option jsstring :=
  match a with
  | [] => None
  | (k, v) :: a' => if str_eqb name k then Some v else lookup_attr name a'
  end.

(** [el.getAttribute(name)] ([None] is [null]) *)
Definition getAttribute (name : string) (n : node) : option jsstring :=
  lookup_attr (js name) (attributes n).

(** [x || ''] for a string (or null) [x] *)
Definition or_empty (x : option jsstring) : jsstring :=
  match x with Some s => s | None => [] end.

(** [node.textContent] of an element: the data of its descendant text
    nodes, in tree order. *)
Fixpoint textContent (n : node) : jsstring :=
  match n with
  | Text d => d
  | Comment _ => []
  | Element _ _ cs => flat_map textContent cs
  end.

(** A node followed by its descendants, in tree order. *)
Fixpoint subtree (n : node) : list node :=
  n :: match n with
       | Element _ _ cs => flat_map subtree cs
       | _ => []
       end.

(** All descendants of a child list, in tree order. *)
Definition descendants (ns : list node) : list node := flat_map subtree ns.

(** [el.querySelectorAll(sel)] for a selector [sel] that looks at the
    element alone: the matching descendants of [el], in tree order. *)
Definition querySelectorAll (sel : node -> bool) (el : node) : list node :=
  filter sel (descendants (children el)).

(** [el.querySelector(sel)] as a truth value *)
Definition querySelector_truthy (sel : node -> bool) (el : node) : bool :=
  existsb sel (descendants (children el)).

(** The [cloneNode(true)] of an element is the element's value; removing
    from the clone [remove]s every descendant that satisfies [p]. *)
Fixpoint remove_in (p : node -> bool) (n : node) : node :=
  match n with
  | Element t a cs =>
      Element t a
        ((fix go (l : list node) : list node :=
            match l with
            | [] => []
            | c :: rest => if p c then go rest else remove_in p c :: go rest
            end) cs)
  | _ => n
  end.

Fixpoint remove_where (p : node -> bool) (ns : list node) : list node :=
  match ns with
  | [] => []
  | c :: rest =>
      if p c then remove_where p rest
      else remove_in p c :: remove_where p rest
  end.

Definition remove_descendants (p : node -> bool) (el : node) : node :=
  remove_in p el.

(** [parent.replaceChild(doc.createTextNode(a.textContent), a)] for every
    descendant [a] that satisfies [p]. *)
Fixpoint unlink_node (p : node -> bool) (n : node) : node :=
  if p n then Text (textContent n)
  else match n with
       | Element t a cs => Element t a (List.map (unlink_node p) cs)
       | _ => n
       end.

Definition unlink_descendants (p : node -> bool) (el : node) : node :=
  match el with
  | Element t a cs => Element t a (List.map (unlink_node p) cs)
  | _ => el
  end.

(** Node identity: the path of child indices from the document. *)
Definition path := list nat.

Fixpoint path_eqb (p q : path) : bool :=
  match p, q with
  | [], [] => true
  | x :: p', y :: q' => Nat.eqb x y && path_eqb p' q'
  | _, _ => false
  end.

(** A node in its place: its path and its [nextSibling] chain. *)
Record located := Located {
  loc_path : path;
  loc_node : node;
  loc_next : list node
}.

Fixpoint locate_node (p : path) (n : node) (next : list node)
    : list located :=
  Located p n next
  :: match n with
     | Element _ _ cs =>
         (fix go (idx : nat) (l : list node) : list located :=
            match l with
            | [] => []
            | c :: rest => locate_node (p ++ [idx]) c rest ++ go (S idx) rest
            end) 0%nat cs
     | _ => []
     end.

Fixpoint locate_all (parent : path) (idx : nat) (ns : list node)
    : list located :=
  match ns with
  | [] => []
  | n :: rest =>
      locate_node (parent ++ [idx]) n rest ++ locate_all parent (S idx) rest
  end.

(** [doc.querySelectorAll(sel)], each element with its place *)
Definition doc_querySelectorAll (sel : node -> bool) (doc : document)
    : list located :=
  filter (fun l => sel (loc_node l)) (locate_all [] 0 (doc_children doc)).

(** [doc.querySelector(sel)] *)
Definition doc_querySelector (sel : node -> bool) (doc : document)
    : option node :=
  find sel (descendants (doc_children doc)).

(** Class selector [.c]: the class attribute, split on ASCII white
    space, holds the token [c]. *)
Definition is_ascii_ws (c : N) : bool :=
  (c =? 9)%N || (c =? 10)%N || (c =? 12)%N || (c =? 13)%N || (c =? 32)%N.

Fixpoint split_ws (cur : jsstring) (s : jsstring) : list jsstring :=
  match s with
  | [] => match cur with [] => [] | _ => [rev cur] end
  | c :: s' =>
      if is_ascii_ws c then
        match cur with
        | [] => split_ws [] s'
        | _ => rev cur :: split_ws [] s'
        end
      else split_ws (c :: cur) s'
  end.

Definition class_token_eqb (quirks : bool) (a b : jsstring) : bool :=
  if quirks then str_eqb (List.map ascii_lower a) (List.map ascii_lower b)
  else str_eqb a b.

Definition has_class (quirks : bool) (c : string) (n : node) : bool :=
  match getAttribute "class" n with
  | Some v => existsb (class_token_eqb quirks (js c)) (split_ws [] v)
  | None => false
  end.

Definition has_attr (name : string) (n : node) : bool :=
  match getAttribute name n with Some _ => true | None => false end.

(** Attribute selector [[name^="prefix"]] *)
Definition attr_starts (name prefix : string) (n : node) : bool :=
  match getAttribute name n with
  | Some v => startsWith (js prefix) v
  | None => false
  end.

(** *** Serialization ([outerHTML], [innerHTML]) *)

Definition escape_text_unit (c : N) : jsstring :=
  if (c =? 38)%N then js "&amp;"
  else if (c =? 160)%N then js "&nbsp;"
  else if (c =? 60)%N then js "&lt;"
  else if (c =? 62)%N then js "&gt;"
  else [c].

Definition escape_attr_unit (c : N) : jsstring :=
  if (c =? 38)%N then js "&amp;"
  else if (c =? 160)%N then js "&nbsp;"
  else if (c =? 34)%N then js "&quot;"
  else [c].

Definition in_tags (ts : list string) (t : jsstring) : bool :=
  existsb (fun s => str_eqb (js s) t) ts.

Definition void_tags : list string :=
  ["area"; "base"; "basefont"; "bgsound"; "br"; "col"; "embed"; "frame";
   "hr"; "img"; "input"; "keygen"; "link"; "meta"; "param"; "source";
   "track"; "wbr"]%string.

(** Elements whose text children are written out as they are. *)
Definition raw_text_tags : list string :=
  ["style"; "script"; "xmp"; "iframe"; "noembed"; "noframes";
   "plaintext"]%string.

(** U+0022, the quotation mark *)
Definition quote : jsstring := [34%N].

Definition serialize_attr (kv : jsstring * jsstring) : jsstring :=
  js " " ++ fst kv ++ js "=" ++ quote ++ flat_map escape_attr_unit (snd kv)
  ++ quote.

Fixpoint serialize (raw : bool) (n : node) : jsstring :=
  match n with
  | Text d => if raw then d else flat_map escape_text_unit d
  | Comment d => js "<!--" ++ d ++ js "-->"
  | Element t a cs =>
      js "<" ++ t ++ flat_map serialize_attr a ++ js ">"
      ++ (if in_tags void_tags t then []
          else flat_map (serialize (in_tags raw_text_tags t)) cs
               ++ js "</" ++ t ++ js ">")
  end.

(** [el.outerHTML] *)
Definition outerHTML (el : node) : jsstring := serialize false el.

(** [el.innerHTML] *)
Definition innerHTML (el : node) : jsstring :=
  match el with
  | Element t _ cs => flat_map (serialize (in_tags raw_text_tags t)) cs
  | _ => []
  end.

End Dom.
Export Dom.

(** ** The engine

    What the parser gets from the browser and the model leaves open: the
    Unicode lower-casing of code units above U+007F, the HTML fragment
    parser behind the [innerHTML] setter of an [li] element, the printing
    of integers above 2^53, and the string a property inherited from
    [Object.prototype] converts to. *)

Class Engine := {
  unicode_lower : jsstring -> N -> jsstring -> jsstring;
  parse_fragment : jsstring -> list node;
  big_number_string : N -> jsstring;
  inherited_to_string : jsstring -> jsstring
}.

(** ** Completions: a value, or a thrown exception *)

Inductive exn :=
| Error (message : jsstring)
| TypeError.

Inductive completion (A : Type) :=
| Normal (a : A)
| Throw (e : exn).

Arguments Normal {A} a.
Arguments Throw {A} e.

Definition bind {A B : Type} (c : completion A) (k : A -> completion B)
    : completion B :=
  match c with
  | Normal a => k a
  | Throw e => Throw e
  end.

Notation "x <- c ;; k" := (bind c (fun x => k))
  (at level 61, c at next level, right associativity).

(** A method call [recv.method()]: a TypeError when [recv] is undefined. *)
Definition call {A : Type} (recv : option jsstring) (method : jsstring -> A)
    : completion A :=
  match recv with
  | Some s => Normal (method s)
  | None => Throw TypeError
  end.

Definition is_empty (s : jsstring) : bool :=
  match s with [] => true | _ :: _ => false end.

(** ** The code the three revisions share *)

Module Parser.

Section WithEngine.
Context {E : Engine}.

(** [name] and [author]/[publisher] from the text of the h3 *)
Definition split_heading (textContent_h3 : jsstring)
    : completion (jsstring * jsstring) :=
  let levelNameAndPublisher := trim textContent_h3 in
  match str_match true re_name_author levelNameAndPublisher with
  | Some namePublisherMatch =>
      name <- call (m_group namePublisherMatch 1) trim ;;
      publisher <- call (m_group namePublisherMatch 2) trim ;;
      Normal (name, publisher)
  | None => Normal (levelNameAndPublisher, [])
  end.

Definition same_node (nextH3 : option path) (q : path) : bool :=
  match nextH3 with
  | Some p => path_eqb p q
  | None => false
  end.

(** The path of the [k]-th node after the node at path [p] *)
Definition sibling_path (p : path) (k : nat) : path :=
  removelast p ++ [last p 0 + k]%nat.

(** The loop over [currentElement = currentElement.nextSibling]; [stop]
    is the test that breaks it. *)
Fixpoint collect_until (stop : path -> node -> bool) (p : path) (k : nat)
    (siblings : list node) : list node :=
  match siblings with
  | [] => []
  | n :: rest =>
      if is_element n then
        if stop (sibling_path p k) n then []
        else n :: collect_until stop p (S k) rest
      else collect_until stop p (S k) rest
  end.

Definition is_heading (element : node) : bool :=
  test false re_heading (tagName element).

(** The first content element with a difficulty line: the parsed number
    and the index of the element. *)
Fixpoint find_difficulty (idx : nat) (allContent : list node)
    : completion (option (number * nat)) :=
  match allContent with
  | [] => Normal None
  | element :: rest =>
      match str_match true re_difficulty (textContent element) with
      | Some difficultyMatch =>
          stripped <- call (m_group difficultyMatch 1) remove_commas ;;
          Normal (Some (parseFloat stripped, idx))
      | None => find_difficulty (S idx) rest
      end
  end.

Definition is_youtube (href linkText : jsstring) : bool :=
  includes href (js "youtube.com") || includes href (js "youtu.be")
  || includes linkText (js "youtube").

Definition is_gdbrowser (href linkText : jsstring) : bool :=
  includes href (js "gdbrowser.com") || includes linkText (js "gdbrowser").

Definition link_href (link : node) : jsstring :=
  or_empty (getAttribute "href" link).

Definition link_text (link : node) : jsstring :=
  toLowerCase unicode_lower (textContent link).

Definition anchors (element : node) : list node :=
  querySelectorAll (has_tag "a") element.

(** The variables of the link loop *)
Record link_state := LinkState {
  youtubeUrl : option jsstring;
  gdBrowserUrl : option jsstring;
  linksFound : bool;
  excludedHrefs : list jsstring
}.

Definition no_links : link_state := LinkState None None false [].

Definition set_has (s : list jsstring) (x : jsstring) : bool :=
  existsb (str_eqb x) s.

Definition set_add (s : list jsstring) (x : jsstring) : list jsstring :=
  if set_has s x then s else s ++ [x].

Definition classify_link (st : link_state) (link : node) : link_state :=
  let href := link_href link in
  let linkText := link_text link in
  if is_youtube href linkText then
    LinkState (Some href) (gdBrowserUrl st) true (excludedHrefs st)
  else if is_gdbrowser href linkText then
    LinkState (youtubeUrl st) (Some href) true (excludedHrefs st)
  else st.

(** The body of [for (const link of links)], with the collection of the
    hrefs of the difficulty element. *)
Definition scan_link (in_difficulty_element : bool) (st : link_state)
    (link : node) : link_state :=
  let st' := classify_link st link in
  let href := link_href link in
  if in_difficulty_element && negb (is_empty href) then
    LinkState (youtubeUrl st') (gdBrowserUrl st') (linksFound st')
      (set_add (excludedHrefs st') href)
  else st'.

Fixpoint scan_links (difficultyElementIndex idx : nat)
    (allContent : list node) (st : link_state) : link_state :=
  match allContent with
  | [] => st
  | element :: rest =>
      let st' :=
        fold_left (scan_link (Nat.eqb idx difficultyElementIndex))
          (anchors element) st in
      if linksFound st' then st'
      else scan_links difficultyElementIndex (S idx) rest st'
  end.

(** The variables of the loop that finds where the commentary starts *)
Record start_state := StartState {
  commentaryStartIndex : nat;
  foundDifficulty : bool;
  foundLinks : bool
}.

Definition category_href (href : jsstring) : bool :=
  includes href (js "youtube.com") || includes href (js "youtu.be")
  || includes href (js "gdbrowser.com").

Definition has_category_href (element : node) : bool :=
  existsb (fun link => category_href (link_href link)) (anchors element).

Definition has_label (text : jsstring) : bool :=
  test true re_difficulty_label text.

Definition start_step (j : nat) (st : start_state) (element : node)
    : start_state :=
  let st1 :=
    if negb (foundDifficulty st) && has_label (textContent element)
    then StartState (j + 1) true (foundLinks st)
    else st in
  if foundDifficulty st1 && negb (foundLinks st1)
     && has_category_href element
  then StartState (j + 1) (foundDifficulty st1) true
  else st1.

Fixpoint start_loop (j : nat) (allContent : list node) (st : start_state)
    : start_state :=
  match allContent with
  | [] => st
  | element :: rest => start_loop (S j) rest (start_step j st element)
  end.

Definition commentary_start (allContent : list node) : nat :=
  commentaryStartIndex (start_loop 0 allContent (StartState 0 false false)).

Definition has_media (clone : node) : bool :=
  querySelector_truthy
    (fun n => has_tag "img" n || has_tag "blockquote" n
              || has_tag "ul" n || has_tag "ol" n) clone.

(** [clone.textContent?.trim() || clone.querySelector(...)] *)
Definition has_content (clone : node) : bool :=
  negb (is_empty (trim (textContent clone))) || has_media clone.

(** [text && !text.match(/Difficulty\s+value:/i)] for the trimmed text *)
Definition is_commentary (element : node) : bool :=
  let text := trim (textContent element) in
  negb (is_empty text) && negb (has_label text).

(** The clone of a commentary element, without the anchors [drop]
    selects; pushed when something is left of it. *)
Definition commentary_clone (drop : node -> bool) (element : node)
    : list node :=
  if is_commentary element then
    let clone := remove_descendants drop element in
    if has_content clone then [clone] else []
  else [].

(** [commentaryElements.map(el => el.outerHTML).join('')] *)
Definition join_outerHTML (commentaryElements : list node) : jsstring :=
  flat_map outerHTML commentaryElements.

End WithEngine.

End Parser.
Export Parser.

(** ** The function and its three revisions *)

(** What [await fetch(BLOG_POST_URL)] resolved with: [response.ok],
    [response.statusText], and the document the DOMParser makes of
    [await response.text()]. *)
Record response := Response {
  ok : bool;
  statusText : jsstring;
  parsed : document
}.

Section Loop.
Variable A : Type.
Variable process : located -> option path -> completion (option A).

(** [for (let i = 0; i < h3Elements.length; i++)]: one step per h3, with
    [nextH3] the h3 after it; a step pushes a level or [continue]s. *)
Fixpoint levels_loop (h3Elements : list located) : completion (list A) :=
  match h3Elements with
  | [] => Normal []
  | h3 :: rest =>
      level <- process h3 (option_map loc_path (hd_error rest)) ;;
      levels <- levels_loop rest ;;
      Normal (match level with
              | Some l => l :: levels
              | None => levels
              end)
  end.

Definition fetch_and_parse (r : response) : completion (list A) :=
  if negb (ok r) then
    Throw (Error (js "Failed to fetch blog post: " ++ statusText r))
  else
    levels_loop (doc_querySelectorAll (has_tag "h3") (parsed r)).

End Loop.

Arguments levels_loop {A} process h3Elements.
Arguments fetch_and_parse {A} process r.

(** *** src/dataParser.ts *)

Module Rev1.

Record LevelData := Level {
  name : jsstring;
  author : jsstring;
  difficulty : number;
  youtubeUrl : option jsstring;
  gdBrowserUrl : option jsstring;
  commentary : jsstring
}.

Section WithEngine.
Context {E : Engine}.

(** Content runs to the next h3 only. *)
Definition section_content (h3 : located) (nextH3 : option path)
    : list node :=
  collect_until (fun q _ => same_node nextH3 q) (loc_path h3) 1
    (loc_next h3).

(** The link loop of this revision collects no hrefs. *)
Fixpoint scan_links (allContent : list node) (st : link_state)
    : link_state :=
  match allContent with
  | [] => st
  | element :: rest =>
      let st' := fold_left classify_link (anchors element) st in
      if linksFound st' then st' else scan_links rest st'
  end.

(** Every anchor with a YouTube or GDBrowser href leaves the clone. *)
Definition category_anchor (link : node) : bool :=
  has_tag "a" link && category_href (link_href link).

Definition collect_commentary (rest : list node) : list node :=
  flat_map (commentary_clone category_anchor) rest.

Definition process_h3 (h3 : located) (nextH3 : option path)
    : completion (option LevelData) :=
  na <- split_heading (textContent (loc_node h3)) ;;
  let allContent := section_content h3 nextH3 in
  found <- find_difficulty 0 allContent ;;
  match found with
  | None => Normal None
  | Some (difficulty, _) =>
      let links := scan_links allContent no_links in
      let commentaryElements :=
        collect_commentary (skipn (commentary_start allContent) allContent) in
      Normal (Some (Level (fst na) (snd na) difficulty
                      (Parser.youtubeUrl links) (Parser.gdBrowserUrl links)
                      (join_outerHTML commentaryElements)))
  end.

Definition fetchAndParseLevelData (r : response)
    : completion (list LevelData) :=
  fetch_and_parse process_h3 r.

End WithEngine.

End Rev1.

(** *** The revision that stops at headings and removes only the anchors
    of the difficulty element *)

Module Rev2.

Record LevelData := Level {
  name : jsstring;
  publisher : jsstring;
  difficulty : number;
  youtubeUrl : option jsstring;
  gdBrowserUrl : option jsstring;
  commentary : jsstring
}.

Section WithEngine.
Context {E : Engine}.

(** Content runs to the next h3 or to any heading, h1 to h6. *)
Definition section_content (h3 : located) (nextH3 : option path)
    : list node :=
  collect_until (fun q element => same_node nextH3 q || is_heading element)
    (loc_path h3) 1 (loc_next h3).

(** [href && excludedHrefs.has(href)] for an anchor of the clone *)
Definition excluded_anchor (excludedHrefs : list jsstring) (link : node)
    : bool :=
  has_tag "a" link && negb (is_empty (link_href link))
  && set_has excludedHrefs (link_href link).

Fixpoint collect_commentary (excludedHrefs : list jsstring)
    (rest : list node) : list node :=
  match rest with
  | [] => []
  | element :: rest' =>
      if is_heading element then []
      else commentary_clone (excluded_anchor excludedHrefs) element
           ++ collect_commentary excludedHrefs rest'
  end.

(** The commentary elements of a section with its difficulty at
    [difficultyElementIndex] *)
Definition commentary_elements (allContent : list node)
    (difficultyElementIndex : nat) : list node :=
  let links := scan_links difficultyElementIndex 0 allContent no_links in
  collect_commentary (excludedHrefs links)
    (skipn (commentary_start allContent) allContent).

Definition process_h3 (h3 : located) (nextH3 : option path)
    : completion (option LevelData) :=
  np <- split_heading (textContent (loc_node h3)) ;;
  let allContent := section_content h3 nextH3 in
  found <- find_difficulty 0 allContent ;;
  match found with
  | None => Normal None
  | Some (difficulty, difficultyElementIndex) =>
      let links := scan_links difficultyElementIndex 0 allContent no_links in
      let commentaryElements :=
        commentary_elements allContent difficultyElementIndex in
      Normal (Some (Level (fst np) (snd np) difficulty
                      (Parser.youtubeUrl links) (Parser.gdBrowserUrl links)
                      (join_outerHTML commentaryElements)))
  end.

Definition fetchAndParseLevelData (r : response)
    : completion (list LevelData) :=
  fetch_and_parse process_h3 r.

End WithEngine.

End Rev2.

(** *** The revision with footnotes *)

Module Rev3.

Section WithEngine.
Context {E : Engine}.

(** [section[data-footnotes], .footnotes] *)
Definition footnotes_selector (quirks : bool) (n : node) : bool :=
  (has_tag "section" n && has_attr "data-footnotes" n)
  || has_class quirks "footnotes" n.

(** [ol > li[id]] below the footnotes section; the [ol] may be the
    section itself. *)
Fixpoint ol_li_in (parent_is_ol : bool) (n : node) : list node :=
  match n with
  | Element t _ cs =>
      (if parent_is_ol && has_tag "li" n && has_attr "id" n then [n]
       else [])
      ++ flat_map (ol_li_in (str_eqb (js "ol") t)) cs
  | _ => []
  end.

Definition footnote_items (footnotesSection : node) : list node :=
  flat_map (ol_li_in (has_tag "ol" footnotesSection))
    (children footnotesSection).

(** [a[data-footnote-backref], a.data-footnote-backref,
    a[href^="#user-content-fnref"], a[href^="#fnref"]] *)
Definition backref_selector (quirks : bool) (n : node) : bool :=
  has_tag "a" n
  && (has_attr "data-footnote-backref" n
      || has_class quirks "data-footnote-backref" n
      || attr_starts "href" "#user-content-fnref" n
      || attr_starts "href" "#fnref" n).

(** [footnoteMap]: the own properties of a plain object, latest first.
    Besides them a plain object has the properties it inherits from
    [Object.prototype]; assigning a string to [__proto__] adds nothing. *)
Definition object := list (jsstring * jsstring).

Definition object_prototype_names : list string :=
  ["constructor"; "hasOwnProperty"; "isPrototypeOf";
   "propertyIsEnumerable"; "toLocaleString"; "toString"; "valueOf";
   "__defineGetter__"; "__defineSetter__"; "__lookupGetter__";
   "__lookupSetter__"; "__proto__"]%string.

Inductive jsvalue :=
| VString (s : jsstring)
| VInherited (property : jsstring).

Definition obj_set (o : object) (key value : jsstring) : object :=
  if str_eqb key (js "__proto__") then o else (key, value) :: o.

(** [o[key]] ([None] is [undefined]) *)
Definition obj_get (o : object) (key : jsstring) : option jsvalue :=
  match lookup_attr key o with
  | Some v => Some (VString v)
  | None =>
      if in_tags object_prototype_names key then Some (VInherited key)
      else None
  end.

Definition truthy (v : option jsvalue) : bool :=
  match v with
  | Some (VString s) => negb (is_empty s)
  | Some (VInherited _) => true
  | None => false
  end.

(** The body of a footnote: its [li] without the back-references *)
Definition footnote_body (quirks : bool) (li : node) : jsstring :=
  trim (innerHTML (remove_descendants (backref_selector quirks) li)).

Definition add_footnote (quirks : bool) (footnoteMap : object) (li : node)
    : object :=
  let id := or_empty (getAttribute "id" li) in
  if is_empty id then footnoteMap
  else obj_set footnoteMap id (footnote_body quirks li).

Definition collect_footnotes (doc : document) : object :=
  match doc_querySelector (footnotes_selector (doc_quirks doc)) doc with
  | Some footnotesSection =>
      fold_left (add_footnote (doc_quirks doc))
        (footnote_items footnotesSection) []
  | None => []
  end.

(** [a[href^="#"]] *)
Definition fragment_link (n : node) : bool :=
  has_tag "a" n && attr_starts "href" "#" n.

(** The footnote an anchor refers to, when [footnoteMap] knows it *)
Definition footnote_ref (footnoteMap : object) (a : node)
    : option jsstring :=
  let href := link_href a in
  if startsWith (js "#") href then
    let refId := tl href in
    if negb (is_empty refId) && truthy (obj_get footnoteMap refId)
    then Some refId else None
  else None.

Definition is_footnote_ref (footnoteMap : object) (n : node) : bool :=
  fragment_link n
  && match footnote_ref footnoteMap n with
     | Some _ => true
     | None => false
     end.

Definition push_new (ids : list jsstring) (id : jsstring)
    : list jsstring :=
  if existsb (str_eqb id) ids then ids else ids ++ [id].

Definition note_refs (footnoteMap : object) (ids : list jsstring)
    (el : node) : list jsstring :=
  fold_left
    (fun ids a =>
       match footnote_ref footnoteMap a with
       | Some refId => push_new ids refId
       | None => ids
       end)
    (querySelectorAll fragment_link el) ids.

Definition referenced_ids (footnoteMap : object)
    (commentaryElements : list node) : list jsstring :=
  fold_left (note_refs footnoteMap) commentaryElements [].

(** [footnoteMap[id] || ''] as the string [innerHTML] is set to *)
Definition footnote_html (footnoteMap : object) (id : jsstring)
    : jsstring :=
  match obj_get footnoteMap id with
  | Some (VString s) => s
  | Some (VInherited p) => inherited_to_string p
  | None => []
  end.

Definition footnote_li (footnoteMap : object) (id : jsstring) : node :=
  Element (js "li")
    match str_match false re_trailing_digits id with
    | Some m =>
        [(js "value",
          match m_group m 1 with
          | Some ds => parseInt_toString big_number_string ds
          | None => js "NaN"
          end)]
    | None => []
    end
    (parse_fragment (footnote_html footnoteMap id)).

Definition footnotes_wrapper (footnoteMap : object)
    (referencedFootnoteIds : list jsstring) : node :=
  Element (js "div") [(js "class", js "commentary-footnotes")]
    [Element (js "ol") []
       (List.map (footnote_li footnoteMap) referencedFootnoteIds)].

(** The commentary elements after the footnote pass *)
Definition with_footnotes (footnoteMap : object)
    (commentaryElements : list node) : list node :=
  let referencedFootnoteIds :=
    referenced_ids footnoteMap commentaryElements in
  List.map (unlink_descendants (is_footnote_ref footnoteMap))
    commentaryElements
  ++ match referencedFootnoteIds with
     | [] => []
     | _ :: _ => [footnotes_wrapper footnoteMap referencedFootnoteIds]
     end.

Definition process_h3 (doc : document) (h3 : located)
    (nextH3 : option path) : completion (option Rev2.LevelData) :=
  np <- split_heading (textContent (loc_node h3)) ;;
  let allContent := Rev2.section_content h3 nextH3 in
  found <- find_difficulty 0 allContent ;;
  match found with
  | None => Normal None
  | Some (difficulty, difficultyElementIndex) =>
      let links := scan_links difficultyElementIndex 0 allContent no_links in
      let commentaryElements :=
        with_footnotes (collect_footnotes doc)
          (Rev2.commentary_elements allContent difficultyElementIndex) in
      Normal (Some (Rev2.Level (fst np) (snd np) difficulty
                      (Parser.youtubeUrl links) (Parser.gdBrowserUrl links)
                      (join_outerHTML commentaryElements)))
  end.

Definition fetchAndParseLevelData (r : response)
    : completion (list Rev2.LevelData) :=
  fetch_and_parse (process_h3 (parsed r)) r.

End WithEngine.

End Rev3.

(** ** Specification vocabulary *)

(** What a regular expression may match, without the order in which the
    backtracking matcher tries the alternatives: [matches ic r st st']
    when [r] can take the matcher from state [st] to state [st']. *)
Inductive matches (ic : bool) : regex -> mstate -> mstate -> Prop :=
| M_Eps st : matches ic Eps st st
| M_Chr c x xs st :
    ms_rest st = x :: xs -> chr_eq ic c x = true ->
    matches ic (Chr c) st (advance st xs)
| M_Cls p x xs st :
    ms_rest st = x :: xs -> p x = true ->
    matches ic (Cls p) st (advance st xs)
| M_Bol st : ms_pos st = 0%nat -> matches ic Bol st st
| M_Eol st : ms_rest st = [] -> matches ic Eol st st
| M_Cat r1 r2 st st1 st2 :
    matches ic r1 st st1 -> matches ic r2 st1 st2 ->
    matches ic (Cat r1 r2) st st2
| M_AltL r1 r2 st st' : matches ic r1 st st' -> matches ic (Alt r1 r2) st st'
| M_AltR r1 r2 st st' : matches ic r2 st st' -> matches ic (Alt r1 r2) st st'
| M_Grp n r st st' :
    matches ic r st st' ->
    matches ic (Grp n r) st
      (MState (ms_pos st') (ms_rest st')
         ((n, firstn (ms_pos st' - ms_pos st) (ms_rest st)) :: ms_caps st'))
| M_Rep lazy min p st run rest :
    ms_rest st = run ++ rest -> forallb p run = true ->
    (min <= List.length run)%nat ->
    matches ic (Rep lazy min p) st
      (MState (ms_pos st + List.length run) rest (ms_caps st)).

(** Equality of strings up to ASCII case *)
Definition ci_eq (a b : jsstring) : Prop :=
  List.map ascii_upper a = List.map ascii_upper b.

Definition spaces (w : jsstring) : Prop := forallb is_space w = true.

(** [s] begins with the label of a difficulty line:
    "Difficulty", white space, "value:", in any case. *)
Definition label_at (s rest : jsstring) : Prop :=
  exists kw w1 val,
    s = kw ++ w1 ++ val ++ rest /\
    ci_eq kw (js "Difficulty") /\ w1 <> [] /\ spaces w1 /\
    ci_eq val (js "value:").

(** [s] begins with a difficulty line whose number text is [num]; [num] is
    a run of digits, commas and points. *)
Definition difficulty_line_at (s num rest : jsstring) : Prop :=
  exists w2 after,
    label_at s after /\ after = w2 ++ num ++ rest /\ spaces w2 /\
    num <> [] /\ forallb cls_num num = true.

(** Some text of [s] matches "Difficulty value: <number>". *)
Definition has_difficulty_line (s : jsstring) : Prop :=
  exists pre line num rest,
    s = pre ++ line /\ difficulty_line_at line num rest.

(** [s] begins with a separator of name and author: white space, then
    "by" in any case or "-", then white space. *)
Definition separator_at (s rest : jsstring) : Prop :=
  exists w1 kw w2,
    s = w1 ++ kw ++ w2 ++ rest /\
    w1 <> [] /\ spaces w1 /\ (ci_eq kw (js "by") \/ kw = js "-") /\
    w2 <> [] /\ spaces w2.



(** A list without its repetitions, each element where it first occurs *)
Fixpoint first_occurrences (l : list jsstring) : list jsstring :=
  match l with
  | [] => []
  | x :: l' => x :: filter (fun y => negb (str_eqb x y)) (first_occurrences l')
  end.

(** ** Documents of the examples *)

Definition el (t : string) (a : list (string * string)) (cs : list node)
    : node :=
  Element (js t) (List.map (fun kv => (js (fst kv), js (snd kv))) a) cs.

Definition txt (s : string) : node := Text (js s).

Definition page (body : list node) : document :=
  Document false [el "html" [] [el "head" [] []; el "body" [] body]].

Definition fetched (d : document) : response := Response true (js "OK") d.

Definition attr (name value : string) : string * string := (name, value).
Definition h3Elements (doc : document) : list located :=
  doc_querySelectorAll (has_tag "h3") doc.

(** The [i]-th h3 of a document and the path of the one after it *)
Definition h3_at (doc : document) (i : nat) : located :=
  nth i (h3Elements doc) (Located [] (Text []) []).

Definition h3_after (doc : document) (i : nat) : option path :=
  option_map loc_path (nth_error (h3Elements doc) (S i)).

(** Two sections, the second without a difficulty line *)
Definition doc_alpha_beta : document := page
  [ el "h3" [] [txt "Level Alpha by Coder1"];
    el "p" [] [txt "Difficulty value: 2.0"];
    el "p" [] [el "a" [attr "href" "https://www.youtube.com/watch?v=a"]
                 [txt "Video"]];
    el "p" [] [txt "A fine level."];
    el "h3" [] [txt "Level Beta"];
    el "p" [] [txt "No rating yet."] ].


Definition doc_two_separators : document := page
  [ el "h3" [] [txt "Stand by Me by Jane"];
    el "p" [] [txt "Difficulty value: 3"] ].

Definition doc_empty_heading : document := page
  [ el "h3" [] [];
    el "p" [] [txt "Difficulty value: 5"] ].


(** A link the link loop recognizes as a YouTube or GDBrowser link *)
Definition recognized {E : Engine} (link : node) : bool :=
  is_youtube (link_href link) (link_text link)
  || is_gdbrowser (link_href link) (link_text link).

Definition has_recognized_link {E : Engine} (element : node) : bool :=
  existsb recognized (anchors element).

(** The footnotes the anchors of the commentary refer to, one for each
    reference, in the order of the references *)
Definition all_refs (footnoteMap : Rev3.object)
    (commentaryElements : list node) : list jsstring :=
  flat_map
    (fun el =>
       flat_map
         (fun a =>
            match Rev3.footnote_ref footnoteMap a with
            | Some refId => [refId]
            | None => []
            end)
         (querySelectorAll Rev3.fragment_link el))
    commentaryElements.

(** A section with an h2 between its paragraphs *)
Definition doc_inner_heading : document := page
  [ el "h3" [] [txt "Level X"];
    el "p" [] [txt "Difficulty value: 1"];
    el "h2" [] [txt "Other"];
    el "p" [] [txt "More"] ].

(** A GDBrowser link in the element before the one with the YouTube
    link *)
Definition doc_gdbrowser_first : document := page
  [ el "h3" [] [txt "Level X"];
    el "p" [] [txt "Difficulty value: 3"];
    el "p" [] [el "a" [attr "href" "https://gdbrowser.com/1"] [txt "Level"]];
    el "p" [] [el "a" [attr "href" "https://youtu.be/x"] [txt "Video"]] ].

(** A selector that looks at the name and the attributes of an element
    only *)
Definition shallow (p : node -> bool) : Prop :=
  forall t a cs cs', p (Element t a cs) = p (Element t a cs').

(** The links in a paragraph of their own, after the difficulty line *)
Definition doc_links_line : document := page
  [ el "h3" [] [txt "Level X"];
    el "p" [] [txt "Difficulty value: 5"];
    el "p" [] [txt "Watch: ";
               el "a" [attr "href" "https://youtu.be/x"] [txt "video"]];
    el "p" [] [txt "Great level."] ].

(** The link of the difficulty line again in the commentary *)
Definition doc_same_href : document := page
  [ el "h3" [] [txt "Level X"];
    el "p" [] [txt "Difficulty value: 5 ";
               el "a" [attr "href" "https://youtu.be/x"] [txt "video"]];
    el "p" [] [txt "See ";
               el "a" [attr "href" "https://youtu.be/x"] [txt "it"];
               txt " and ";
               el "a" [attr "href" "https://youtu.be/y"] [txt "that"]] ].

(** A footnote whose item holds its back-reference only *)
Definition doc_empty_footnote : document := page
  [ el "article" []
      [ el "h3" [] [txt "Level X"];
        el "p" [] [txt "Difficulty value: 4"];
        el "p" [] [txt "Hard";
                   el "a" [attr "href" "#fn1"] [el "sup" [] [txt "1"]]] ];
    el "section" [attr "class" "footnotes"]
      [ el "ol" []
          [ el "li" [attr "id" "fn1"]
              [el "a" [attr "href" "#fnref1"] [txt "back"]] ] ] ].

(** A footnote referred to twice *)
Definition doc_footnote : document := page
  [ el "article" []
      [ el "h3" [] [txt "Level X"];
        el "p" [] [txt "Difficulty value: 4"];
        el "p" [] [txt "Hard";
                   el "a" [attr "href" "#fn7"] [el "sup" [] [txt "7"]];
                   txt " indeed";
                   el "a" [attr "href" "#fn7"] [el "sup" [] [txt "7"]]] ];
    el "section" [attr "class" "footnotes"]
      [ el "ol" []
          [ el "li" [attr "id" "fn7"]
              [txt "A note. ";
               el "a" [attr "href" "#fnref7"] [txt "back"]] ] ] ].

(** An engine for the examples.  Their texts are ASCII, their footnote
    bodies plain text, which the HTML parser turns into one text node, and
    their numbers small. *)
Definition example_engine : Engine := {|
  unicode_lower := fun _ c _ => [c];
  parse_fragment := fun s => match s with [] => [] | _ :: _ => [Text s] end;
  big_number_string := N_to_string;
  inherited_to_string :=
    fun p => js "function " ++ p ++ js "() { [native code] }"
|}.

(** The level of the first section of [doc_alpha_beta] *)
Definition level_alpha : Rev2.LevelData :=
  Rev2.Level (js "Level Alpha") (js "Coder1") (Fin 2)
    (Some (js "https://www.youtube.com/watch?v=a")) None
    (outerHTML (el "p" [] [txt "A fine level."])).

(** ** Vocabulary of the further properties *)

(** The element of a list that a loop which overwrites its variable at
    every element satisfying [p] ends with: the last such element *)
Definition last_such {A : Type} (p : A -> bool) (l : list A) : option A :=
  find p (rev l).

(** A link the link loop takes for a GDBrowser link: the [else if] branch *)
Definition gdbrowser_only {E : Engine} (link : node) : bool :=
  negb (is_youtube (link_href link) (link_text link))
  && is_gdbrowser (link_href link) (link_text link).

Definition youtube_link {E : Engine} (link : node) : bool :=
  is_youtube (link_href link) (link_text link).

(** A number that is not below zero *)
Definition not_negative (x : number) : Prop :=
  match x with
  | NaN | PosInf => True
  | NegInf => False
  | Fin q => 0 <= q
  end.

(** The level a step pushed, as a list *)
Definition pushed {A : Type} (c : completion (option A)) : list A :=
  match c with
  | Normal (Some l) => [l]
  | _ => []
  end.

(** ** The entry point: [init] of main.ts

    [init] looks the container [#app] up, fetches and parses the levels
    with the parser of its revision, the one with footnotes, and hands
    them to the visualization; an error on the way is shown in
    the container and logged.  Its effects are what it assigns to
    [app.innerHTML], the visualization it constructs and what it logs;
    [app] tells whether [document.querySelector('#app')] finds an
    element. *)

Module Main.

Inductive effect :=
| SetInnerHTML (html : jsstring)
| NewVisualization (data : list Rev2.LevelData)
| ConsoleError (label : jsstring) (error : exn).

Section WithEngine.
Context {E : Engine}.
(** What [new GDVisualization({container, data})] completes with *)
Variable construct : list Rev2.LevelData -> completion unit.
(** [error.message] of a TypeError, a text of the engine *)
Variable type_error_message : jsstring.

(** Both kinds of exception are instances of [Error]. *)
Definition instanceof_Error (error : exn) : bool :=
  match error with
  | Error _ => true
  | TypeError => true
  end.

Definition message (error : exn) : jsstring :=
  match error with
  | Error m => m
  | TypeError => type_error_message
  end.

Definition no_data_html : jsstring :=
  js "<p>No level data found. Please check the blog post URL.</p>".

Definition newline : jsstring := [10%N].

(** The template literal of the [catch] block *)
Definition error_html (error : exn) : jsstring :=
  newline
  ++ js "        <div style=" ++ quote ++ js "padding: 20px; color: red;"
  ++ quote ++ js ">" ++ newline
  ++ js "          <h2>Error loading visualization</h2>" ++ newline
  ++ js "          <p>"
  ++ (if instanceof_Error error then message error
      else js "Unknown error occurred")
  ++ js "</p>" ++ newline
  ++ js "          <p>Please ensure the blog post is accessible "
  ++ js "at the configured URL.</p>" ++ newline
  ++ js "        </div>" ++ newline
  ++ js "      ".

(** The [try] block: its effects and how it completes *)
Definition try_block (app : bool) (r : response)
    : list effect * completion unit :=
  if negb app then ([], Throw (Error (js "App container not found")))
  else
    match Rev3.fetchAndParseLevelData r with
    | Throw error => ([], Throw error)
    | Normal levelData =>
        if (List.length levelData =? 0)%nat
        then ([SetInnerHTML no_data_html], Normal tt)
        else ([NewVisualization levelData], construct levelData)
    end.

Definition catch_block (app : bool) (error : exn) : list effect :=
  (if app then [SetInnerHTML (error_html error)] else [])
  ++ [ConsoleError (js "Failed to initialize visualization:") error].

Definition init (app : bool) (r : response) : list effect :=
  let '(effects, c) := try_block app r in
  match c with
  | Normal _ => effects
  | Throw error => effects ++ catch_block app error
  end.

End WithEngine.

End Main.

(** ** The navigation state of the visualization (visualization.ts)

    Of [GDVisualization] the fields that say which levels are visible and
    which one is selected, the disabled state of the two buttons, and the
    level the details panel shows.  The drawing of the chart with d3 adds
    nothing to these fields and is left out; the band scale of the x axis
    comes with the events that use it.  A level of [data] is identified
    by its index: the parser pushes a fresh object for every level, so
    [data.indexOf(d)] is the index [d] stands at. *)

Module Visualization.

(** [this.xScale]: the start of the band of a name, when the name is in
    the domain, and [bandwidth()] *)
Record band_scale := BandScale {
  scale_at : jsstring -> option Q;
  bandwidth : Q
}.

Section WithData.
Variable L : Type.
Variable name : L -> jsstring.
Variable data : list L.

Record state := State {
  visibleLevels : Z;
  selectedLevelIndex : Z;
  backDisabled : bool;
  forwardDisabled : bool;
  isSelecting : bool;
  details : option L
}.

Definition data_length : Z := Z.of_nat (List.length data).

(** [this.data[i]] ([None] is [undefined]) *)
Definition data_at (i : Z) : option L :=
  if (i <? 0)%Z then None else nth_error data (Z.to_nat i).

(** [this.data.slice(0, n)] *)
Definition slice0 (n : Z) : list L :=
  if (n <? 0)%Z then firstn (Z.to_nat (Z.max (data_length + n) 0)) data
  else firstn (Z.to_nat n) data.

(** [updateDetailsPanel(level)] reads [level.difficulty]: a TypeError
    when [level] is undefined. *)
Definition updateDetailsPanel (level : option L) (s : state)
    : completion state :=
  match level with
  | Some l =>
      Normal (State (visibleLevels s) (selectedLevelIndex s)
                (backDisabled s) (forwardDisabled s) (isSelecting s)
                (Some l))
  | None => Throw TypeError
  end.

Definition updateNavigationButtons (s : state) : state :=
  State (visibleLevels s) (selectedLevelIndex s)
    (visibleLevels s <=? 1)%Z (data_length <=? visibleLevels s)%Z
    (isSelecting s) (details s).

(** [update()], after the drawing *)
Definition update (s : state) : completion state :=
  s1 <- (if (selectedLevelIndex s <? data_length)%Z
         then updateDetailsPanel (data_at (selectedLevelIndex s)) s
         else Normal s) ;;
  Normal (updateNavigationButtons s1).

(** The fields as declared and as [createDetailsPanel] and
    [createNavigationButtons] leave them, and the constructor's first
    [update()] *)
Definition created : state := State 1 0 true false false None.

Definition constructed : completion state := update created.

Definition goForward (s : state) : completion state :=
  if (visibleLevels s <? data_length)%Z then
    let visible := (visibleLevels s + 1)%Z in
    s1 <- update (State visible (visible - 1)%Z (backDisabled s)
                    (forwardDisabled s) (isSelecting s) (details s)) ;;
    Normal (updateNavigationButtons s1)
  else Normal s.

Definition goBack (s : state) : completion state :=
  if (1 <? visibleLevels s)%Z then
    let visible := (visibleLevels s - 1)%Z in
    s1 <- update (State visible (visible - 1)%Z (backDisabled s)
                    (forwardDisabled s) (isSelecting s) (details s)) ;;
    Normal (updateNavigationButtons s1)
  else Normal s.

Definition select (idx : nat) (s : state) : state :=
  State (visibleLevels s) (Z.of_nat idx) (backDisabled s)
    (forwardDisabled s) (isSelecting s) (details s).

(** The click on the click area of the [i]-th visible level *)
Definition click_area (i : nat) (s : state) : completion state :=
  match nth_error (slice0 (visibleLevels s)) i with
  | Some d => updateDetailsPanel (Some d) (select i s)
  | None => Normal s
  end.

(** [visibleData.find(l => l.name === d)], with the index of what it
    finds *)
Fixpoint find_named (d : jsstring) (i : nat) (visibleData : list L)
    : option (nat * L) :=
  match visibleData with
  | [] => None
  | l :: rest =>
      if str_eqb (name l) d then Some (i, l)
      else find_named d (S i) rest
  end.

(** The click on the axis label [d] *)
Definition click_label (d : jsstring) (s : state) : completion state :=
  match find_named d 0 (slice0 (visibleLevels s)) with
  | Some (i, level) => updateDetailsPanel (Some level) (select i s)
  | None => Normal s
  end.

Definition or_zero (v : option Q) : Q :=
  match v with
  | Some q => q
  | None => 0
  end.

(** [dist < minDist], [None] being [Infinity] *)
Definition below (dist : Q) (minDist : option Q) : bool :=
  match minDist with
  | None => true
  | Some m => negb (Qle_bool m dist)
  end.

(** The distance of [x] from the middle of the band of a level *)
Definition band_distance (xScale : band_scale) (x : Q) (d : L) : Q :=
  Qabs (or_zero (scale_at xScale (name d)) + bandwidth xScale / 2 - x).

(** The [forEach] of [xToNearestIndex], from the [i]-th visible level on *)
Fixpoint nearest_from (xScale : band_scale) (x : Q) (i : nat)
    (visibleData : list L) (nearest : nat) (minDist : option Q) : nat :=
  match visibleData with
  | [] => nearest
  | d :: rest =>
      let dist := band_distance xScale x d in
      if below dist minDist
      then nearest_from xScale x (S i) rest i (Some dist)
      else nearest_from xScale x (S i) rest nearest minDist
  end.

Definition xToNearestIndex (xScale : band_scale) (s : state) (x : Q)
    : nat :=
  nearest_from xScale x 0 (slice0 (visibleLevels s)) 0 None.

(** The long press that starts a selection at chart position [x] *)
Definition long_press (xScale : band_scale) (x : Q) (s : state)
    : completion state :=
  let idx := xToNearestIndex xScale s x in
  updateDetailsPanel (data_at (Z.of_nat idx))
    (State (visibleLevels s) (Z.of_nat idx) (backDisabled s)
       (forwardDisabled s) true (details s)).

Definition movePress (xScale : band_scale) (x : Q) (s : state)
    : completion state :=
  if negb (isSelecting s) then Normal s
  else
    let idx := xToNearestIndex xScale s x in
    if negb (Z.of_nat idx =? selectedLevelIndex s)%Z
    then updateDetailsPanel (data_at (Z.of_nat idx)) (select idx s)
    else Normal s.

Definition endPress (s : state) : state :=
  if isSelecting s
  then State (visibleLevels s) (selectedLevelIndex s) (backDisabled s)
         (forwardDisabled s) false (details s)
  else s.

(** What the user does *)
Inductive event :=
| GoForward
| GoBack
| ClickArea (i : nat)
| ClickLabel (d : jsstring)
| LongPress (xScale : band_scale) (x : Q)
| MovePress (xScale : band_scale) (x : Q)
| EndPress.

Definition handle (e : event) (s : state) : completion state :=
  match e with
  | GoForward => goForward s
  | GoBack => goBack s
  | ClickArea i => click_area i s
  | ClickLabel d => click_label d s
  | LongPress xScale x => long_press xScale x s
  | MovePress xScale x => movePress xScale x s
  | EndPress => Normal (endPress s)
  end.

Fixpoint handle_all (events : list event) (s : state) : completion state :=
  match events with
  | [] => Normal s
  | e :: rest => s1 <- handle e s ;; handle_all rest s1
  end.

(** The selected level is visible and shown, and the buttons say where
    the visible range ends. *)
Definition consistent (s : state) : Prop :=
  (1 <= visibleLevels s <= data_length)%Z /\
  (0 <= selectedLevelIndex s < visibleLevels s)%Z /\
  backDisabled s = (visibleLevels s <=? 1)%Z /\
  forwardDisabled s = (data_length <=? visibleLevels s)%Z /\
  details s = data_at (selectedLevelIndex s).

End WithData.

Arguments State {L} visibleLevels selectedLevelIndex backDisabled
  forwardDisabled isSelecting details.
Arguments visibleLevels {L} s.
Arguments selectedLevelIndex {L} s.
Arguments backDisabled {L} s.
Arguments forwardDisabled {L} s.
Arguments isSelecting {L} s.
Arguments details {L} s.
Arguments data_length {L} data.
Arguments data_at {L} data i.
Arguments slice0 {L} data n.
Arguments updateDetailsPanel {L} level s.
Arguments updateNavigationButtons {L} data s.
Arguments update {L} data s.
Arguments created {L}.
Arguments constructed {L} data.
Arguments goForward {L} data s.
Arguments goBack {L} data s.
Arguments select {L} idx s.
Arguments click_area {L} data i s.
Arguments find_named {L} name d i visibleData.
Arguments click_label {L} name data d s.
Arguments band_distance {L} name xScale x d.
Arguments nearest_from {L} name xScale x i visibleData nearest minDist.
Arguments xToNearestIndex {L} name data xScale s x.
Arguments long_press {L} name data xScale x s.
Arguments movePress {L} name data xScale x s.
Arguments endPress {L} s.
Arguments handle {L} name data e s.
Arguments handle_all {L} name data events s.
Arguments consistent {L} data s.

(** *** The size of the chart

    [window.innerWidth] and [window.innerHeight] are integers.  The sizes
    are computed in exact arithmetic; the rounding of the one product that
    is no integer is outside the model. *)

Record margins := Margins {
  top : Q;
  right : Q;
  bottom : Q;
  left : Q
}.

Record dimensions := Dimensions {
  isMobile : bool;
  margin : margins;
  width : Q;
  height : Q
}.

Definition updateMobileState (innerWidth : Z) : bool :=
  (innerWidth <=? 768)%Z.

(** [Math.max(a, b)] *)
Definition Math_max (a b : Q) : Q := if Qle_bool a b then b else a.

Definition updateDimensions (isMobile : bool) (innerWidth innerHeight : Z)
    : dimensions :=
  if isMobile then
    let commentaryHeight := inject_Z innerHeight * (55 # 100) in
    let buttonHeight := 60 in
    let availableHeight :=
      inject_Z innerHeight - commentaryHeight - buttonHeight in
    let margin := Margins 20 20 60 20 in
    Dimensions isMobile margin
      (inject_Z innerWidth - left margin - right margin)
      (Math_max 200 (availableHeight - top margin - bottom margin))
  else
    let margin := Margins 20 400 145 60 in
    Dimensions isMobile margin
      (inject_Z innerWidth - left margin - right margin)
      (inject_Z innerHeight - top margin - bottom margin).

(** The [width] and [height] attributes the svg element is given *)
Definition svg_width (d : dimensions) : Q :=
  width d + left (margin d) + right (margin d).

Definition svg_height (d : dimensions) : Q :=
  height d + top (margin d) + bottom (margin d).

(** The sizes after [updateMobileState()] and [updateDimensions()] *)
Definition resized (innerWidth innerHeight : Z) : dimensions :=
  updateDimensions (updateMobileState innerWidth) innerWidth innerHeight.

End Visualization.


(** Two YouTube links in the element of the difficulty line *)
Definition doc_two_videos : document := page
  [ el "h3" [] [txt "Level X"];
    el "p" []
      [ txt "Difficulty value: 7 ";
        el "a" [attr "href" "https://youtu.be/first"] [txt "one"];
        el "a" [attr "href" "https://youtu.be/second"] [txt "two"] ];
    el "p" [] [txt "Some words."] ].

(** Two levels for the visualization *)
Definition two_levels : list Rev1.LevelData :=
  [ Rev1.Level (js "Alpha") (js "Coder1") (Fin 2) None None [];
    Rev1.Level (js "Beta") [] (Fin 5) None None [] ].

(** * Properties *)

(** ** Strings *)

Lemma str_eqb_eq (a b : jsstring) : str_eqb a b = true <-> a = b.
Proof.
  revert b; induction a as [|x a IH]; destruct b as [|y b]; simpl;
    try (split; congruence).
  rewrite andb_true_iff, N.eqb_eq, IH. split.
  - intros [-> ->]; reflexivity.
  - intros H; injection H; auto.
Qed.

Lemma str_eqb_refl (a : jsstring) : str_eqb a a = true.
Proof. apply str_eqb_eq; reflexivity. Qed.

Lemma str_eqb_neq (a b : jsstring) : str_eqb a b = false <-> a <> b.
Proof.
  rewrite <- str_eqb_eq. destruct (str_eqb a b); split; congruence.
Qed.

Lemma is_empty_true (s : jsstring) : is_empty s = true <-> s = [].
Proof. destruct s; simpl; split; congruence. Qed.

Lemma is_empty_false (s : jsstring) : is_empty s = false <-> s <> [].
Proof. destruct s; simpl; split; congruence. Qed.

Lemma trimStart_suffix (s : jsstring) :
  exists w, s = w ++ trimStart s /\ forallb is_space w = true.
Proof.
  induction s as [|c s [w [Hs Hw]]]; simpl.
  - exists []; auto.
  - destruct (is_space c) eqn:Hc.
    + exists (c :: w); simpl. rewrite Hc, Hw. split; [f_equal; exact Hs|reflexivity].
    + exists []; auto.
Qed.

Lemma trimStart_head (s : jsstring) c s' :
  trimStart s = c :: s' -> is_space c = false.
Proof.
  induction s as [|x s IH]; simpl; [discriminate|].
  destruct (is_space x) eqn:Hx; auto.
  intros H; injection H as -> _; assumption.
Qed.

Lemma trimStart_fixed c (s : jsstring) :
  is_space c = false -> trimStart (c :: s) = c :: s.
Proof. intros H; simpl; rewrite H; reflexivity. Qed.

Lemma trimStart_app_nonspace (s t : jsstring) c s' :
  trimStart s = c :: s' -> trimStart (s ++ t) = c :: s' ++ t.
Proof.
  induction s as [|x s IH]; simpl; [discriminate|].
  destruct (is_space x); auto.
  intros H; injection H as -> ->; reflexivity.
Qed.

(** The trimmed text neither begins nor ends with white space. *)
Lemma trim_head (s : jsstring) c s' : trim s = c :: s' -> is_space c = false.
Proof.
  unfold trim, trimEnd. intros H.
  destruct (trimStart s) as [|x t] eqn:Ht; [discriminate|].
  pose proof (trimStart_head _ _ _ Ht) as Hx.
  destruct (trimStart (rev (x :: t))) as [|y u] eqn:Hu; [discriminate|].
  destruct (trimStart_suffix (rev (x :: t))) as [w [Hw _]].
  rewrite Hu in Hw. apply (f_equal (@rev N)) in Hw.
  rewrite rev_involutive, rev_app_distr in Hw.
  rewrite H in Hw. simpl in Hw. injection Hw as -> _. assumption.
Qed.

Lemma trim_last (s : jsstring) t c : trim s = t ++ [c] -> is_space c = false.
Proof.
  unfold trim, trimEnd. intros H.
  apply (f_equal (@rev N)) in H.
  rewrite rev_involutive, rev_app_distr in H. simpl in H.
  eapply trimStart_head; eassumption.
Qed.

Lemma trimEnd_fixed (s : jsstring) c :
  is_space c = false -> trimEnd (s ++ [c]) = s ++ [c].
Proof.
  intros H. unfold trimEnd. rewrite rev_app_distr. simpl.
  rewrite H. simpl. rewrite rev_involutive. reflexivity.
Qed.

(** A text that neither begins nor ends with white space is its own
    trimming. *)
Lemma trim_fixed (s : jsstring) c d t :
  s = c :: t -> (exists u, s = u ++ [d]) ->
  is_space c = false -> is_space d = false -> trim s = s.
Proof.
  intros -> [u Hu] Hc Hd. unfold trim.
  rewrite trimStart_fixed by assumption. rewrite Hu. apply trimEnd_fixed; assumption.
Qed.

Lemma trim_nil_iff_spaces (s : jsstring) :
  trim s = [] <-> forallb is_space s = true.
Proof.
  unfold trim, trimEnd. split.
  - intros H. apply (f_equal (@rev N)) in H. rewrite rev_involutive in H.
    simpl in H.
    destruct (trimStart_suffix s) as [w [Hs Hw]].
    destruct (trimStart s) as [|x t] eqn:Ht.
    + rewrite app_nil_r in Hs; subst; assumption.
    + exfalso. pose proof (trimStart_head _ _ _ Ht) as Hx.
      destruct (trimStart_suffix (rev (x :: t))) as [w' [Hs' Hw']].
      rewrite H, app_nil_r in Hs'.
      rewrite <- Hs' in Hw'. rewrite forallb_forall in Hw'.
      specialize (Hw' x). rewrite Hw' in Hx; [discriminate|].
      apply in_rev. rewrite rev_involutive. left; reflexivity.
  - intros H.
    assert (Hn : trimStart s = []).
    { clear -H. induction s as [|c s IH]; simpl in *; auto.
      apply andb_true_iff in H as [-> H]. auto. }
    rewrite Hn. reflexivity.
Qed.


(** ** The matcher and what a regular expression may match *)

Lemma mstate_eta st : MState (ms_pos st) (ms_rest st) (ms_caps st) = st.
Proof. destruct st; reflexivity. Qed.

Lemma rep_greedy_sound p k caps res rest : forall min pos,
  rep_greedy p min pos rest caps k = Some res ->
  exists run tl,
    rest = run ++ tl /\ forallb p run = true /\ (min <= List.length run)%nat /\
    k (MState (pos + List.length run) tl caps) = Some res.
Proof.
  induction rest as [|x xs IH]; intros min pos H; simpl in H.
  - destruct min; [|discriminate].
    exists [], []; rewrite Nat.add_0_r; auto.
  - assert (Hstop : match min with
                    | O => k (MState pos (x :: xs) caps)
                    | S _ => None
                    end = Some res ->
            exists run tl,
              x :: xs = run ++ tl /\ forallb p run = true /\
              (min <= List.length run)%nat /\
              k (MState (pos + List.length run) tl caps) = Some res).
    { destruct min; [|discriminate]. intros Hk.
      exists [], (x :: xs); rewrite Nat.add_0_r; auto. }
    destruct (p x) eqn:Hp; [|auto].
    destruct (rep_greedy p (pred min) (S pos) xs caps k) eqn:Hr; [|auto].
    injection H as <-.
    apply IH in Hr as (run & tl & -> & Hrun & Hmin & Hk).
    exists (x :: run), tl; simpl; rewrite Hp, Hrun.
    repeat split; [lia|].
    rewrite <- Hk; do 2 f_equal; lia.
Qed.

Lemma rep_lazy_sound p k caps res rest : forall min pos,
  rep_lazy p min pos rest caps k = Some res ->
  exists run tl,
    rest = run ++ tl /\ forallb p run = true /\ (min <= List.length run)%nat /\
    k (MState (pos + List.length run) tl caps) = Some res.
Proof.
  induction rest as [|x xs IH]; intros min pos H.
  - destruct min; simpl in H; [|discriminate].
    destruct (k (MState pos [] caps)) eqn:Hk; [|discriminate].
    injection H as <-.
    exists [], []; rewrite Nat.add_0_r; auto.
  - assert (Hmore : (if p x then rep_lazy p (pred min) (S pos) xs caps k
                     else None) = Some res ->
            exists run tl,
              x :: xs = run ++ tl /\ forallb p run = true /\
              (min <= List.length run)%nat /\
              k (MState (pos + List.length run) tl caps) = Some res).
    { destruct (p x) eqn:Hp; [|discriminate]. intros Hr.
      apply IH in Hr as (run & tl & -> & Hrun & Hmin & Hk).
      exists (x :: run), tl; simpl; rewrite Hp, Hrun.
      repeat split; [lia|].
      rewrite <- Hk; do 2 f_equal; lia. }
    destruct min; simpl in H; [|auto].
    destruct (k (MState pos (x :: xs) caps)) eqn:Hk; [|auto].
    injection H as <-.
    exists [], (x :: xs); rewrite Nat.add_0_r; auto.
Qed.

(** Whatever the matcher returns, the expression may match. *)
Lemma rmatch_sound ic r : forall st k res,
  rmatch ic r st k = Some res ->
  exists st', matches ic r st st' /\ k st' = Some res.
Proof.
  induction r; intros st k res H; simpl in H.
  - exists st; split; [constructor|assumption].
  - destruct (ms_rest st) as [|x xs] eqn:Hs; [discriminate|].
    destruct (chr_eq ic c x) eqn:Hc; [|discriminate].
    exists (advance st xs); split; [econstructor; eassumption|assumption].
  - destruct (ms_rest st) as [|x xs] eqn:Hs; [discriminate|].
    destruct (p x) eqn:Hc; [|discriminate].
    exists (advance st xs); split; [econstructor; eassumption|assumption].
  - destruct (ms_pos st) eqn:Hp; [|discriminate].
    exists st; split; [constructor; assumption|assumption].
  - destruct (ms_rest st) eqn:Hs; [|discriminate].
    exists st; split; [constructor; assumption|assumption].
  - apply IHr1 in H as (st1 & H1 & H).
    apply IHr2 in H as (st2 & H2 & H).
    exists st2; split; [econstructor; eassumption|assumption].
  - destruct (rmatch ic r1 st k) eqn:H1.
    + injection H as <-. apply IHr1 in H1 as (st' & H1 & Hk).
      exists st'; split; [apply M_AltL; assumption|assumption].
    + apply IHr2 in H as (st' & H2 & Hk).
      exists st'; split; [apply M_AltR; assumption|assumption].
  - apply IHr in H as (st' & H1 & Hk).
    eexists; split; [apply M_Grp; eassumption|assumption].
  - assert (exists run tl,
      ms_rest st = run ++ tl /\ forallb p run = true /\
      (min <= List.length run)%nat /\
      k (MState (ms_pos st + List.length run) tl (ms_caps st)) = Some res)
      as (run & tl & Hs & Hrun & Hmin & Hk).
    { destruct lazy; [eapply rep_lazy_sound|eapply rep_greedy_sound];
        eassumption. }
    eexists; split; [apply M_Rep; eassumption|assumption].
Qed.

Lemma rep_greedy_complete p k caps res tl run : forall min pos,
  forallb p run = true -> (min <= List.length run)%nat ->
  k (MState (pos + List.length run) tl caps) = Some res ->
  exists res', rep_greedy p min pos (run ++ tl) caps k = Some res'.
Proof.
  induction run as [|x run IH]; intros min pos Hrun Hmin Hk; simpl in *.
  - assert (min = 0%nat) as -> by lia. rewrite Nat.add_0_r in Hk.
    destruct tl as [|y ys]; simpl; [eauto|].
    destruct (p y); [|eauto].
    destruct (rep_greedy p 0 (S pos) ys caps k); eauto.
  - apply andb_true_iff in Hrun as [Hx Hrun]. rewrite Hx.
    destruct (IH (pred min) (S pos)) as [res' Hr]; [assumption|lia| |].
    + rewrite <- Hk; do 2 f_equal; lia.
    + rewrite Hr; eauto.
Qed.

Lemma rep_lazy_complete p k caps res tl run : forall min pos,
  forallb p run = true -> (min <= List.length run)%nat ->
  k (MState (pos + List.length run) tl caps) = Some res ->
  exists res', rep_lazy p min pos (run ++ tl) caps k = Some res'.
Proof.
  induction run as [|x run IH]; intros min pos Hrun Hmin Hk; simpl in *.
  - assert (min = 0%nat) as -> by lia. rewrite Nat.add_0_r in Hk.
    destruct tl as [|y ys]; simpl; rewrite Hk; eauto.
  - apply andb_true_iff in Hrun as [Hx Hrun]. rewrite Hx.
    destruct (IH (pred min) (S pos)) as [res' Hr]; [assumption|lia| |].
    + rewrite <- Hk; do 2 f_equal; lia.
    + rewrite Hr. destruct min; [|eauto].
      destruct (k (MState pos (x :: run ++ tl) caps)); eauto.
Qed.

(** Whatever the expression may match, the matcher finds a match. *)
Lemma rmatch_complete ic r st st' :
  matches ic r st st' ->
  forall k res, k st' = Some res -> exists res', rmatch ic r st k = Some res'.
Proof.
  induction 1; intros k res Hk; simpl.
  - eauto.
  - rewrite H, H0; eauto.
  - rewrite H, H0; eauto.
  - rewrite H; eauto.
  - rewrite H; eauto.
  - destruct (IHmatches2 _ _ Hk) as [res2 H2].
    eapply IHmatches1. exact H2.
  - destruct (IHmatches _ _ Hk) as [res1 ->]; eauto.
  - destruct (rmatch ic r1 st k); eauto.
  - eapply IHmatches. exact Hk.
  - rewrite H. destruct lazy;
      [eapply rep_lazy_complete|eapply rep_greedy_complete]; eassumption.
Qed.

(** A match consumes a prefix of the input and counts it. *)
Lemma matches_consumes ic r st st' :
  matches ic r st st' ->
  exists consumed,
    ms_rest st = consumed ++ ms_rest st' /\
    ms_pos st' = (ms_pos st + List.length consumed)%nat.
Proof.
  induction 1.
  - exists []; simpl; auto.
  - exists [x]; simpl; split; [assumption|lia].
  - exists [x]; simpl; split; [assumption|lia].
  - exists []; simpl; auto.
  - exists []; simpl; auto.
  - destruct IHmatches1 as (c1 & Hr1 & Hp1).
    destruct IHmatches2 as (c2 & Hr2 & Hp2).
    exists (c1 ++ c2). rewrite Hr1, Hr2, Hp2, Hp1, length_app, app_assoc.
    split; [reflexivity|lia].
  - assumption.
  - assumption.
  - assumption.
  - exists run; simpl; auto.
Qed.

Lemma firstn_consumed (consumed rest : jsstring) pos :
  firstn (pos + List.length consumed - pos) (consumed ++ rest) = consumed.
Proof.
  replace (pos + List.length consumed - pos)%nat
    with (List.length consumed + 0)%nat by lia.
  rewrite firstn_app_2. simpl. apply app_nil_r.
Qed.

(** *** Which match the matcher returns *)

Lemma span_spec p (s : jsstring) :
  s = fst (span p s) ++ snd (span p s) /\
  forallb p (fst (span p s)) = true /\
  match snd (span p s) with
  | x :: _ => p x = false
  | [] => True
  end.
Proof.
  induction s as [|c s (IH1 & IH2 & IH3)]; simpl; auto.
  destruct (p c) eqn:Hc; simpl; auto.
  destruct (span p s) as [a b]; simpl in *.
  rewrite Hc, IH2. repeat split; auto. congruence.
Qed.

(** The longest run is tried first. *)
Lemma rep_greedy_max p k caps res s : forall min pos,
  (min <= List.length (fst (span p s)))%nat ->
  k (MState (pos + List.length (fst (span p s))) (snd (span p s)) caps)
    = Some res ->
  rep_greedy p min pos s caps k = Some res.
Proof.
  induction s as [|x xs IH]; intros min pos Hmin Hk; simpl in *.
  - assert (min = 0%nat) as -> by lia. rewrite Nat.add_0_r in Hk. assumption.
  - destruct (p x) eqn:Hp; simpl in *.
    + destruct (span p xs) as [a b] eqn:Hsp; simpl in *.
      rewrite (IH (pred min) (S pos)); [reflexivity|lia|].
      rewrite <- Hk; do 2 f_equal; lia.
    + assert (min = 0%nat) as -> by lia. rewrite Nat.add_0_r in Hk. assumption.
Qed.

(** When what follows cannot start inside the run, only the longest run
    counts. *)
Lemma rep_greedy_commit p k caps s :
  (forall pos' x xs, p x = true -> k (MState pos' (x :: xs) caps) = None) ->
  forall min pos,
  rep_greedy p min pos s caps k =
  if (min <=? List.length (fst (span p s)))%nat
  then k (MState (pos + List.length (fst (span p s))) (snd (span p s)) caps)
  else None.
Proof.
  intros Hk. induction s as [|x xs IH]; intros min pos; simpl.
  - destruct min; simpl; [rewrite Nat.add_0_r|]; reflexivity.
  - destruct (p x) eqn:Hp; simpl.
    + rewrite IH. destruct (span p xs) as [a b]; simpl.
      rewrite Nat.add_succ_r.
      destruct min as [|m]; simpl.
      * rewrite Hk by assumption.
        destruct (k (MState (S (pos + List.length a)) b caps)); reflexivity.
      * destruct (m <=? List.length a)%nat; [|reflexivity].
        destruct (k (MState (S (pos + List.length a)) b caps)); reflexivity.
    + destruct min; simpl; [rewrite Nat.add_0_r|]; reflexivity.
Qed.

(** The shortest run after which the rest matches is the one taken. *)
Lemma rep_lazy_first p k caps res tl run : forall min pos,
  forallb p run = true -> (min <= List.length run)%nat ->
  k (MState (pos + List.length run) tl caps) = Some res ->
  (forall run' tl', run ++ tl = run' ++ tl' ->
     (min <= List.length run')%nat ->
     (List.length run' < List.length run)%nat ->
     k (MState (pos + List.length run') tl' caps) = None) ->
  rep_lazy p min pos (run ++ tl) caps k = Some res.
Proof.
  induction run as [|x run IH]; intros min pos Hrun Hmin Hk Hfirst;
    simpl in *.
  - assert (min = 0%nat) as -> by lia. rewrite Nat.add_0_r in Hk.
    destruct tl as [|y ys]; simpl; rewrite Hk; reflexivity.
  - apply andb_true_iff in Hrun as [Hx Hrun]. rewrite Hx.
    assert (Hrec : rep_lazy p (pred min) (S pos) (run ++ tl) caps k
                   = Some res).
    { apply IH; [assumption|lia| |].
      - rewrite <- Hk; do 2 f_equal; lia.
      - intros run' tl' Heq Hm Hl.
        replace (S pos + List.length run')%nat
          with (pos + List.length (x :: run'))%nat by (simpl; lia).
        apply Hfirst; simpl; [congruence|lia|lia]. }
    destruct min; [|assumption].
    specialize (Hfirst [] (x :: run ++ tl)). simpl in Hfirst.
    rewrite Nat.add_0_r in Hfirst. rewrite Hfirst; [assumption|auto|lia|lia].
Qed.

(** *** [String.prototype.match] *)

Lemma exec_from_none ic r (s : jsstring) : forall pos,
  exec_from ic r pos s = None <->
  forall pre suf, s = pre ++ suf ->
    rmatch ic r (MState (pos + List.length pre) suf []) Some = None.
Proof.
  induction s as [|x xs IH]; intros pos; simpl.
  - destruct (rmatch ic r (MState pos [] []) Some) eqn:Hm; split.
    + discriminate.
    + intros H. specialize (H [] [] eq_refl). simpl in H.
      rewrite Nat.add_0_r in H. congruence.
    + intros _ pre suf H. symmetry in H. apply app_eq_nil in H as [-> ->].
      simpl. rewrite Nat.add_0_r. assumption.
    + reflexivity.
  - destruct (rmatch ic r (MState pos (x :: xs) []) Some) eqn:Hm; split.
    + discriminate.
    + intros H. specialize (H [] (x :: xs) eq_refl). simpl in H.
      rewrite Nat.add_0_r in H. congruence.
    + rewrite IH. intros H [|y pre] suf Heq; simpl in *.
      * subst suf. rewrite Nat.add_0_r. assumption.
      * injection Heq as <- ->.
        replace (pos + S (List.length pre))%nat
          with (S pos + List.length pre)%nat by lia.
        apply H; reflexivity.
    + rewrite IH. intros H pre suf ->.
      replace (S pos + List.length pre)%nat
          with (pos + List.length (x :: pre))%nat by (simpl; lia).
      apply H; reflexivity.
Qed.

Lemma exec_from_some ic r (s : jsstring) : forall pos m,
  exec_from ic r pos s = Some m ->
  exists pre suf st,
    s = pre ++ suf /\
    rmatch ic r (MState (pos + List.length pre) suf []) Some = Some st /\
    m = MatchArray (pos + List.length pre)
          (firstn (ms_pos st - (pos + List.length pre)) suf) (ms_caps st).
Proof.
  induction s as [|x xs IH]; intros pos m H; simpl in H.
  - destruct (rmatch ic r (MState pos [] []) Some) eqn:Hm; [|discriminate].
    injection H as <-. exists [], [], m0. simpl. rewrite Nat.add_0_r. auto.
  - destruct (rmatch ic r (MState pos (x :: xs) []) Some) eqn:Hm.
    + injection H as <-. exists [], (x :: xs), m0. simpl.
      rewrite Nat.add_0_r. auto.
    + apply IH in H as (pre & suf & st & -> & Hr & ->).
      exists (x :: pre), suf, st. simpl.
      replace (pos + S (List.length pre))%nat
        with (S pos + List.length pre)%nat by lia.
      auto.
Qed.

(** The leftmost position where the expression matches is the one
    reported. *)
Lemma exec_from_first ic r pre suf st : forall pos,
  (forall pre' suf', pre ++ suf = pre' ++ suf' ->
     (List.length pre' < List.length pre)%nat ->
     rmatch ic r (MState (pos + List.length pre') suf' []) Some = None) ->
  rmatch ic r (MState (pos + List.length pre) suf []) Some = Some st ->
  exec_from ic r pos (pre ++ suf) =
  Some (MatchArray (pos + List.length pre)
          (firstn (ms_pos st - (pos + List.length pre)) suf) (ms_caps st)).
Proof.
  induction pre as [|x pre IH]; intros pos Hfirst Hm; simpl in *.
  - rewrite Nat.add_0_r in *.
    destruct suf; simpl; rewrite Hm; reflexivity.
  - pose proof (Hfirst [] (x :: pre ++ suf) eq_refl) as H0. simpl in H0.
    rewrite Nat.add_0_r in H0. rewrite H0 by lia.
    replace (pos + S (List.length pre))%nat
      with (S pos + List.length pre)%nat in * by lia.
    apply IH; [|assumption].
    intros pre' suf' Heq Hl.
    replace (S pos + List.length pre')%nat
      with (pos + List.length (x :: pre'))%nat by (simpl; lia).
    apply Hfirst; simpl; [congruence|lia].
Qed.


(** ** The regular expressions of the parser *)

Lemma is_space_range x : is_space x = true -> (x <= 32 \/ 160 <= x)%N.
Proof.
  unfold is_space, is_line_terminator.
  rewrite !orb_true_iff, !andb_true_iff, !N.eqb_eq, !N.leb_le. lia.
Qed.

Lemma ascii_upper_printable x c :
  ascii_upper x = c -> (33 <= c <= 126)%N -> (33 <= x <= 126)%N.
Proof.
  unfold ascii_upper.
  destruct ((97 <=? x)%N && (x <=? 122)%N) eqn:H.
  - apply andb_true_iff in H as [H1 H2].
    apply N.leb_le in H1, H2. lia.
  - lia.
Qed.

(** No white space compares equal to a printable ASCII character. *)
Lemma chr_eq_space c x :
  (33 <= ascii_upper c <= 126)%N -> is_space x = true ->
  chr_eq true c x = false.
Proof.
  intros Hc Hx. unfold chr_eq.
  destruct (ascii_upper c =? ascii_upper x)%N eqn:He; [|reflexivity].
  apply N.eqb_eq in He. symmetry in He.
  pose proof (ascii_upper_printable _ _ He Hc).
  apply is_space_range in Hx. lia.
Qed.

Lemma cls_num_not_space x : cls_num x = true -> is_space x = false.
Proof.
  unfold cls_num, is_digit. intros H.
  destruct (is_space x) eqn:Hs; [|reflexivity].
  apply is_space_range in Hs.
  rewrite !orb_true_iff, !andb_true_iff, !N.eqb_eq, !N.leb_le in H. lia.
Qed.

Lemma ci_eq_length a b : ci_eq a b -> List.length a = List.length b.
Proof.
  unfold ci_eq. intros H. apply (f_equal (@List.length N)) in H.
  rewrite !length_map in H. assumption.
Qed.

Lemma ci_eq_cons_inv a l c :
  ci_eq a (c :: l) ->
  exists x a', a = x :: a' /\ chr_eq true c x = true /\ ci_eq a' l.
Proof.
  unfold ci_eq. destruct a as [|x a']; simpl; [discriminate|].
  intros H; injection H as Hx Ha.
  exists x, a'. unfold chr_eq. rewrite Hx, N.eqb_refl. auto.
Qed.

Lemma rmatch_lit l : forall kw tl pos caps k,
  ci_eq kw l ->
  rmatch true (Seq (List.map Chr l)) (MState pos (kw ++ tl) caps) k
  = k (MState (pos + List.length l) tl caps).
Proof.
  induction l as [|c l IH]; intros kw tl pos caps k H.
  - apply ci_eq_length in H. destruct kw; [|discriminate].
    simpl. rewrite Nat.add_0_r. reflexivity.
  - apply ci_eq_cons_inv in H as (x & kw' & -> & Hx & H).
    change (Seq (List.map Chr (c :: l)))
      with (Cat (Chr c) (Seq (List.map Chr l))).
    cbn [rmatch ms_rest app]. rewrite Hx. unfold advance.
    cbn [ms_pos ms_caps].
    rewrite (IH kw' tl (S pos) caps k H). do 2 f_equal. simpl. lia.
Qed.

Lemma rmatch_lit_head_fail c l x xs pos caps k :
  chr_eq true c x = false ->
  rmatch true (Seq (List.map Chr (c :: l))) (MState pos (x :: xs) caps) k
  = None.
Proof.
  intros H.
  change (Seq (List.map Chr (c :: l)))
    with (Cat (Chr c) (Seq (List.map Chr l))).
  cbn [rmatch ms_rest]. rewrite H. reflexivity.
Qed.

Lemma matches_lit_intro l kw tl pos caps :
  ci_eq kw l ->
  matches true (Seq (List.map Chr l)) (MState pos (kw ++ tl) caps)
    (MState (pos + List.length l) tl caps).
Proof.
  revert kw pos. induction l as [|c l IH]; intros kw pos H.
  - apply ci_eq_length in H. destruct kw; [|discriminate].
    simpl. rewrite Nat.add_0_r. constructor.
  - apply ci_eq_cons_inv in H as (x & kw' & -> & Hx & H).
    change (Seq (List.map Chr (c :: l)))
      with (Cat (Chr c) (Seq (List.map Chr l))).
    eapply M_Cat.
    + eapply M_Chr with (xs := kw' ++ tl); [reflexivity|exact Hx].
    + unfold advance. cbn [ms_pos ms_caps].
      replace (pos + List.length (c :: l))%nat
        with (S pos + List.length l)%nat by (simpl; lia).
      apply IH. assumption.
Qed.

Lemma matches_lit_inv l : forall st st',
  matches true (Seq (List.map Chr l)) st st' ->
  exists kw,
    ms_rest st = kw ++ ms_rest st' /\ ci_eq kw l /\
    ms_pos st' = (ms_pos st + List.length l)%nat /\
    ms_caps st' = ms_caps st.
Proof.
  induction l as [|c l IH]; intros st st' H; simpl in H.
  - inversion H; subst. exists []. rewrite Nat.add_0_r. repeat split.
  - inversion H as [| | | | |r1 r2 s0 s1 s2 H1 H2| | | |]; subst.
    inversion H1 as [|c0 x xs s0 Hr Hx| | | | | | | |]; subst.
    apply IH in H2 as (kw & Hr2 & Hkw & Hp & Hc).
    exists (x :: kw). simpl in *. rewrite Hr, Hr2, Hp, Hc.
    repeat split; [|lia].
    unfold ci_eq in *. simpl. unfold chr_eq in Hx.
    apply N.eqb_eq in Hx. rewrite Hkw, Hx. reflexivity.
Qed.

Lemma span_app p (a b : jsstring) :
  forallb p a = true ->
  match b with x :: _ => p x = false | [] => True end ->
  span p (a ++ b) = (a, b).
Proof.
  intros Ha Hb. induction a as [|x a IH]; simpl in *.
  - destruct b as [|y b]; [reflexivity|]. simpl. rewrite Hb. reflexivity.
  - apply andb_true_iff in Ha as [Hx Ha]. rewrite Hx, (IH Ha). reflexivity.
Qed.

(** The first code unit of a text that equals a printable ASCII literal
    up to case is no white space. *)
Lemma ci_eq_head_not_space kw c l tl :
  ci_eq kw (c :: l) -> (33 <= ascii_upper c <= 126)%N ->
  match kw ++ tl with x :: _ => is_space x = false | [] => True end.
Proof.
  intros H Hc. apply ci_eq_cons_inv in H as (x & kw' & -> & Hx & _).
  simpl. destruct (is_space x) eqn:Hs; [|reflexivity].
  rewrite (chr_eq_space c x Hc Hs) in Hx. discriminate.
Qed.

(** *** The label "Difficulty value:" *)

Lemma rmatch_label_some r s rest pos caps k :
  label_at s rest ->
  rmatch true
    (Cat (Lit "Difficulty") (Cat (Rep false 1 cls_s) (Cat (Lit "value:") r)))
    (MState pos s caps) k
  = rmatch true r
      (MState (pos + (List.length s - List.length rest)) rest caps) k.
Proof.
  intros (kw & w1 & val & -> & Hkw & Hw1 & Hsp & Hval).
  cbn [rmatch]. unfold Lit. rewrite (rmatch_lit _ _ _ _ _ _ Hkw).
  cbn [ms_pos ms_rest ms_caps].
  rewrite rep_greedy_commit.
  - rewrite span_app; [| exact Hsp |].
    + cbn [fst snd].
      assert ((1 <=? List.length w1)%nat = true) as ->.
      { apply Nat.leb_le. destruct w1; [congruence|simpl; lia]. }
      rewrite (rmatch_lit _ _ _ _ _ _ Hval).
      do 2 f_equal. rewrite !length_app.
      pose proof (ci_eq_length _ _ Hkw). pose proof (ci_eq_length _ _ Hval).
      simpl in *. lia.
    + apply (ci_eq_head_not_space _ _ _ rest Hval). vm_compute. split; discriminate.
  - intros pos' x xs Hx.
    change (js "value:") with (118%N :: js "alue:").
    apply rmatch_lit_head_fail. apply chr_eq_space; [|exact Hx].
    vm_compute. split; discriminate.
Qed.

Lemma matches_label_inv r st st' :
  matches true
    (Cat (Lit "Difficulty") (Cat (Rep false 1 cls_s) (Cat (Lit "value:") r)))
    st st' ->
  exists mid,
    label_at (ms_rest st) (ms_rest mid) /\ ms_caps mid = ms_caps st /\
    (ms_pos st <= ms_pos mid)%nat /\ matches true r mid st'.
Proof.
  intros H.
  inversion H as [| | | | |r1 r2 s0 s1 s2 H1 H2| | | |]; subst. clear H.
  inversion H2 as [| | | | |r1 r2 s0 s3 s4 H3 H4| | | |]; subst. clear H2.
  inversion H4 as [| | | | |r1 r2 s0 s5 s6 H5 H6| | | |]; subst. clear H4.
  apply matches_lit_inv in H1 as (kw & Hr1 & Hkw & Hp1 & Hc1).
  apply matches_lit_inv in H5 as (val & Hr5 & Hval & Hp5 & Hc5).
  inversion H3 as [| | | | | | | | |lz mn p s0 run tl Hr3 Hrun Hmin]; subst.
  clear H3. simpl in *.
  exists s5. split; [|split; [congruence|split; [lia|assumption]]].
  exists kw, run, val. rewrite Hr1, Hr3, Hr5.
  repeat split; auto.
  destruct run; simpl in *; [lia|discriminate].
Qed.

Lemma rmatch_label_none r s pos caps k :
  (forall rest, ~ label_at s rest) ->
  rmatch true
    (Cat (Lit "Difficulty") (Cat (Rep false 1 cls_s) (Cat (Lit "value:") r)))
    (MState pos s caps) k = None.
Proof.
  intros Hno.
  destruct (rmatch true _ (MState pos s caps) k) eqn:Hm; [|reflexivity].
  apply rmatch_sound in Hm as (st' & Hm & _).
  apply matches_label_inv in Hm as (mid & Hl & _).
  exfalso. eapply Hno. exact Hl.
Qed.

(** The label is found at the start of [s] exactly when [s] starts with
    one. *)
Lemma label_at_unique s rest rest' :
  label_at s rest -> label_at s rest' -> rest = rest'.
Proof.
  intros H H'.
  pose proof (rmatch_label_some Eps _ _ 0%nat [] Some H) as E.
  pose proof (rmatch_label_some Eps _ _ 0%nat [] Some H') as E'.
  rewrite E in E'. simpl in E'. congruence.
Qed.


Lemma label_at_length s rest :
  label_at s rest -> (List.length rest <= List.length s)%nat.
Proof.
  intros (kw & w1 & val & -> & _). rewrite !length_app. lia.
Qed.

(** *** The difficulty line *)

Lemma re_difficulty_shape :
  re_difficulty =
  Cat (Lit "Difficulty") (Cat (Rep false 1 cls_s) (Cat (Lit "value:")
    (Cat (Rep false 0 cls_s) (Cat (Grp 1 (Rep false 1 cls_num)) Eps)))).
Proof. reflexivity. Qed.

Lemma re_difficulty_label_shape :
  re_difficulty_label =
  Cat (Lit "Difficulty") (Cat (Rep false 1 cls_s) (Cat (Lit "value:") Eps)).
Proof. reflexivity. Qed.

Lemma head_cls_num_not_space (num rest : jsstring) :
  num <> [] -> forallb cls_num num = true ->
  match num ++ rest with x :: _ => cls_s x = false | [] => True end.
Proof.
  destruct num as [|x num]; [congruence|]. simpl.
  intros _ H. apply andb_true_iff in H as [H _].
  apply cls_num_not_space. assumption.
Qed.

(** At the start of a difficulty line the expression matches, and captures
    the whole run of digits, commas and points. *)
Lemma rmatch_difficulty_some s num rest pos :
  difficulty_line_at s num rest ->
  match rest with x :: _ => cls_num x = false | [] => True end ->
  rmatch true re_difficulty (MState pos s []) Some
  = Some (MState (pos + (List.length s - List.length rest)) rest [(1%nat, num)]).
Proof.
  intros (w2 & after & Hl & -> & Hw2 & Hn & Hnum) Hmax.
  pose proof (label_at_length _ _ Hl) as Hlen.
  rewrite re_difficulty_shape, (rmatch_label_some _ _ _ _ _ _ Hl).
  cbn [rmatch ms_pos ms_rest ms_caps].
  rewrite rep_greedy_commit.
  - rewrite span_app;
      [|exact Hw2|apply head_cls_num_not_space; assumption].
    cbn [fst snd Nat.leb].
    erewrite rep_greedy_max.
    + reflexivity.
    + cbn [ms_rest]. rewrite span_app by assumption. cbn [fst].
      destruct num; [congruence|simpl; lia].
    + cbn [ms_pos ms_rest ms_caps]. rewrite span_app by assumption.
      cbn [fst snd ms_pos ms_rest ms_caps].
      rewrite firstn_consumed. do 2 f_equal.
      rewrite !length_app in *. lia.
  - intros pos' x xs Hx. cbn [rmatch ms_pos ms_rest ms_caps rep_greedy].
    destruct (cls_num x) eqn:Hc; [|reflexivity].
    apply cls_num_not_space in Hc. unfold cls_s in Hx. congruence.
Qed.

Lemma rmatch_difficulty_inv s pos st :
  rmatch true re_difficulty (MState pos s []) Some = Some st ->
  exists num,
    difficulty_line_at s num (ms_rest st) /\ ms_caps st = [(1%nat, num)].
Proof.
  intros H. apply rmatch_sound in H as (st' & H & E). injection E as ->.
  rewrite re_difficulty_shape in H.
  apply matches_label_inv in H as (mid & Hl & Hc & _ & H).
  inversion H as [| | | | |r1 r2 s0 s1 s2 H1 H2| | | |]; subst. clear H.
  inversion H2 as [| | | | |r1 r2 s0 s3 s4 H3 H4| | | |]; subst. clear H2.
  inversion H4; subst. clear H4.
  inversion H1 as [| | | | | | | | |lz mn p s0 w2 tl Hr1 Hw2 _]; subst.
  clear H1.
  inversion H3 as [| | | | | | | |n r s0 s5 H5|]; subst. clear H3.
  inversion H5 as [| | | | | | | | |lz mn p s0 num tl' Hr5 Hnum Hmin]; subst.
  clear H5. simpl in *. subst tl. rewrite firstn_consumed.
  exists num. split; [|rewrite Hc; reflexivity].
  exists w2, (ms_rest mid). rewrite Hr1.
  split; [rewrite <- Hr1; exact Hl|].
  split; [reflexivity|]. split; [exact Hw2|]. split; [|exact Hnum].
  destruct num; simpl in *; [lia|discriminate].
Qed.

Lemma difficulty_line_maximal line num rest :
  difficulty_line_at line num rest ->
  exists num' rest',
    difficulty_line_at line num' rest' /\
    match rest' with x :: _ => cls_num x = false | [] => True end.
Proof.
  intros (w2 & after & Hl & -> & Hw2 & Hn & Hnum).
  destruct (span_spec cls_num rest) as (Hs & Hrun & Hstop).
  exists (num ++ fst (span cls_num rest)), (snd (span cls_num rest)).
  split; [|exact Hstop].
  exists w2, (w2 ++ num ++ rest). repeat split; auto.
  - rewrite <- app_assoc, <- Hs. reflexivity.
  - destruct num; [congruence|discriminate].
  - rewrite forallb_app, Hnum, Hrun. reflexivity.
Qed.

(** [text.match(/Difficulty\s+value:\s*([\d,.]+)/i)] is null exactly when
    no text of it is a difficulty line. *)
Lemma difficulty_match_none s :
  str_match true re_difficulty s = None <-> ~ has_difficulty_line s.
Proof.
  unfold str_match. rewrite exec_from_none. split.
  - intros H (pre & line & num & rest & -> & Hd).
    apply difficulty_line_maximal in Hd as (num' & rest' & Hd & Hmax).
    specialize (H pre line eq_refl).
    rewrite (rmatch_difficulty_some _ _ _ _ Hd Hmax) in H. discriminate.
  - intros H pre suf ->.
    destruct (rmatch true re_difficulty _ Some) eqn:Hm; [|reflexivity].
    apply rmatch_difficulty_inv in Hm as (num & Hd & _).
    exfalso. apply H. exists pre, suf, num, (ms_rest m). auto.
Qed.

(** When it matches, group 1 is defined: a run of digits, commas and
    points. *)
Lemma difficulty_match_some s m :
  str_match true re_difficulty s = Some m ->
  exists num,
    m_group m 1 = Some num /\ num <> [] /\ forallb cls_num num = true /\
    has_difficulty_line s.
Proof.
  intros H. apply exec_from_some in H as (pre & suf & st & -> & Hm & ->).
  apply rmatch_difficulty_inv in Hm as (num & Hd & Hc).
  exists num. unfold m_group. simpl. rewrite Hc. simpl.
  pose proof Hd as (w2 & after & _ & _ & _ & Hn & Hnum).
  repeat split; auto.
  exists pre, suf, num, (ms_rest st). auto.
Qed.


(** [text.match(/Difficulty\s+value:/i)] *)
Lemma has_label_iff s :
  has_label s = true <->
  exists pre line rest, s = pre ++ line /\ label_at line rest.
Proof.
  unfold has_label, test, str_match. split.
  - destruct (exec_from true re_difficulty_label 0 s) eqn:H; [|discriminate].
    intros _. apply exec_from_some in H as (pre & suf & st & -> & Hm & _).
    apply rmatch_sound in Hm as (st' & Hm & _).
    rewrite re_difficulty_label_shape in Hm.
    apply matches_label_inv in Hm as (mid & Hl & _).
    exists pre, suf, (ms_rest mid). auto.
  - intros (pre & line & rest & -> & Hl).
    destruct (exec_from true re_difficulty_label 0 (pre ++ line)) eqn:H;
      [reflexivity|].
    rewrite exec_from_none in H. specialize (H pre line eq_refl).
    rewrite re_difficulty_label_shape, (rmatch_label_some _ _ _ _ _ _ Hl) in H.
    discriminate.
Qed.

Lemma trimStart_keeps a m b c m' :
  m = c :: m' -> is_space c = false ->
  exists a', trimStart (a ++ m ++ b) = a' ++ m ++ b.
Proof.
  intros -> Hc. induction a as [|x a IH]; simpl.
  - rewrite Hc. exists []. reflexivity.
  - destruct (is_space x); [exact IH|]. exists (x :: a). reflexivity.
Qed.

(** Trimming keeps every piece of text that neither begins nor ends with
    white space. *)
Lemma trim_keeps a m b c m' d m'' :
  m = c :: m' -> m = m'' ++ [d] ->
  is_space c = false -> is_space d = false ->
  exists a' b', trim (a ++ m ++ b) = a' ++ m ++ b'.
Proof.
  intros Hc Hd Hsc Hsd. unfold trim, trimEnd.
  destruct (trimStart_keeps a m b c m' Hc Hsc) as [a' ->].
  rewrite !rev_app_distr, <- app_assoc.
  destruct (trimStart_keeps (rev b) (rev m) (rev a') d (rev m'')) as [b' ->];
    [rewrite Hd, rev_app_distr; reflexivity|assumption|].
  exists a', (rev b').
  rewrite !rev_app_distr, !rev_involutive, <- app_assoc. reflexivity.
Qed.

Lemma ci_eq_printable a b x :
  ci_eq a b -> In x a ->
  forallb (fun c => (33 <=? c)%N && (c <=? 126)%N) (List.map ascii_upper b)
    = true ->
  is_space x = false.
Proof.
  unfold ci_eq. intros <- Hin Hb.
  rewrite forallb_forall in Hb.
  specialize (Hb (ascii_upper x) (in_map _ _ _ Hin)).
  apply andb_true_iff in Hb as [H1 H2]. apply N.leb_le in H1, H2.
  destruct (is_space x) eqn:Hs; [|reflexivity].
  apply is_space_range in Hs.
  pose proof (ascii_upper_printable x _ eq_refl (conj H1 H2)). lia.
Qed.

(** The trimmed text of an element with a difficulty line has the label:
    such an element is no commentary. *)
Lemma has_difficulty_line_label s :
  has_difficulty_line s -> has_label (trim s) = true.
Proof.
  intros (pre & line & num & rest & -> & w2 & after & Hl & _).
  destruct Hl as (kw & w1 & val & -> & Hkw & Hw1 & Hsp & Hval).
  apply has_label_iff.
  assert (Hk : exists c k', kw = c :: k' /\ is_space c = false).
  { destruct kw as [|c k']; [apply ci_eq_length in Hkw; discriminate|].
    exists c, k'. split; [reflexivity|].
    eapply ci_eq_printable; [exact Hkw|left; reflexivity|reflexivity]. }
  assert (Hv : exists v' d, val = v' ++ [d] /\ is_space d = false).
  { destruct (exists_last (l := val)) as (v' & d & ->).
    - intros ->. apply ci_eq_length in Hval. discriminate.
    - exists v', d. split; [reflexivity|].
      eapply ci_eq_printable;
        [exact Hval|apply in_or_app; right; left; reflexivity|reflexivity]. }
  destruct Hk as (c & k' & -> & Hc). destruct Hv as (v' & d & -> & Hd).
  destruct (trim_keeps pre ((c :: k') ++ w1 ++ v' ++ [d]) after
              c (k' ++ w1 ++ v' ++ [d]) d ((c :: k') ++ w1 ++ v'))
    as (a' & b' & E); auto.
  { rewrite <- !app_assoc. reflexivity. }
  exists a', (((c :: k') ++ w1 ++ v' ++ [d]) ++ b'), b'.
  split.
  - rewrite <- E. rewrite <- !app_assoc. reflexivity.
  - exists (c :: k'), w1, (v' ++ [d]). rewrite <- !app_assoc. auto.
Qed.


(** *** Name and author *)

Lemma re_separator_shape :
  re_separator =
  Alt (Cat (Rep false 1 cls_s)
         (Cat (Seq (List.map Chr (js "by"))) (Cat (Rep false 1 cls_s) Eps)))
      (Cat (Rep false 1 cls_s)
         (Cat (Seq (List.map Chr (js "-"))) (Cat (Rep false 1 cls_s) Eps))).
Proof. reflexivity. Qed.

Lemma re_name_author_shape :
  re_name_author =
  Cat Bol (Cat (Grp 1 (Rep true 1 dot))
    (Cat re_separator (Cat (Grp 2 (Rep false 1 dot)) (Cat Eol Eps)))).
Proof. reflexivity. Qed.

Lemma rmatch_Cat ic r1 r2 st k :
  rmatch ic (Cat r1 r2) st k = rmatch ic r1 st (fun st' => rmatch ic r2 st' k).
Proof. reflexivity. Qed.

Lemma rmatch_Alt ic r1 r2 st k :
  rmatch ic (Alt r1 r2) st k =
  match rmatch ic r1 st k with
  | Some res => Some res
  | None => rmatch ic r2 st k
  end.
Proof. reflexivity. Qed.

Lemma ci_eq_dash kw : ci_eq kw (js "-") -> kw = js "-".
Proof.
  intros H. destruct kw as [|x [|y kw]]; try discriminate.
  unfold ci_eq in H. change (js "-") with [45%N] in *.
  cbn [List.map] in H. injection H as H.
  change (ascii_upper 45) with 45%N in H.
  f_equal. unfold ascii_upper in H.
  destruct ((97 <=? x)%N && (x <=? 122)%N) eqn:E; [|assumption].
  apply andb_true_iff in E as [E1 E2]. apply N.leb_le in E1, E2. lia.
Qed.

Lemma matches_sep_branch_inv l st st' :
  matches true
    (Cat (Rep false 1 cls_s)
       (Cat (Seq (List.map Chr l)) (Cat (Rep false 1 cls_s) Eps))) st st' ->
  exists w1 kw w2,
    ms_rest st = w1 ++ kw ++ w2 ++ ms_rest st' /\
    w1 <> [] /\ spaces w1 /\ ci_eq kw l /\ w2 <> [] /\ spaces w2 /\
    ms_caps st' = ms_caps st.
Proof.
  intros H.
  inversion H as [| | | | |r1 r2 s0 s1 s2 H1 H2| | | |]; subst. clear H.
  inversion H2 as [| | | | |r1 r2 s0 s3 s4 H3 H4| | | |]; subst. clear H2.
  inversion H4 as [| | | | |r1 r2 s0 s5 s6 H5 H6| | | |]; subst. clear H4.
  inversion H6; subst. clear H6.
  apply matches_lit_inv in H3 as (kw & Hr3 & Hkw & Hp3 & Hc3).
  inversion H1 as [| | | | | | | | |lz mn p s0 w1 tl1 Hr1 Hw1 Hm1]; subst.
  clear H1.
  inversion H5 as [| | | | | | | | |lz mn p s0 w2 tl2 Hr5 Hw2 Hm2]; subst.
  clear H5. simpl in *.
  exists w1, kw, w2. rewrite Hr1, Hr3, Hr5.
  split; [reflexivity|].
  split; [destruct w1; simpl in *; [lia|discriminate]|].
  split; [exact Hw1|]. split; [exact Hkw|].
  split; [destruct w2; simpl in *; [lia|discriminate]|].
  split; [exact Hw2|]. congruence.
Qed.

Lemma matches_separator_inv st st' :
  matches true re_separator st st' ->
  separator_at (ms_rest st) (ms_rest st') /\ ms_caps st' = ms_caps st.
Proof.
  rewrite re_separator_shape. intros H.
  inversion H as [| | | | | |r1 r2 s0 s1 H1|r1 r2 s0 s1 H1| |]; subst;
    clear H.
  - apply (matches_sep_branch_inv (js "by")) in H1
      as (w1 & kw & w2 & Hr & Hw1 & Hs1 & Hkw & Hw2 & Hs2 & Hc).
    split; [|exact Hc]. exists w1, kw, w2. repeat split; auto.
  - apply (matches_sep_branch_inv (js "-")) in H1
      as (w1 & kw & w2 & Hr & Hw1 & Hs1 & Hkw & Hw2 & Hs2 & Hc).
    split; [|exact Hc]. exists w1, kw, w2. repeat split; auto.
    right. apply ci_eq_dash. assumption.
Qed.

Lemma matches_sep_branch_intro l w1 kw w2 rest pos caps :
  w1 <> [] -> spaces w1 -> ci_eq kw l -> w2 <> [] -> spaces w2 ->
  matches true
    (Cat (Rep false 1 cls_s)
       (Cat (Seq (List.map Chr l)) (Cat (Rep false 1 cls_s) Eps)))
    (MState pos (w1 ++ kw ++ w2 ++ rest) caps)
    (MState (pos + List.length w1 + List.length l + List.length w2) rest caps).
Proof.
  intros Hw1 Hs1 Hkw Hw2 Hs2.
  eapply M_Cat.
  { apply (M_Rep true false 1 cls_s (MState pos (w1 ++ kw ++ w2 ++ rest) caps)
             w1 (kw ++ w2 ++ rest)); [reflexivity|exact Hs1|].
    destruct w1; [congruence|simpl; lia]. }
  eapply M_Cat.
  { cbn [ms_pos ms_caps]. apply matches_lit_intro. exact Hkw. }
  eapply M_Cat; [|apply M_Eps].
  apply (M_Rep true false 1 cls_s
           (MState (pos + List.length w1 + List.length l) (w2 ++ rest) caps)
           w2 rest); [reflexivity|exact Hs2|].
  destruct w2; [congruence|simpl; lia].
Qed.

Lemma matches_separator_intro s rest pos caps :
  separator_at s rest ->
  exists pos', matches true re_separator (MState pos s caps)
                 (MState pos' rest caps).
Proof.
  intros (w1 & kw & w2 & -> & Hw1 & Hs1 & Hkw & Hw2 & Hs2).
  rewrite re_separator_shape. destruct Hkw as [Hkw| ->].
  - eexists. apply M_AltL. apply matches_sep_branch_intro; assumption.
  - eexists. apply M_AltR. apply matches_sep_branch_intro; try assumption.
    reflexivity.
Qed.

(** No separator at the start of [s]: the matcher fails there, whatever
    follows. *)
Lemma rmatch_separator_none r s pos caps k :
  (forall rest, ~ separator_at s rest) ->
  rmatch true (Cat re_separator r) (MState pos s caps) k = None.
Proof.
  intros Hno.
  destruct (rmatch true (Cat re_separator r) (MState pos s caps) k) eqn:Hm;
    [|reflexivity].
  apply rmatch_sound in Hm as (st' & Hm & _).
  inversion Hm as [| | | | |r1 r2 s0 s1 s2 H1 H2| | | |]; subst.
  apply matches_separator_inv in H1 as [H1 _].
  exfalso. eapply Hno. exact H1.
Qed.

Lemma forallb_span p (s : jsstring) :
  forallb p s = true -> span p s = (s, []).
Proof.
  intros H. rewrite <- (app_nil_r s) at 1. apply span_app; auto.
Qed.

Lemma not_forallb_span p (s : jsstring) :
  forallb p s = false -> exists x tl, snd (span p s) = x :: tl.
Proof.
  induction s as [|c s IH]; simpl; [discriminate|].
  destruct (p c) eqn:Hc; simpl.
  - intros H. destruct (IH H) as (x & tl & E).
    destruct (span p s); simpl in *. eauto.
  - eauto.
Qed.

(** [(.+)$]: the rest of the text, when it is not empty and holds no line
    terminator. *)
Lemma rmatch_tail s pos caps k :
  rmatch true (Cat (Grp 2 (Rep false 1 dot)) (Cat Eol Eps))
    (MState pos s caps) k
  = if negb (is_empty s) && forallb dot s
    then k (MState (pos + List.length s) [] ((2%nat, s) :: caps))
    else None.
Proof.
  cbn [rmatch ms_pos ms_rest ms_caps].
  rewrite rep_greedy_commit by (intros; reflexivity).
  destruct (forallb dot s) eqn:Hd.
  - rewrite (forallb_span _ _ Hd). cbn [fst snd ms_pos ms_rest ms_caps].
    replace (pos + List.length s - pos)%nat
      with (List.length s) by lia.
    rewrite firstn_all.
    destruct s as [|x s]; reflexivity.
  - rewrite andb_false_r.
    destruct (not_forallb_span _ _ Hd) as (x & tl & E). rewrite E.
    cbn [ms_rest]. destruct (1 <=? _)%nat; reflexivity.
Qed.

Lemma rmatch_sep_branch l c l' w1 kw w2 attr pos caps K :
  l = c :: l' -> (33 <= ascii_upper c <= 126)%N ->
  w1 <> [] -> spaces w1 -> ci_eq kw l -> w2 <> [] -> spaces w2 ->
  match attr with x :: _ => is_space x = false | [] => True end ->
  (exists res,
     K (MState (pos + List.length w1 + List.length l + List.length w2)
          attr caps) = Some res) ->
  rmatch true
    (Cat (Rep false 1 cls_s)
       (Cat (Seq (List.map Chr l)) (Cat (Rep false 1 cls_s) Eps)))
    (MState pos (w1 ++ kw ++ w2 ++ attr) caps) K
  = K (MState (pos + List.length w1 + List.length l + List.length w2)
         attr caps).
Proof.
  intros -> Hc Hw1 Hs1 Hkw Hw2 Hs2 Hattr [res HK].
  cbn [rmatch ms_pos ms_rest ms_caps].
  rewrite rep_greedy_commit.
  - rewrite span_app;
      [|exact Hs1|apply (ci_eq_head_not_space _ _ _ _ Hkw Hc)].
    cbn [fst snd].
    assert ((1 <=? List.length w1)%nat = true) as ->.
    { apply Nat.leb_le. destruct w1; [congruence|simpl; lia]. }
    rewrite (rmatch_lit _ _ _ _ _ _ Hkw).
    cbn [ms_pos ms_rest ms_caps].
    rewrite HK. apply rep_greedy_max.
    + rewrite span_app by assumption. cbn [fst].
      destruct w2; [congruence|simpl; lia].
    + rewrite span_app by assumption. exact HK.
  - intros pos' x xs Hx. apply rmatch_lit_head_fail.
    apply chr_eq_space; assumption.
Qed.

Lemma rmatch_sep_branch_fail c l r w1 x tl pos caps K :
  (33 <= ascii_upper c <= 126)%N ->
  spaces w1 -> is_space x = false -> chr_eq true c x = false ->
  rmatch true
    (Cat (Rep false 1 cls_s) (Cat (Seq (List.map Chr (c :: l))) r))
    (MState pos (w1 ++ x :: tl) caps) K = None.
Proof.
  intros Hc Hs1 Hx Hne.
  cbn [rmatch ms_pos ms_rest ms_caps].
  rewrite rep_greedy_commit.
  - rewrite span_app; [|exact Hs1|exact Hx]. cbn [fst snd].
    destruct (1 <=? _)%nat; [|reflexivity].
    apply rmatch_lit_head_fail. exact Hne.
  - intros pos' y ys Hy. apply rmatch_lit_head_fail.
    apply chr_eq_space; assumption.
Qed.

(** At a separator followed by a one-line attribution the rest of the
    expression matches, and group 2 is the attribution. *)
Lemma rmatch_separator_tail w1 kw w2 attr pos caps :
  w1 <> [] -> spaces w1 -> (ci_eq kw (js "by") \/ kw = js "-") ->
  w2 <> [] -> spaces w2 -> attr <> [] ->
  match attr with x :: _ => is_space x = false | [] => True end ->
  forallb dot attr = true ->
  exists pos',
    rmatch true
      (Cat re_separator (Cat (Grp 2 (Rep false 1 dot)) (Cat Eol Eps)))
      (MState pos (w1 ++ kw ++ w2 ++ attr) caps) Some
    = Some (MState pos' [] ((2%nat, attr) :: caps)).
Proof.
  intros Hw1 Hs1 Hkw Hw2 Hs2 Hattr Hhead Hdot.
  assert (HT : forall p,
            rmatch true (Cat (Grp 2 (Rep false 1 dot)) (Cat Eol Eps))
              (MState p attr caps) Some
            = Some (MState (p + List.length attr) [] ((2%nat, attr) :: caps))).
  { intros p. rewrite rmatch_tail, Hdot.
    destruct attr; [congruence|reflexivity]. }
  rewrite re_separator_shape, rmatch_Cat, rmatch_Alt.
  destruct Hkw as [Hkw| ->].
  - erewrite rmatch_sep_branch; try eassumption; try reflexivity.
    + rewrite HT. eexists; reflexivity.
    + vm_compute. split; discriminate.
    + rewrite HT. eexists; reflexivity.
  - change (js "by") with (98%N :: js "y").
    change (js "-" ++ w2 ++ attr) with (45%N :: w2 ++ attr).
    rewrite rmatch_sep_branch_fail;
      [|vm_compute; split; discriminate|exact Hs1|reflexivity|reflexivity].
    change (45%N :: w2 ++ attr) with (js "-" ++ w2 ++ attr).
    erewrite rmatch_sep_branch; try eassumption; try reflexivity.
    + rewrite HT. eexists; reflexivity.
    + vm_compute. split; discriminate.
    + rewrite HT. eexists; reflexivity.
Qed.

Lemma app_eq_app_shorter (a b c d : jsstring) :
  a ++ b = c ++ d -> (List.length c < List.length a)%nat ->
  exists e, e <> [] /\ a = c ++ e /\ d = e ++ b.
Proof.
  revert c. induction a as [|x a IH]; intros c H Hl; simpl in *; [lia|].
  destruct c as [|y c]; simpl in *.
  - exists (x :: a). subst d. repeat split. discriminate.
  - injection H as <- H. destruct (IH c H) as (e & He & -> & ->); [lia|].
    exists e. auto.
Qed.

(** The split is at the first separator. *)
Lemma name_author_match title w1 kw w2 attr :
  title <> [] -> forallb dot title = true ->
  w1 <> [] -> spaces w1 -> (ci_eq kw (js "by") \/ kw = js "-") ->
  w2 <> [] -> spaces w2 -> attr <> [] ->
  match attr with x :: _ => is_space x = false | [] => True end ->
  forallb dot attr = true ->
  (forall t1 t2, title = t1 ++ t2 -> t1 <> [] -> t2 <> [] ->
     forall rest, ~ separator_at (t2 ++ w1 ++ kw ++ w2 ++ attr) rest) ->
  exists m,
    str_match true re_name_author (title ++ w1 ++ kw ++ w2 ++ attr) = Some m /\
    m_group m 1 = Some title /\ m_group m 2 = Some attr.
Proof.
  intros Ht Hdt Hw1 Hs1 Hkw Hw2 Hs2 Hattr Hhead Hdot Hfirst.
  set (t := title ++ w1 ++ kw ++ w2 ++ attr).
  destruct (rmatch_separator_tail w1 kw w2 attr (0 + List.length title)
              [(1%nat, title)] Hw1 Hs1 Hkw Hw2 Hs2 Hattr Hhead Hdot)
    as [pos' HT].
  assert (Hm : rmatch true re_name_author (MState 0 t []) Some
               = Some (MState pos' [] [(2%nat, attr); (1%nat, title)])).
  { rewrite re_name_author_shape. cbn [rmatch ms_pos ms_rest ms_caps].
    unfold t. apply rep_lazy_first.
    - exact Hdt.
    - destruct title; [congruence|simpl; lia].
    - cbn [ms_pos ms_rest ms_caps]. rewrite firstn_consumed. exact HT.
    - intros run' tl' Heq Hmin Hl.
      destruct (app_eq_app_shorter _ _ _ _ Heq Hl) as (e & He & E1 & ->).
      cbn [ms_pos ms_rest ms_caps].
      apply rmatch_separator_none. apply (Hfirst run' e); auto.
      destruct run'; [simpl in Hmin; lia|discriminate]. }
  unfold str_match.
  assert (E : exec_from true re_name_author 0 ([] ++ t)
              = Some (MatchArray (0 + 0) (firstn (pos' - (0 + 0)) t)
                        [(2%nat, attr); (1%nat, title)])).
  { apply (exec_from_first true re_name_author [] t
             (MState pos' [] [(2%nat, attr); (1%nat, title)]) 0).
    - intros pre' suf' _ Hl. simpl in Hl. lia.
    - exact Hm. }
  simpl app in E. rewrite E. eexists; split; [reflexivity|].
  split; reflexivity.
Qed.

(** When the expression matches, both groups are defined: a title that is
    not empty, a separator, an attribution that is not empty. *)
Lemma name_author_match_inv t m :
  str_match true re_name_author t = Some m ->
  exists title sep attr,
    t = title ++ sep ++ attr /\ title <> [] /\
    separator_at (sep ++ attr) attr /\ attr <> [] /\
    m_group m 1 = Some title /\ m_group m 2 = Some attr.
Proof.
  intros H. apply exec_from_some in H as (pre & suf & st & -> & Hm & ->).
  apply rmatch_sound in Hm as (st' & Hm & E). injection E as ->.
  rewrite re_name_author_shape in Hm.
  inversion Hm as [| | | | |r1 r2 s0 s1 s2 H1 H2| | | |]; subst. clear Hm.
  inversion H1; subst. clear H1. simpl in H.
  assert (pre = []) as -> by (destruct pre; [reflexivity|discriminate]).
  inversion H2 as [| | | | |r1 r2 s0 s3 s4 H3 H4| | | |]; subst. clear H2.
  inversion H4 as [| | | | |r1 r2 s0 s5 s6 H5 H6| | | |]; subst. clear H4.
  inversion H6 as [| | | | |r1 r2 s0 s7 s8 H7 H8| | | |]; subst. clear H6.
  inversion H8 as [| | | | |r1 r2 s0 s9 s10 H9 H10| | | |]; subst. clear H8.
  inversion H10; subst. clear H10.
  inversion H9 as [| | | |s0 Hend| | | | |]; subst. clear H9.
  inversion H3 as [| | | | | | | |n r s0 sa Ha|]; subst. clear H3.
  inversion Ha as [| | | | | | | | |lz mn p s0 title tl Hr Htitle Hmin];
    subst. clear Ha.
  inversion H7 as [| | | | | | | |n r s0 sb Hb|]; subst. clear H7.
  inversion Hb as [| | | | | | | | |lz mn p s0 attr tl' Hr' Hattr Hmin'];
    subst. clear Hb.
  apply matches_separator_inv in H5 as [Hsep Hc].
  simpl in *. subst tl'. rewrite app_nil_r in Hr'.
  rewrite Hr', Hc, !Nat.sub_0_r, Hr.
  replace (ms_pos s5 + List.length attr - ms_pos s5)%nat
    with (List.length attr) by lia.
  rewrite firstn_all.
  replace (List.length title) with (List.length title + 0)%nat by lia.
  rewrite firstn_app_2. simpl firstn. rewrite app_nil_r.
  rewrite Hr' in Hsep.
  pose proof Hsep as (w1 & kw & w2 & E & Hw1 & Hs1 & Hkw & Hw2 & Hs2).
  exists title, (w1 ++ kw ++ w2), attr.
  split; [rewrite E, <- !app_assoc; reflexivity|].
  split; [destruct title; simpl in *; [lia|discriminate]|].
  split; [rewrite <- !app_assoc, <- E; exact Hsep|].
  split; [destruct attr; simpl in *; [lia|discriminate]|].
  split; reflexivity.
Qed.


(** ** Name and author of a heading *)

Section Heading.
Context {E : Engine}.

(** The split never throws. *)
Lemma split_heading_normal h :
  exists name publisher, split_heading h = Normal (name, publisher).
Proof.
  unfold split_heading.
  destruct (str_match true re_name_author (trim h)) as [m|] eqn:Hm;
    [|eauto].
  apply name_author_match_inv in Hm
    as (title & sep & attr & _ & _ & _ & _ & H1 & H2).
  rewrite H1, H2. simpl. eauto.
Qed.

Lemma trim_nonempty c (s : jsstring) :
  is_space c = false -> trim (c :: s) <> [].
Proof.
  intros Hc H. apply trim_nil_iff_spaces in H. simpl in H.
  rewrite Hc in H. discriminate.
Qed.

(** The name is empty exactly when the heading has no text but white
    space. *)
Lemma split_heading_name_empty h name publisher :
  split_heading h = Normal (name, publisher) ->
  (name = [] <-> trim h = []).
Proof.
  unfold split_heading.
  destruct (str_match true re_name_author (trim h)) as [m|] eqn:Hm.
  - apply name_author_match_inv in Hm
      as (title & sep & attr & Ht & Hne & _ & _ & H1 & H2).
    rewrite H1, H2. simpl. intros H; injection H as <- _.
    destruct title as [|c title]; [congruence|].
    assert (Hc : is_space c = false).
    { eapply trim_head. rewrite Ht. reflexivity. }
    split.
    + intros H. exfalso. exact (trim_nonempty c title Hc H).
    + rewrite Ht. discriminate.
  - intros H; injection H as <- _. tauto.
Qed.

Lemma trimStart_idem (s : jsstring) : trimStart (trimStart s) = trimStart s.
Proof.
  destruct (trimStart s) as [|c t] eqn:H; [reflexivity|].
  apply trimStart_head in H. simpl. rewrite H. reflexivity.
Qed.

Lemma trim_trimStart (s : jsstring) : trim (trimStart s) = trim s.
Proof. unfold trim. rewrite trimStart_idem. reflexivity. Qed.

Lemma trimStart_nil_spaces (s : jsstring) :
  trimStart s = [] -> forallb is_space s = true.
Proof.
  intros H. destruct (trimStart_suffix s) as (w & Hs & Hw).
  rewrite H, app_nil_r in Hs. subst. assumption.
Qed.

(** The heading splits at its first separator: the name is what stands
    before it, the author what stands after it. *)
Lemma split_heading_at_first h title w1 kw w2 attr :
  trim h = title ++ w1 ++ kw ++ w2 ++ attr ->
  title <> [] -> forallb dot title = true ->
  w1 <> [] -> spaces w1 -> (ci_eq kw (js "by") \/ kw = js "-") ->
  w2 <> [] -> spaces w2 -> attr <> [] ->
  forallb dot (trimStart attr) = true ->
  (forall t1 t2, title = t1 ++ t2 -> t1 <> [] -> t2 <> [] ->
     forall rest, ~ separator_at (t2 ++ w1 ++ kw ++ w2 ++ attr) rest) ->
  split_heading h = Normal (trim title, trim attr).
Proof.
  intros Ht Hne Hdt Hw1 Hs1 Hkw Hw2 Hs2 Hattr Hda Hfirst.
  destruct (trimStart_suffix attr) as (lead & Hlead & Hsl).
  assert (Hnz : trimStart attr <> []).
  { intros Hz. apply trimStart_nil_spaces in Hz.
    destruct (exists_last Hattr) as (u & d & Hu).
    assert (Hd : is_space d = false).
    { apply (trim_last h (title ++ w1 ++ kw ++ w2 ++ u)).
      rewrite Ht, Hu, <- !app_assoc. reflexivity. }
    rewrite Hu, forallb_app in Hz. simpl in Hz.
    rewrite Hd, andb_false_r in Hz. discriminate. }
  assert (Hhead : match trimStart attr with
                  | x :: _ => is_space x = false
                  | [] => True
                  end).
  { destruct (trimStart attr) eqn:Hta; [exact I|].
    eapply trimStart_head. exact Hta. }
  destruct (name_author_match title w1 kw (w2 ++ lead) (trimStart attr))
    as (m & Hm & H1 & H2); auto.
  - destruct w2; [congruence|discriminate].
  - unfold spaces in *. rewrite forallb_app, Hs2, Hsl. reflexivity.
  - rewrite <- app_assoc, <- Hlead. exact Hfirst.
  - unfold split_heading.
    rewrite Ht. rewrite <- app_assoc, <- Hlead in Hm. rewrite Hm, H1, H2.
    simpl. rewrite trim_trimStart. reflexivity.
Qed.

(** A heading without a separator is the name, and the author is empty. *)
Lemma split_heading_no_separator h :
  (forall pre suf rest, trim h = pre ++ suf -> ~ separator_at suf rest) ->
  split_heading h = Normal (trim h, []).
Proof.
  intros Hno. unfold split_heading.
  destruct (str_match true re_name_author (trim h)) as [m|] eqn:Hm;
    [|reflexivity].
  apply name_author_match_inv in Hm
    as (title & sep & attr & Ht & _ & Hsep & _).
  exfalso. exact (Hno title (sep ++ attr) attr Ht Hsep).
Qed.

End Heading.

(** ** The difficulty value *)

Lemma find_difficulty_normal content : forall idx,
  exists r, find_difficulty idx content = Normal r.
Proof.
  induction content as [|el content IH]; intros idx; simpl; [eauto|].
  destruct (str_match true re_difficulty (textContent el)) as [m|] eqn:Hm;
    [|apply IH].
  apply difficulty_match_some in Hm as (num & -> & _). simpl. eauto.
Qed.

(** No element with a difficulty line: no difficulty. *)
Lemma find_difficulty_none content : forall idx,
  find_difficulty idx content = Normal None <->
  forall el, In el content -> ~ has_difficulty_line (textContent el).
Proof.
  induction content as [|el content IH]; intros idx; simpl.
  - split; [intros _ el []|reflexivity].
  - destruct (str_match true re_difficulty (textContent el)) as [m|] eqn:Hm.
    + pose proof Hm as Hm'.
      apply difficulty_match_some in Hm as (num & -> & _ & _ & Hl). simpl.
      split; [discriminate|]. intros H. exfalso. exact (H el (or_introl eq_refl) Hl).
    + rewrite IH. apply difficulty_match_none in Hm. split.
      * intros H e [<-|He]; auto.
      * intros H e He. apply H. right; assumption.
Qed.

(** The difficulty comes from the first element with a difficulty line:
    it is the number text the expression captured there, commas removed,
    as [parseFloat] reads it. *)
Lemma find_difficulty_some content : forall idx d i,
  find_difficulty idx content = Normal (Some (d, i)) ->
  exists before el after m num,
    content = before ++ el :: after /\ i = (idx + List.length before)%nat /\
    (forall e, In e before -> ~ has_difficulty_line (textContent e)) /\
    str_match true re_difficulty (textContent el) = Some m /\
    m_group m 1 = Some num /\ num <> [] /\ forallb cls_num num = true /\
    d = parseFloat (remove_commas num).
Proof.
  induction content as [|el content IH]; intros idx d i H; simpl in H;
    [discriminate|].
  destruct (str_match true re_difficulty (textContent el)) as [m|] eqn:Hm.
  - pose proof Hm as Hm'.
    apply difficulty_match_some in Hm' as (num & Hg & Hn & Hnum & _).
    rewrite Hg in H. simpl in H. injection H as <- <-.
    exists [], el, content, m, num. simpl. rewrite Nat.add_0_r.
    repeat split; auto.
  - apply IH in H
      as (before & el' & after & m & num & -> & -> & Hb & Hm' & Hrest).
    exists (el :: before), el', after, m, num. simpl.
    split; [reflexivity|]. split; [lia|]. split; [|auto].
    intros e [<-|He]; [apply difficulty_match_none; assumption|auto].
Qed.


(** *** [parseFloat] on the captured text *)

Lemma remove_commas_chars num :
  forallb cls_num num = true ->
  forallb (fun c => is_digit c || (c =? 46)%N) (remove_commas num) = true.
Proof.
  unfold remove_commas. induction num as [|c num IH]; simpl; [reflexivity|].
  intros H. apply andb_true_iff in H as [Hc H].
  destruct (c =? 44)%N eqn:H44; simpl; [auto|].
  rewrite (IH H), andb_true_r.
  unfold cls_num in Hc. rewrite H44, orb_false_r in Hc. exact Hc.
Qed.

Lemma digit_not_space c : is_digit c = true -> is_space c = false.
Proof.
  intros H. apply cls_num_not_space. unfold cls_num. rewrite H. reflexivity.
Qed.

Lemma digit_or_point_range c :
  is_digit c || (c =? 46)%N = true -> (48 <= c <= 57)%N \/ c = 46%N.
Proof.
  intros Hc. apply orb_true_iff in Hc as [Hc|Hc].
  - unfold is_digit in Hc. apply andb_true_iff in Hc as [H1 H2].
    apply N.leb_le in H1, H2. lia.
  - apply N.eqb_eq in Hc. auto.
Qed.

(** A text that begins with a digit or a point has no white space to
    skip, no sign and is not "Infinity". *)
Lemma parseFloat_unsigned c s :
  is_digit c || (c =? 46)%N = true ->
  parseFloat (c :: s) =
  let '(ip, s3) := span is_digit (c :: s) in
  let '(fp, s4) := fraction_part s3 in
  match ip ++ fp with
  | [] => NaN
  | ds => Fin (scale10 (Z.of_N (digits_value ds))
                 (exponent_part s4 - Z.of_nat (List.length fp))%Z)
  end.
Proof.
  intros Hc.
  assert (Hsp : is_space c = false).
  { apply cls_num_not_space. unfold cls_num.
    apply orb_true_iff in Hc as [->| ->]; [reflexivity|apply orb_true_r]. }
  apply digit_or_point_range in Hc.
  unfold parseFloat. rewrite trimStart_fixed by assumption.
  unfold split_sign.
  assert ((c =? 43)%N = false) as -> by (apply N.eqb_neq; lia).
  assert ((c =? 45)%N = false) as -> by (apply N.eqb_neq; lia).
  assert (Hinf : startsWith (js "Infinity") (c :: s) = false).
  { change (js "Infinity") with (73%N :: js "nfinity").
    cbn [startsWith].
    assert ((73 =? c)%N = false) as -> by (apply N.eqb_neq; lia).
    reflexivity. }
  rewrite Hinf. reflexivity.
Qed.






(** ** The loop over the headings *)

Lemma levels_loop_normal A (process : located -> option path ->
                                      completion (option A)) h3Elements :
  (forall h3 nextH3, exists r, process h3 nextH3 = Normal r) ->
  exists levels, levels_loop process h3Elements = Normal levels.
Proof.
  intros Hp. induction h3Elements as [|h3 rest [levels IH]]; simpl; [eauto|].
  destruct (Hp h3 (option_map loc_path (hd_error rest))) as [r ->].
  rewrite IH. simpl. eauto.
Qed.

(** Every level of the result was pushed by the step of one heading. *)
Lemma levels_loop_In A (process : located -> option path ->
                                  completion (option A)) h3Elements :
  forall levels l,
  levels_loop process h3Elements = Normal levels -> In l levels ->
  exists before h3 after,
    h3Elements = before ++ h3 :: after /\
    process h3 (option_map loc_path (hd_error after)) = Normal (Some l).
Proof.
  induction h3Elements as [|h3 rest IH]; intros levels l H Hin; simpl in H.
  - injection H as <-. destruct Hin.
  - destruct (process h3 (option_map loc_path (hd_error rest)))
      as [r|] eqn:Hr; [|discriminate].
    destruct (levels_loop process rest) as [ls|] eqn:Hl; [|discriminate].
    simpl in H. injection H as <-.
    assert (Hrest : In l ls ->
              exists before h3' after,
                h3 :: rest = before ++ h3' :: after /\
                process h3' (option_map loc_path (hd_error after))
                = Normal (Some l)).
    { intros Hi. destruct (IH ls l eq_refl Hi) as (b & h & a & -> & Hp).
      exists (h3 :: b), h, a. auto. }
    destruct r as [l0|]; [|auto].
    destruct Hin as [<-|Hi]; [|auto].
    exists [], h3, rest. auto.
Qed.

(** A heading whose step pushes nothing leaves the result as it is. *)
Lemma levels_loop_skip A (process : located -> option path ->
                                    completion (option A)) before h3 after :
  process h3 (option_map loc_path (hd_error after)) = Normal None ->
  forall levels,
    levels_loop process (before ++ h3 :: after) = Normal levels ->
    exists l1 l2,
      levels = l1 ++ l2 /\
      levels_loop process after = Normal l2 /\
      (forall l, In l l1 ->
         exists b h a, before = b ++ h :: a /\
           process h (option_map loc_path (hd_error (a ++ h3 :: after)))
           = Normal (Some l)).
Proof.
  intros Hn. induction before as [|h before IH]; intros levels H; simpl in H.
  - rewrite Hn in H. simpl in H.
    destruct (levels_loop process after) as [ls|] eqn:Hl; [|discriminate].
    simpl in H. injection H as <-. exists [], ls.
    repeat split; auto. intros l [].
  - destruct (process h (option_map loc_path
                           (hd_error (before ++ h3 :: after))))
      as [r|] eqn:Hr; [|discriminate].
    destruct (levels_loop process (before ++ h3 :: after)) as [ls|] eqn:Hl;
      [|discriminate].
    simpl in H. injection H as <-.
    destruct (IH ls eq_refl) as (l1 & l2 & -> & H2 & H1).
    assert (Hshift : forall l, In l l1 ->
              exists b h' a, h :: before = b ++ h' :: a /\
                process h' (option_map loc_path
                              (hd_error (a ++ h3 :: after)))
                = Normal (Some l)).
    { intros l Hi. destruct (H1 l Hi) as (b & h' & a & -> & Hp).
      exists (h :: b), h', a. auto. }
    destruct r as [l0|].
    + exists (l0 :: l1), l2. repeat split; auto.
      intros l [<-|Hi]; [|auto].
      exists [], h, before. auto.
    + exists l1, l2. auto.
Qed.

Section Revisions.
Context {E : Engine}.

(** *** What the step of a heading returns *)

Lemma rev1_process_h3_cases h3 nextH3 :
  exists name author,
    split_heading (textContent (loc_node h3)) = Normal (name, author) /\
    let allContent := Rev1.section_content h3 nextH3 in
    (find_difficulty 0 allContent = Normal None /\
     Rev1.process_h3 h3 nextH3 = Normal None)
    \/
    (exists d i,
       find_difficulty 0 allContent = Normal (Some (d, i)) /\
       Rev1.process_h3 h3 nextH3 =
       Normal (Some (Rev1.Level name author d
                 (youtubeUrl (Rev1.scan_links allContent no_links))
                 (gdBrowserUrl (Rev1.scan_links allContent no_links))
                 (join_outerHTML
                    (Rev1.collect_commentary
                       (skipn (commentary_start allContent) allContent)))))).
Proof.
  destruct (split_heading_normal (textContent (loc_node h3)))
    as (name & author & Hs).
  exists name, author. split; [exact Hs|].
  unfold Rev1.process_h3. rewrite Hs. cbn [bind fst snd].
  destruct (find_difficulty_normal (Rev1.section_content h3 nextH3) 0)
    as [[[d i]|] Hf]; rewrite Hf; cbn [bind].
  - right. exists d, i. auto.
  - left. auto.
Qed.

Lemma rev3_process_h3_cases doc h3 nextH3 :
  exists name publisher,
    split_heading (textContent (loc_node h3)) = Normal (name, publisher) /\
    let allContent := Rev2.section_content h3 nextH3 in
    (find_difficulty 0 allContent = Normal None /\
     Rev3.process_h3 doc h3 nextH3 = Normal None)
    \/
    (exists d i,
       find_difficulty 0 allContent = Normal (Some (d, i)) /\
       Rev3.process_h3 doc h3 nextH3 =
       Normal (Some (Rev2.Level name publisher d
                 (youtubeUrl (scan_links i 0 allContent no_links))
                 (gdBrowserUrl (scan_links i 0 allContent no_links))
                 (join_outerHTML
                    (Rev3.with_footnotes (Rev3.collect_footnotes doc)
                       (Rev2.commentary_elements allContent i)))))).
Proof.
  destruct (split_heading_normal (textContent (loc_node h3)))
    as (name & publisher & Hs).
  exists name, publisher. split; [exact Hs|].
  unfold Rev3.process_h3. rewrite Hs. cbn [bind fst snd].
  destruct (find_difficulty_normal (Rev2.section_content h3 nextH3) 0)
    as [[[d i]|] Hf]; rewrite Hf; cbn [bind].
  - right. exists d, i. auto.
  - left. auto.
Qed.

Lemma rev1_process_h3_normal h3 nextH3 :
  exists r, Rev1.process_h3 h3 nextH3 = Normal r.
Proof.
  destruct (rev1_process_h3_cases h3 nextH3)
    as (n & a & _ & [[_ H]|(d & i & _ & H)]); eauto.
Qed.

Lemma rev3_process_h3_normal doc h3 nextH3 :
  exists r, Rev3.process_h3 doc h3 nextH3 = Normal r.
Proof.
  destruct (rev3_process_h3_cases doc h3 nextH3)
    as (n & a & _ & [[_ H]|(d & i & _ & H)]); eauto.
Qed.

End Revisions.


Section Claims.
Context {E : Engine}.

Lemma rev1_levels_origin r levels l :
  Rev1.fetchAndParseLevelData r = Normal levels -> In l levels ->
  exists before h3 after,
    h3Elements (parsed r) = before ++ h3 :: after /\
    Rev1.process_h3 h3 (option_map loc_path (hd_error after))
    = Normal (Some l).
Proof.
  unfold Rev1.fetchAndParseLevelData, fetch_and_parse.
  destruct (ok r); simpl; [|discriminate].
  apply levels_loop_In.
Qed.

Lemma rev3_levels_origin r levels l :
  Rev3.fetchAndParseLevelData r = Normal levels -> In l levels ->
  exists before h3 after,
    h3Elements (parsed r) = before ++ h3 :: after /\
    Rev3.process_h3 (parsed r) h3 (option_map loc_path (hd_error after))
    = Normal (Some l).
Proof.
  unfold Rev3.fetchAndParseLevelData, fetch_and_parse.
  destruct (ok r); simpl; [|discriminate].
  apply levels_loop_In.
Qed.

(** C1.  A section none of whose content elements has text matching
    "Difficulty value: <number>" (in any case) pushes no level, in the
    first revision and in the one with footnotes; and every level of the
    returned list comes from a heading whose section has such an
    element. *)
Theorem no_difficulty_line_no_record (r : response) :
  (forall h3 nextH3,
     (forall el, In el (Rev1.section_content h3 nextH3) ->
                 ~ has_difficulty_line (textContent el)) ->
     Rev1.process_h3 h3 nextH3 = Normal None) /\
  (forall h3 nextH3,
     (forall el, In el (Rev2.section_content h3 nextH3) ->
                 ~ has_difficulty_line (textContent el)) ->
     Rev3.process_h3 (parsed r) h3 nextH3 = Normal None) /\
  (forall levels l,
     Rev1.fetchAndParseLevelData r = Normal levels -> In l levels ->
     exists before h3 after el,
       h3Elements (parsed r) = before ++ h3 :: after /\
       In el (Rev1.section_content h3
                (option_map loc_path (hd_error after))) /\
       has_difficulty_line (textContent el)) /\
  (forall levels l,
     Rev3.fetchAndParseLevelData r = Normal levels -> In l levels ->
     exists before h3 after el,
       h3Elements (parsed r) = before ++ h3 :: after /\
       In el (Rev2.section_content h3
                (option_map loc_path (hd_error after))) /\
       has_difficulty_line (textContent el)).
Proof.
  split; [|split; [|split]].
  - intros h3 nextH3 Hno.
    destruct (rev1_process_h3_cases h3 nextH3)
      as (n & a & _ & [[_ H]|(d & i & Hf & _)]); [exact H|].
    pose proof (proj2 (find_difficulty_none _ 0%nat) Hno) as Hn.
    cbv zeta in Hf. rewrite Hn in Hf. discriminate.
  - intros h3 nextH3 Hno.
    destruct (rev3_process_h3_cases (parsed r) h3 nextH3)
      as (n & a & _ & [[_ H]|(d & i & Hf & _)]); [exact H|].
    pose proof (proj2 (find_difficulty_none _ 0%nat) Hno) as Hn.
    cbv zeta in Hf. rewrite Hn in Hf. discriminate.
  - intros levels l Hr Hin.
    destruct (rev1_levels_origin r levels l Hr Hin)
      as (before & h3 & after & Hh & Hp).
    destruct (rev1_process_h3_cases h3 (option_map loc_path (hd_error after)))
      as (n & a & _ & [[_ H]|(d & i & Hf & _)]); [congruence|].
    apply find_difficulty_some in Hf
      as (b & e & af & m & num & Hc & _ & _ & Hm & _).
    apply difficulty_match_some in Hm as (_ & _ & _ & _ & Hl).
    exists before, h3, after, e. repeat split; auto.
    rewrite Hc. apply in_elt.
  - intros levels l Hr Hin.
    destruct (rev3_levels_origin r levels l Hr Hin)
      as (before & h3 & after & Hh & Hp).
    destruct (rev3_process_h3_cases (parsed r) h3
                (option_map loc_path (hd_error after)))
      as (n & a & _ & [[_ H]|(d & i & Hf & _)]); [congruence|].
    apply find_difficulty_some in Hf
      as (b & e & af & m & num & Hc & _ & _ & Hm & _).
    apply difficulty_match_some in Hm as (_ & _ & _ & _ & Hl).
    exists before, h3, after, e. repeat split; auto.
    rewrite Hc. apply in_elt.
Qed.



(** A text where the separator expression finds nothing begins with no
    separator. *)
Lemma no_separator_by_matcher s :
  rmatch true re_separator (MState 0 s []) Some = None ->
  forall rest, ~ separator_at s rest.
Proof.
  intros Hn rest Hs.
  destruct (matches_separator_intro s rest 0%nat [] Hs) as [pos' Hm].
  destruct (rmatch_complete _ _ _ _ Hm Some _ eq_refl) as [res Hr].
  congruence.
Qed.

(** C6, as amended.  The heading splits at its first separator.  When what
    stands before the first " by " or " - " (any case, any white space) is
    [title] and what stands after it [attribution], both on one line, the
    name is the trimmed [title] and the author the trimmed [attribution];
    a heading without separator is the name, with an empty author.  So
    "Level X by Jane" and "Level X - Jane" give "Level X" and "Jane", and
    "Level X" gives "Level X" and the empty string. *)
Theorem heading_splits_at_first_separator (doc : document) (h3 : located)
    (nextH3 : option path) :
  (forall title w1 kw w2 attribution,
     trim (textContent (loc_node h3))
     = title ++ w1 ++ kw ++ w2 ++ attribution ->
     title <> [] -> forallb dot title = true ->
     w1 <> [] -> spaces w1 -> (ci_eq kw (js "by") \/ kw = js "-") ->
     w2 <> [] -> spaces w2 -> attribution <> [] ->
     forallb dot (trimStart attribution) = true ->
     (forall t1 t2, title = t1 ++ t2 -> t1 <> [] -> t2 <> [] ->
        forall rest,
          ~ separator_at (t2 ++ w1 ++ kw ++ w2 ++ attribution) rest) ->
     (forall l, Rev1.process_h3 h3 nextH3 = Normal (Some l) ->
        Rev1.name l = trim title /\ Rev1.author l = trim attribution) /\
     (forall l, Rev3.process_h3 doc h3 nextH3 = Normal (Some l) ->
        Rev2.name l = trim title /\ Rev2.publisher l = trim attribution)) /\
  ((forall pre suf rest,
      trim (textContent (loc_node h3)) = pre ++ suf ->
      ~ separator_at suf rest) ->
   (forall l, Rev1.process_h3 h3 nextH3 = Normal (Some l) ->
      Rev1.name l = trim (textContent (loc_node h3)) /\ Rev1.author l = []) /\
   (forall l, Rev3.process_h3 doc h3 nextH3 = Normal (Some l) ->
      Rev2.name l = trim (textContent (loc_node h3)) /\
      Rev2.publisher l = [])) /\
  split_heading (js "Level X by Jane") = Normal (js "Level X", js "Jane") /\
  split_heading (js "Level X - Jane") = Normal (js "Level X", js "Jane") /\
  split_heading (js "Level X") = Normal (js "Level X", []).
Proof.
  assert (H1 : forall n a l,
            split_heading (textContent (loc_node h3)) = Normal (n, a) ->
            Rev1.process_h3 h3 nextH3 = Normal (Some l) ->
            Rev1.name l = n /\ Rev1.author l = a).
  { intros n a l Hs Hp.
    destruct (rev1_process_h3_cases h3 nextH3)
      as (n' & a' & Hs' & [[_ H]|(d & i & _ & H)]); [congruence|].
    rewrite Hs in Hs'. injection Hs' as <- <-.
    rewrite H in Hp. injection Hp as <-. split; reflexivity. }
  assert (H3 : forall n a l,
            split_heading (textContent (loc_node h3)) = Normal (n, a) ->
            Rev3.process_h3 doc h3 nextH3 = Normal (Some l) ->
            Rev2.name l = n /\ Rev2.publisher l = a).
  { intros n a l Hs Hp.
    destruct (rev3_process_h3_cases doc h3 nextH3)
      as (n' & a' & Hs' & [[_ H]|(d & i & _ & H)]); [congruence|].
    rewrite Hs in Hs'. injection Hs' as <- <-.
    rewrite H in Hp. injection Hp as <-. split; reflexivity. }
  split; [|split; [|split; [|split]]].
  - intros title w1 kw w2 attribution Ht Hne Hdt Hw1 Hs1 Hkw Hw2 Hs2 Ha Hda
      Hfirst.
    pose proof (split_heading_at_first _ _ _ _ _ _ Ht Hne Hdt Hw1 Hs1 Hkw
                  Hw2 Hs2 Ha Hda Hfirst) as Hs.
    split; intros l Hp; [apply H1|apply H3]; assumption.
  - intros Hno.
    pose proof (split_heading_no_separator _ Hno) as Hs.
    split; intros l Hp; [apply H1|apply H3]; assumption.
  - vm_compute. reflexivity.
  - vm_compute. reflexivity.
  - vm_compute. reflexivity.
Qed.


(** C9, as amended.  The name of a level is empty exactly when its heading
    has no text, or only white space. *)
Theorem name_empty_iff_heading_blank (r : response) :
  (forall levels l,
     Rev1.fetchAndParseLevelData r = Normal levels -> In l levels ->
     exists before h3 after,
       h3Elements (parsed r) = before ++ h3 :: after /\
       Rev1.process_h3 h3 (option_map loc_path (hd_error after))
       = Normal (Some l) /\
       (Rev1.name l = [] <-> trim (textContent (loc_node h3)) = [])) /\
  (forall levels l,
     Rev3.fetchAndParseLevelData r = Normal levels -> In l levels ->
     exists before h3 after,
       h3Elements (parsed r) = before ++ h3 :: after /\
       Rev3.process_h3 (parsed r) h3 (option_map loc_path (hd_error after))
       = Normal (Some l) /\
       (Rev2.name l = [] <-> trim (textContent (loc_node h3)) = [])).
Proof.
  split; intros levels l Hr Hin.
  - destruct (rev1_levels_origin r levels l Hr Hin)
      as (before & h3 & after & Hh & Hp).
    exists before, h3, after. split; [exact Hh|]. split; [exact Hp|].
    destruct (rev1_process_h3_cases h3 (option_map loc_path (hd_error after)))
      as (n & a & Hs & [[_ H]|(d & i & _ & H)]); [congruence|].
    rewrite H in Hp. injection Hp as <-. cbn [Rev1.name].
    eapply split_heading_name_empty. exact Hs.
  - destruct (rev3_levels_origin r levels l Hr Hin)
      as (before & h3 & after & Hh & Hp).
    exists before, h3, after. split; [exact Hh|]. split; [exact Hp|].
    destruct (rev3_process_h3_cases (parsed r) h3
                (option_map loc_path (hd_error after)))
      as (n & a & Hs & [[_ H]|(d & i & _ & H)]); [congruence|].
    rewrite H in Hp. injection Hp as <-. cbn [Rev2.name].
    eapply split_heading_name_empty. exact Hs.
Qed.


End Claims.


(** ** The DOM *)

Lemma node_induction (P : node -> Prop) :
  (forall d, P (Text d)) -> (forall d, P (Comment d)) ->
  (forall t a cs, Forall P cs -> P (Element t a cs)) ->
  forall n, P n.
Proof.
  intros HT HC HE. fix IH 1. intros [d|d|t a cs].
  - apply HT.
  - apply HC.
  - apply HE. induction cs as [|c cs IHcs]; constructor.
    + apply IH.
    + exact IHcs.
Qed.

Lemma remove_in_element p t a cs :
  remove_in p (Element t a cs) = Element t a (remove_where p cs).
Proof.
  cbn [remove_in]. f_equal.
  induction cs as [|c cs IH]; [reflexivity|].
  cbn [remove_where]. rewrite IH. reflexivity.
Qed.

Lemma shallow_remove_in p n : shallow p -> p (remove_in p n) = p n.
Proof.
  intros Hp. destruct n as [d|d|t a cs]; try reflexivity.
  rewrite remove_in_element. apply Hp.
Qed.

Lemma descendants_cons n ns :
  descendants (n :: ns) = n :: descendants (children n) ++ descendants ns.
Proof.
  unfold descendants. cbn [flat_map subtree app].
  destruct n; reflexivity.
Qed.

(** Nothing the selector matches is left below the clone. *)
Lemma remove_where_none p : shallow p ->
  forall ns x, In x (descendants (remove_where p ns)) -> p x = false.
Proof.
  intros Hp ns. induction ns as [|n ns IHns]; intros x Hx; [destruct Hx|].
  cbn [remove_where] in Hx.
  destruct (p n) eqn:Hn; [auto|].
  rewrite descendants_cons in Hx.
  destruct Hx as [<-|Hx]; [rewrite shallow_remove_in; assumption|].
  apply in_app_or in Hx as [Hx|Hx]; [|auto].
  clear IHns Hn. revert x Hx.
  induction n as [d|d|t a cs IHcs] using node_induction; intros x Hx;
    try destruct Hx.
  rewrite remove_in_element in Hx. cbn [children] in Hx.
  induction cs as [|c cs IH]; [destruct Hx|].
  inversion IHcs as [|c' cs' Hc Hcs]; subst.
  cbn [remove_where] in Hx.
  destruct (p c) eqn:Hpc; [auto|].
  rewrite descendants_cons in Hx.
  destruct Hx as [<-|Hx]; [rewrite shallow_remove_in; assumption|].
  apply in_app_or in Hx as [Hx|Hx]; auto.
Qed.

(** A clone below which the selector matches nothing is the element. *)
Lemma remove_where_same p :
  forall ns, (forall x, In x (descendants ns) -> p x = false) ->
  remove_where p ns = ns.
Proof.
  intros ns. induction ns as [|n ns IHns]; intros H; [reflexivity|].
  rewrite descendants_cons in H. cbn [remove_where].
  rewrite (H n (or_introl eq_refl)).
  rewrite IHns by (intros x Hx; apply H; right; apply in_or_app; auto).
  f_equal.
  assert (Hn : forall x, In x (descendants (children n)) -> p x = false)
    by (intros x Hx; apply H; right; apply in_or_app; auto).
  clear -Hn. revert Hn.
  induction n as [d|d|t a cs IHcs] using node_induction; intros Hn;
    try reflexivity.
  rewrite remove_in_element. f_equal. cbn [children] in Hn.
  induction cs as [|c cs IH]; [reflexivity|].
  inversion IHcs as [|c' cs' Hc Hcs]; subst.
  rewrite descendants_cons in Hn. cbn [remove_where].
  rewrite (Hn c (or_introl eq_refl)).
  rewrite Hc by (intros x Hx; apply Hn; right; apply in_or_app; auto).
  rewrite IH; [reflexivity|assumption|].
  intros x Hx; apply Hn; right; apply in_or_app; auto.
Qed.

Lemma remove_descendants_none p el : shallow p ->
  forall x, In x (descendants (children (remove_descendants p el))) ->
            p x = false.
Proof.
  intros Hp x. unfold remove_descendants.
  destruct el as [d|d|t a cs]; try (intros []).
  rewrite remove_in_element. cbn [children].
  apply remove_where_none. assumption.
Qed.

Lemma remove_descendants_same p el :
  (forall x, In x (descendants (children el)) -> p x = false) ->
  remove_descendants p el = el.
Proof.
  intros H. unfold remove_descendants.
  destruct el as [d|d|t a cs]; try reflexivity.
  rewrite remove_in_element, remove_where_same; auto.
Qed.

(** ** The content of a section *)

Lemma collect_until_spec stop p siblings : forall k,
  exists before after,
    siblings = before ++ after /\
    collect_until stop p k siblings = filter is_element before /\
    (forall i n, nth_error before i = Some n -> is_element n = true ->
                 stop (sibling_path p (k + i)) n = false) /\
    (after = [] \/
     exists n after',
       after = n :: after' /\ is_element n = true /\
       stop (sibling_path p (k + List.length before)) n = true).
Proof.
  induction siblings as [|n rest IH]; intros k.
  - exists [], []. repeat split; auto. intros [|i] m H; discriminate.
  - cbn [collect_until].
    destruct (is_element n) eqn:Hn;
      [destruct (stop (sibling_path p k) n) eqn:Hs|].
    + exists [], (n :: rest). repeat split.
      * intros [|i] m H; discriminate.
      * right. exists n, rest. simpl. rewrite Nat.add_0_r. auto.
    + destruct (IH (S k)) as (before & after & -> & Hc & Hb & Ha).
      exists (n :: before), after. simpl. rewrite Hn, Hc.
      repeat split.
      * intros [|i] m H Hm; simpl in H.
        -- injection H as <-. rewrite Nat.add_0_r. assumption.
        -- replace (k + S i)%nat with (S k + i)%nat by lia. eauto.
      * replace (k + S (List.length before))%nat
          with (S k + List.length before)%nat by lia. exact Ha.
    + destruct (IH (S k)) as (before & after & -> & Hc & Hb & Ha).
      exists (n :: before), after. simpl. rewrite Hn, Hc.
      repeat split.
      * intros [|i] m H Hm; simpl in H.
        -- injection H as <-. congruence.
        -- replace (k + S i)%nat with (S k + i)%nat by lia. eauto.
      * replace (k + S (List.length before))%nat
          with (S k + List.length before)%nat by lia. exact Ha.
Qed.

Lemma exec_from_after_start ic r (s : jsstring) : forall pos,
  exec_from ic (Cat Bol r) (S pos) s = None.
Proof.
  induction s as [|x s IH]; intros pos; simpl; [reflexivity|apply IH].
Qed.

Lemma test_anchored ic r (s : jsstring) :
  test ic (Cat Bol r) s =
  match rmatch ic r (MState 0 s []) Some with
  | Some _ => true
  | None => false
  end.
Proof.
  unfold test, str_match.
  destruct s as [|x s]; cbn [exec_from rmatch ms_pos];
    [|rewrite exec_from_after_start];
    destruct (rmatch ic r _ Some); reflexivity.
Qed.

(** [/^H[1-6]$/.test(element.tagName)]: the tag name is H and a digit
    from 1 to 6. *)
Lemma is_heading_iff n :
  is_heading n = true <->
  exists d, (49 <= d <= 54)%N /\ tagName n = [72%N; d].
Proof.
  unfold is_heading.
  change re_heading
    with (Cat Bol (Cat (Cat (Chr 72) Eps)
           (Cat (Cls (fun c => (49 <=? c)%N && (c <=? 54)%N))
              (Cat Eol Eps)))).
  rewrite test_anchored.
  destruct (tagName n) as [|x [|y [|z s]]];
    cbn [rmatch ms_rest ms_pos ms_caps advance chr_eq].
  - split; [discriminate|]. intros (d & _ & H). discriminate.
  - destruct (72 =? x)%N; (split; [discriminate|]);
      intros (d & _ & H); discriminate.
  - destruct (72 =? x)%N eqn:Hx.
    + destruct ((49 <=? y)%N && (y <=? 54)%N) eqn:Hy.
      * split; [|reflexivity]. intros _. exists y.
        apply N.eqb_eq in Hx. subst x.
        apply andb_true_iff in Hy as [H1 H2]. apply N.leb_le in H1, H2.
        split; [lia|reflexivity].
      * split; [discriminate|]. intros (d & Hd & H).
        injection H as H1 H2. subst.
        apply andb_false_iff in Hy as [Hy|Hy]; apply N.leb_gt in Hy; lia.
    + split; [discriminate|]. intros (d & Hd & H).
      injection H as H1 H2. subst. rewrite N.eqb_refl in Hx.
      discriminate.
  - destruct (72 =? x)%N;
      [destruct ((49 <=? y)%N && (y <=? 54)%N)|];
      (split; [discriminate|]); intros (d & _ & H); discriminate.
Qed.

Section Content.
Context {E : Engine}.

(** C5, as amended.  The content of a section is the run of sibling
    elements after its h3 that ends before the first sibling element that
    stops it, or with the last sibling.  In the later revisions the next
    h3 of the document and every heading element, H1 to H6, stop it; in
    src/dataParser.ts only the next h3 of the document does. *)
Theorem section_content_boundary (h3 : located) (nextH3 : option path) :
  (exists before after,
     loc_next h3 = before ++ after /\
     Rev2.section_content h3 nextH3 = filter is_element before /\
     (forall i n, nth_error before i = Some n -> is_element n = true ->
        same_node nextH3 (sibling_path (loc_path h3) (1 + i)) = false /\
        is_heading n = false) /\
     (after = [] \/
      exists n after',
        after = n :: after' /\ is_element n = true /\
        (same_node nextH3
           (sibling_path (loc_path h3) (1 + List.length before)) = true \/
         exists d, (49 <= d <= 54)%N /\ tagName n = [72%N; d]))) /\
  (exists before after,
     loc_next h3 = before ++ after /\
     Rev1.section_content h3 nextH3 = filter is_element before /\
     (forall i n, nth_error before i = Some n -> is_element n = true ->
        same_node nextH3 (sibling_path (loc_path h3) (1 + i)) = false) /\
     (after = [] \/
      exists n after',
        after = n :: after' /\ is_element n = true /\
        same_node nextH3
          (sibling_path (loc_path h3) (1 + List.length before)) = true)).
Proof.
  split.
  - unfold Rev2.section_content.
    destruct (collect_until_spec
                (fun q element => same_node nextH3 q || is_heading element)
                (loc_path h3) (loc_next h3) 1)
      as (before & after & Hs & Hc & Hb & Ha).
    exists before, after. split; [exact Hs|]. split; [exact Hc|]. split.
    + intros i n Hi Hn. specialize (Hb i n Hi Hn).
      apply orb_false_iff in Hb. exact Hb.
    + destruct Ha as [->|(n & after' & -> & Hn & Hstop)]; [auto|].
      right. exists n, after'. split; [reflexivity|]. split; [exact Hn|].
      apply orb_true_iff in Hstop as [H|H]; [auto|].
      right. apply is_heading_iff. exact H.
  - unfold Rev1.section_content.
    destruct (collect_until_spec (fun q _ => same_node nextH3 q)
                (loc_path h3) (loc_next h3) 1)
      as (before & after & Hs & Hc & Hb & Ha).
    exists before, after. auto.
Qed.

End Content.


(** ** The link loop *)

Section Links.
Context {E : Engine}.

Lemma classify_found st a :
  linksFound (classify_link st a) = linksFound st || recognized a.
Proof.
  unfold classify_link, recognized.
  destruct (is_youtube (link_href a) (link_text a)); cbn [linksFound orb].
  - rewrite orb_true_r. reflexivity.
  - destruct (is_gdbrowser (link_href a) (link_text a)); cbn [linksFound].
    + rewrite orb_true_r. reflexivity.
    + rewrite orb_false_r. reflexivity.
Qed.

Lemma classify_excluded st a :
  excludedHrefs (classify_link st a) = excludedHrefs st.
Proof.
  unfold classify_link.
  destruct (is_youtube _ _); [reflexivity|].
  destruct (is_gdbrowser _ _); reflexivity.
Qed.

Lemma scan_link_found b st a :
  linksFound (scan_link b st a) = linksFound st || recognized a.
Proof.
  unfold scan_link.
  destruct (b && negb (is_empty (link_href a))); cbn [linksFound];
    apply classify_found.
Qed.

Lemma fold_scan_found b links : forall st,
  linksFound (fold_left (scan_link b) links st)
  = linksFound st || existsb recognized links.
Proof.
  induction links as [|a links IH]; intros st; simpl.
  - rewrite orb_false_r. reflexivity.
  - rewrite IH, scan_link_found, orb_assoc. reflexivity.
Qed.

Lemma fold_classify_found links : forall st,
  linksFound (fold_left classify_link links st)
  = linksFound st || existsb recognized links.
Proof.
  induction links as [|a links IH]; intros st; simpl.
  - rewrite orb_false_r. reflexivity.
  - rewrite IH, classify_found, orb_assoc. reflexivity.
Qed.

(** The loop ends with the first element that has a recognized link. *)
Lemma scan_links_stop d pre el post : forall idx st,
  linksFound st = false ->
  (forall e, In e pre -> has_recognized_link e = false) ->
  has_recognized_link el = true ->
  scan_links d idx (pre ++ el :: post) st
  = scan_links d idx (pre ++ [el]) st.
Proof.
  induction pre as [|e pre IH]; intros idx st Hst Hpre Hel; simpl.
  - rewrite fold_scan_found, Hst. unfold has_recognized_link in Hel.
    rewrite Hel. reflexivity.
  - rewrite fold_scan_found, Hst.
    pose proof (Hpre e (or_introl eq_refl)) as He.
    unfold has_recognized_link in He. rewrite He. cbn [orb].
    apply IH; [|intros e' He'; apply Hpre; right; assumption|assumption].
    rewrite fold_scan_found, Hst, He. reflexivity.
Qed.

Lemma rev1_scan_links_stop pre el post : forall st,
  linksFound st = false ->
  (forall e, In e pre -> has_recognized_link e = false) ->
  has_recognized_link el = true ->
  Rev1.scan_links (pre ++ el :: post) st = Rev1.scan_links (pre ++ [el]) st.
Proof.
  induction pre as [|e pre IH]; intros st Hst Hpre Hel; simpl.
  - rewrite fold_classify_found, Hst. unfold has_recognized_link in Hel.
    rewrite Hel. reflexivity.
  - rewrite fold_classify_found, Hst.
    pose proof (Hpre e (or_introl eq_refl)) as He.
    unfold has_recognized_link in He. rewrite He. cbn [orb].
    apply IH; [|intros e' He'; apply Hpre; right; assumption|assumption].
    rewrite fold_classify_found, Hst, He. reflexivity.
Qed.

(** C4.  The link loop ends with the first content element in which it
    recognized a link: what follows that element does not count.  In the
    example the element with the GDBrowser link stands before the one with
    the YouTube link, and the level has no YouTube URL. *)
Theorem link_scan_stops_at_first_link :
  (forall d pre el post,
     (forall e, In e pre -> has_recognized_link e = false) ->
     has_recognized_link el = true ->
     scan_links d 0 (pre ++ el :: post) no_links
     = scan_links d 0 (pre ++ [el]) no_links /\
     Rev1.scan_links (pre ++ el :: post) no_links
     = Rev1.scan_links (pre ++ [el]) no_links) /\
  (exists l later link,
     Rev3.fetchAndParseLevelData (fetched doc_gdbrowser_first) = Normal [l] /\
     Rev2.youtubeUrl l = None /\
     Rev2.gdBrowserUrl l = Some (js "https://gdbrowser.com/1") /\
     nth_error (Rev2.section_content (h3_at doc_gdbrowser_first 0)
                  (h3_after doc_gdbrowser_first 0)) 2 = Some later /\
     In link (anchors later) /\
     is_youtube (link_href link) (link_text link) = true) /\
  (exists l,
     Rev1.fetchAndParseLevelData (fetched doc_gdbrowser_first) = Normal [l] /\
     Rev1.youtubeUrl l = None /\
     Rev1.gdBrowserUrl l = Some (js "https://gdbrowser.com/1")).
Proof.
  split; [|split].
  - intros d pre el post Hpre Hel. split.
    + apply scan_links_stop; auto.
    + apply rev1_scan_links_stop; auto.
  - eexists. eexists. eexists.
    split; [vm_compute; reflexivity|].
    split; [reflexivity|]. split; [reflexivity|].
    split; [vm_compute; reflexivity|].
    split; [left; reflexivity|vm_compute; reflexivity].
  - eexists. split; [vm_compute; reflexivity|].
    split; reflexivity.
Qed.

(** *** The hrefs collected from the difficulty element *)

Lemma set_has_add s x h :
  set_has (set_add s x) h = set_has s h || str_eqb h x.
Proof.
  unfold set_add, set_has.
  destruct (existsb (str_eqb x) s) eqn:Hx.
  - destruct (str_eqb h x) eqn:Hh; [|rewrite orb_false_r; reflexivity].
    apply str_eqb_eq in Hh. subst. rewrite Hx. reflexivity.
  - rewrite existsb_app. simpl. rewrite orb_false_r. reflexivity.
Qed.

Lemma fold_scan_excluded_false links : forall st,
  excludedHrefs (fold_left (scan_link false) links st) = excludedHrefs st.
Proof.
  induction links as [|a links IH]; intros st; simpl; [reflexivity|].
  rewrite IH. unfold scan_link. cbn [andb]. apply classify_excluded.
Qed.

Lemma fold_scan_excluded_true links h : forall st,
  set_has (excludedHrefs (fold_left (scan_link true) links st)) h
  = set_has (excludedHrefs st) h
    || (negb (is_empty h)
        && existsb (fun a => str_eqb (link_href a) h) links).
Proof.
  induction links as [|a links IH]; intros st; simpl.
  - rewrite andb_false_r, orb_false_r. reflexivity.
  - rewrite IH. unfold scan_link. cbn [andb].
    destruct (is_empty (link_href a)) eqn:Ha; cbn [negb excludedHrefs].
    + rewrite classify_excluded.
      destruct (str_eqb (link_href a) h) eqn:Hh; [|reflexivity].
      apply str_eqb_eq in Hh. subst h. rewrite Ha. reflexivity.
    + rewrite set_has_add, classify_excluded, <- orb_assoc. f_equal.
      destruct (str_eqb h (link_href a)) eqn:Hh.
      * apply str_eqb_eq in Hh. subst h.
        rewrite Ha, str_eqb_refl. reflexivity.
      * assert (str_eqb (link_href a) h = false) as ->.
        { apply str_eqb_neq. apply str_eqb_neq in Hh. congruence. }
        reflexivity.
Qed.

Lemma scan_links_past d content : forall idx st,
  (d < idx)%nat ->
  excludedHrefs (scan_links d idx content st) = excludedHrefs st.
Proof.
  induction content as [|e content IH]; intros idx st Hlt; simpl;
    [reflexivity|].
  assert (Nat.eqb idx d = false) as -> by (apply Nat.eqb_neq; lia).
  destruct (linksFound _).
  - apply fold_scan_excluded_false.
  - rewrite IH by lia. apply fold_scan_excluded_false.
Qed.

(** The exclusion set: the hrefs of the anchors of the difficulty element,
    when the loop gets that far. *)
Lemma scan_excluded_spec d h content : forall idx st,
  linksFound st = false -> excludedHrefs st = [] ->
  (set_has (excludedHrefs (scan_links d idx content st)) h = true <->
   (idx <= d)%nat /\ h <> [] /\
   (forall e, In e (firstn (d - idx) content) ->
              has_recognized_link e = false) /\
   exists el a, nth_error content (d - idx) = Some el /\
                In a (anchors el) /\ link_href a = h).
Proof.
  induction content as [|e content IH]; intros idx st Hst Hex.
  - simpl. rewrite Hex. simpl. split; [discriminate|].
    intros (_ & _ & _ & el0 & a & H & _).
    destruct (d - idx)%nat; discriminate.
  - cbn [scan_links].
    destruct (Nat.eqb idx d) eqn:Hd.
    + apply Nat.eqb_eq in Hd. subst idx. rewrite Nat.sub_diag.
      assert (Hset : set_has (excludedHrefs
                       (if linksFound (fold_left (scan_link true)
                                         (anchors e) st)
                        then fold_left (scan_link true) (anchors e) st
                        else scan_links d (S d) content
                               (fold_left (scan_link true) (anchors e) st)))
                       h
                     = negb (is_empty h)
                       && existsb (fun a => str_eqb (link_href a) h)
                            (anchors e)).
      { destruct (linksFound (fold_left (scan_link true) (anchors e) st)).
        - rewrite fold_scan_excluded_true, Hex. reflexivity.
        - rewrite scan_links_past by lia.
          rewrite fold_scan_excluded_true, Hex. reflexivity. }
      rewrite Hset, andb_true_iff, negb_true_iff, is_empty_false,
        existsb_exists.
      split.
      * intros (Hh & a & Ha & Heq). apply str_eqb_eq in Heq.
        split; [lia|]. split; [exact Hh|]. split; [intros e' []|].
        exists e, a. auto.
      * intros (_ & Hh & _ & el0 & a & Hn & Ha & Heq).
        injection Hn as <-. split; [exact Hh|].
        exists a. split; [exact Ha|]. apply str_eqb_eq. exact Heq.
    + apply Nat.eqb_neq in Hd.
      pose proof (fold_scan_found false (anchors e) st) as Hf.
      rewrite Hst in Hf. cbn [orb] in Hf.
      pose proof (fold_scan_excluded_false (anchors e) st) as Hx.
      rewrite Hex in Hx.
      destruct (linksFound (fold_left (scan_link false) (anchors e) st))
        eqn:Hfound.
      * rewrite Hx. simpl. split; [discriminate|].
        intros (Hle & _ & Hpre & _).
        assert (Hlt : (idx < d)%nat) by lia.
        destruct (d - idx)%nat as [|k] eqn:Hk; [lia|].
        specialize (Hpre e (or_introl eq_refl)).
        unfold has_recognized_link in Hpre. congruence.
      * rewrite (IH (S idx) _ Hfound Hx).
        split.
        -- intros (Hle & Hh & Hpre & el0 & a & Hn & Ha & Heq).
           split; [lia|]. split; [exact Hh|].
           replace (d - idx)%nat with (S (d - S idx)) by lia.
           split.
           ++ intros e' [<-|He']; [|auto].
              unfold has_recognized_link. congruence.
           ++ exists el0, a. auto.
        -- intros (Hle & Hh & Hpre & el0 & a & Hn & Ha & Heq).
           assert (Hlt : (idx < d)%nat) by lia.
           replace (d - idx)%nat with (S (d - S idx)) in * by lia.
           split; [lia|]. split; [exact Hh|].
           split; [intros e' He'; apply Hpre; right; exact He'|].
           exists el0, a. auto.
Qed.

End Links.


(** ** Where the commentary starts *)

Lemma start_loop_app a b : forall j st,
  start_loop j (a ++ b) st
  = start_loop (j + List.length a) b (start_loop j a st).
Proof.
  induction a as [|e a IH]; intros j st; simpl.
  - rewrite Nat.add_0_r. reflexivity.
  - rewrite IH. f_equal. lia.
Qed.

Section Start.
Context {E : Engine}.

Lemma start_loop_no_label content : forall j st,
  foundDifficulty st = false ->
  (forall e, In e content -> has_label (textContent e) = false) ->
  start_loop j content st = st.
Proof.
  induction content as [|e content IH]; intros j st Hfd Hno; simpl;
    [reflexivity|].
  assert (Hs : start_step j st e = st).
  { unfold start_step.
    rewrite Hfd, (Hno e (or_introl eq_refl)). cbn [negb andb].
    rewrite Hfd. reflexivity. }
  rewrite Hs. apply IH; [assumption|].
  intros e' He'. apply Hno. right; assumption.
Qed.

Lemma start_loop_done content : forall j st,
  foundDifficulty st = true -> foundLinks st = true ->
  start_loop j content st = st.
Proof.
  induction content as [|e content IH]; intros j st Hfd Hfl; simpl;
    [reflexivity|].
  assert (Hs : start_step j st e = st).
  { unfold start_step. rewrite Hfd. cbn [negb andb].
    rewrite Hfd, Hfl. reflexivity. }
  rewrite Hs. apply IH; assumption.
Qed.

Lemma start_loop_no_links content : forall j st,
  foundDifficulty st = true -> foundLinks st = false ->
  (forall e, In e content -> has_category_href e = false) ->
  start_loop j content st = st.
Proof.
  induction content as [|e content IH]; intros j st Hfd Hfl Hno; simpl;
    [reflexivity|].
  assert (Hs : start_step j st e = st).
  { unfold start_step. rewrite Hfd. cbn [negb andb].
    rewrite Hfd, Hfl, (Hno e (or_introl eq_refl)). reflexivity. }
  rewrite Hs. apply IH; [assumption|assumption|].
  intros e' He'. apply Hno. right; assumption.
Qed.

Lemma start_loop_first_link mid e_l post : forall j st,
  foundDifficulty st = true -> foundLinks st = false ->
  (forall e, In e mid -> has_category_href e = false) ->
  has_category_href e_l = true ->
  start_loop j (mid ++ e_l :: post) st
  = StartState (j + List.length mid + 1) true true.
Proof.
  intros j st Hfd Hfl Hmid Hl.
  rewrite start_loop_app, (start_loop_no_links mid j st Hfd Hfl Hmid).
  simpl.
  assert (Hs : start_step (j + List.length mid) st e_l
               = StartState (j + List.length mid + 1) true true).
  { unfold start_step. rewrite Hfd. cbn [negb andb].
    rewrite Hfd, Hfl, Hl. reflexivity. }
  rewrite Hs. apply start_loop_done; reflexivity.
Qed.

(** The commentary starts after the first element, from the first one
    with the label on, that has an anchor with a YouTube or GDBrowser
    href; without such an element it starts after the first element with
    the label. *)
Lemma commentary_start_spec pre e_w post :
  (forall e, In e pre -> has_label (textContent e) = false) ->
  has_label (textContent e_w) = true ->
  ((forall e, In e (e_w :: post) -> has_category_href e = false) ->
   commentary_start (pre ++ e_w :: post) = S (List.length pre)) /\
  (forall mid e_l post',
     e_w :: post = mid ++ e_l :: post' ->
     (forall e, In e mid -> has_category_href e = false) ->
     has_category_href e_l = true ->
     commentary_start (pre ++ e_w :: post)
     = S (List.length pre + List.length mid)).
Proof.
  intros Hpre Hw. unfold commentary_start.
  rewrite start_loop_app,
    (start_loop_no_label pre 0 (StartState 0 false false) eq_refl Hpre).
  cbn [start_loop Nat.add].
  assert (Hstep : start_step (List.length pre) (StartState 0 false false) e_w
                  = StartState (List.length pre + 1) true
                      (has_category_href e_w)).
  { unfold start_step. cbn [foundDifficulty foundLinks negb andb].
    rewrite Hw. cbn [foundDifficulty foundLinks negb andb].
    destruct (has_category_href e_w); reflexivity. }
  rewrite Hstep. split.
  - intros Hno. rewrite (Hno e_w (or_introl eq_refl)).
    rewrite start_loop_no_links; cbn; try reflexivity; [lia|].
    intros e He. apply Hno. right; assumption.
  - intros [|m mid] e_l post' Heq Hmid Hl; simpl in Heq;
      injection Heq as <- ->.
    + rewrite Hl. rewrite start_loop_done by reflexivity. cbn. lia.
    + rewrite (Hmid e_w (or_introl eq_refl)).
      rewrite start_loop_first_link; cbn; try reflexivity; try assumption.
      * lia.
      * intros e He. apply Hmid. right; assumption.
Qed.

End Start.

(** ** The commentary elements *)

Lemma In_skipn (A : Type) (x : A) l : forall k,
  In x (skipn k l) <-> exists j, (k <= j)%nat /\ nth_error l j = Some x.
Proof.
  induction l as [|y l IH]; intros k.
  - rewrite skipn_nil. split; [intros []|].
    intros ([|j] & _ & H); discriminate.
  - destruct k as [|k]; simpl.
    + split.
      * intros H. apply (In_nth_error (y :: l)) in H as [j Hj].
        exists j. split; [lia|exact Hj].
      * intros (j & _ & Hj). apply (nth_error_In (y :: l)) in Hj.
        exact Hj.
    + rewrite IH. split.
      * intros (j & Hle & Hj). exists (S j). split; [lia|exact Hj].
      * intros ([|j] & Hle & Hj); [lia|]. exists j. split; [lia|exact Hj].
Qed.

Lemma in_commentary_clones drop rest c :
  In c (flat_map (commentary_clone drop) rest) <->
  exists el, In el rest /\ is_commentary el = true /\
             c = remove_descendants drop el /\ has_content c = true.
Proof.
  rewrite in_flat_map. split.
  - intros (el0 & Hin & Hc). exists el0. unfold commentary_clone in Hc.
    destruct (is_commentary el0); [|destruct Hc].
    destruct (has_content (remove_descendants drop el0)) eqn:Hh;
      [|destruct Hc].
    destruct Hc as [<-|[]]. auto.
  - intros (el0 & Hin & Hc & -> & Hh). exists el0. split; [exact Hin|].
    unfold commentary_clone. rewrite Hc, Hh. left; reflexivity.
Qed.

Lemma rev2_collect_no_heading excl rest :
  (forall n, In n rest -> is_heading n = false) ->
  Rev2.collect_commentary excl rest
  = flat_map (commentary_clone (Rev2.excluded_anchor excl)) rest.
Proof.
  induction rest as [|e rest IH]; intros Hno; simpl; [reflexivity|].
  rewrite (Hno e (or_introl eq_refl)), IH; [reflexivity|].
  intros n Hn. apply Hno. right; assumption.
Qed.

Lemma In_filter_nth (A : Type) (f : A -> bool) l x :
  In x (filter f l) -> exists i, nth_error l i = Some x /\ f x = true.
Proof.
  intros H. apply filter_In in H as [Hin Hf].
  apply In_nth_error in Hin as [i Hi]. eauto.
Qed.

Lemma rev2_content_no_heading h3 nextH3 n :
  In n (Rev2.section_content h3 nextH3) -> is_heading n = false.
Proof.
  unfold Rev2.section_content.
  destruct (collect_until_spec
              (fun q element => same_node nextH3 q || is_heading element)
              (loc_path h3) (loc_next h3) 1)
    as (before & after & _ & -> & Hb & _).
  intros H. apply In_filter_nth in H as (i & Hi & Hn).
  specialize (Hb i n Hi Hn). apply orb_false_iff in Hb. apply Hb.
Qed.

Lemma shallow_excluded_anchor excl : shallow (Rev2.excluded_anchor excl).
Proof. intros t a cs cs'. reflexivity. Qed.

Lemma shallow_category_anchor : shallow Rev1.category_anchor.
Proof. intros t a cs cs'. reflexivity. Qed.

(** The element with the difficulty line is no commentary. *)
Lemma difficulty_element_no_commentary content d i :
  find_difficulty 0 content = Normal (Some (d, i)) ->
  exists difficultyElement,
    nth_error content i = Some difficultyElement /\
    has_difficulty_line (textContent difficultyElement) /\
    is_commentary difficultyElement = false.
Proof.
  intros H. apply find_difficulty_some in H
    as (b & e & af & m & num & -> & -> & _ & Hm & _).
  exists e. split.
  - rewrite nth_error_app2 by (simpl; lia).
    replace (0 + List.length b - List.length b)%nat with 0%nat by lia.
    reflexivity.
  - apply difficulty_match_some in Hm as (_ & _ & _ & _ & Hl).
    split; [exact Hl|].
    unfold is_commentary. rewrite (has_difficulty_line_label _ Hl).
    apply andb_false_r.
Qed.


(** ** Footnotes *)

Lemma unlink_node_eq p n :
  unlink_node p n =
  if p n then Text (textContent n)
  else match n with
       | Element t a cs => Element t a (List.map (unlink_node p) cs)
       | _ => n
       end.
Proof. destruct n; reflexivity. Qed.

Lemma unlink_text p n : textContent (unlink_node p n) = textContent n.
Proof.
  induction n as [d|d|t a cs IH] using node_induction;
    cbn [unlink_node]; destruct (p _); try reflexivity.
  cbn [textContent]. induction cs as [|c cs IHcs]; [reflexivity|].
  inversion IH as [|c' cs' Hc Hcs]; subst.
  cbn [List.map flat_map]. rewrite Hc, IHcs; [reflexivity|assumption].
Qed.

Lemma unlink_descendants_text p el :
  textContent (unlink_descendants p el) = textContent el.
Proof.
  destruct el as [d|d|t a cs]; try reflexivity.
  cbn [unlink_descendants textContent].
  induction cs as [|c cs IH]; [reflexivity|].
  cbn [List.map flat_map]. rewrite unlink_text, IH. reflexivity.
Qed.

Lemma shallow_unlink p n :
  shallow p -> p n = false -> p (unlink_node p n) = false.
Proof.
  intros Hp Hn. rewrite unlink_node_eq, Hn.
  destruct n as [d|d|t a cs]; try assumption.
  rewrite (Hp t a _ cs). assumption.
Qed.

(** No anchor the selector matches is left below the element. *)
Lemma unlink_none p :
  shallow p -> (forall d, p (Text d) = false) ->
  forall ns x,
    In x (descendants (List.map (unlink_node p) ns)) -> p x = false.
Proof.
  intros Hp Ht ns. induction ns as [|n ns IHns]; intros x Hx;
    [destruct Hx|].
  cbn [List.map] in Hx. rewrite descendants_cons in Hx.
  destruct Hx as [<-|Hx].
  { destruct (p n) eqn:Hn.
    - rewrite unlink_node_eq, Hn. apply Ht.
    - apply shallow_unlink; assumption. }
  apply in_app_or in Hx as [Hx|Hx]; [|auto].
  clear IHns. revert x Hx.
  induction n as [d|d|t a cs IHcs] using node_induction; intros x Hx;
    cbn [unlink_node] in Hx; destruct (p _) eqn:Hn; try destruct Hx.
  cbn [children] in Hx.
  induction cs as [|c cs IH]; [destruct Hx|].
  inversion IHcs as [|c' cs' Hc Hcs]; subst.
  cbn [List.map] in Hx. rewrite descendants_cons in Hx.
  destruct Hx as [<-|Hx].
  { destruct (p c) eqn:Hpc.
    - rewrite unlink_node_eq, Hpc. apply Ht.
    - apply shallow_unlink; assumption. }
  apply in_app_or in Hx as [Hx|Hx]; auto.
  apply IH; auto.
  rewrite (Hp t a cs (c :: cs)). assumption.
Qed.

Lemma unlink_same p :
  forall ns, (forall x, In x (descendants ns) -> p x = false) ->
  List.map (unlink_node p) ns = ns.
Proof.
  intros ns. induction ns as [|n ns IHns]; intros H; [reflexivity|].
  rewrite descendants_cons in H. cbn [List.map].
  rewrite IHns by (intros x Hx; apply H; right; apply in_or_app; auto).
  f_equal.
  assert (Hn : p n = false) by (apply H; left; reflexivity).
  assert (Hd : forall x, In x (descendants (children n)) -> p x = false)
    by (intros x Hx; apply H; right; apply in_or_app; auto).
  clear -Hn Hd. revert Hn Hd.
  induction n as [d|d|t a cs IHcs] using node_induction; intros Hn Hd;
    cbn [unlink_node]; rewrite Hn; try reflexivity.
  f_equal. cbn [children] in Hd. clear Hn.
  induction cs as [|c cs IH]; [reflexivity|].
  inversion IHcs as [|c' cs' Hc Hcs]; subst.
  rewrite descendants_cons in Hd. cbn [List.map].
  rewrite Hc, IH; auto.
  - intros x Hx. apply Hd. right. apply in_or_app; auto.
  - apply Hd. left; reflexivity.
  - intros x Hx. apply Hd. right. apply in_or_app; auto.
Qed.

Lemma unlink_descendants_same p el :
  (forall x, In x (descendants (children el)) -> p x = false) ->
  unlink_descendants p el = el.
Proof.
  intros H. destruct el as [d|d|t a cs]; try reflexivity.
  cbn [unlink_descendants]. rewrite unlink_same; auto.
Qed.

(** *** The referenced footnotes *)

Lemma first_occurrences_In l x :
  In x (first_occurrences l) <-> In x l.
Proof.
  induction l as [|y l IH]; simpl; [tauto|].
  rewrite filter_In, IH. split.
  - intros [H|[H _]]; auto.
  - intros [H|H]; [auto|].
    destruct (str_eqb y x) eqn:Hy.
    + apply str_eqb_eq in Hy. auto.
    + right. auto.
Qed.

Lemma first_occurrences_NoDup l : NoDup (first_occurrences l).
Proof.
  induction l as [|y l IH]; simpl; constructor.
  - rewrite filter_In. intros [_ H]. rewrite str_eqb_refl in H.
    discriminate.
  - apply NoDup_filter. assumption.
Qed.

Lemma filter_filter_ext (f g h : jsstring -> bool) l :
  (forall x, f x && g x = h x) ->
  filter f (filter g l) = filter h l.
Proof.
  intros H. induction l as [|x l IH]; simpl; [reflexivity|].
  rewrite <- H. destruct (g x); simpl.
  - rewrite andb_true_r. destruct (f x); rewrite IH; reflexivity.
  - rewrite andb_false_r. exact IH.
Qed.

Lemma fold_push_new l : forall acc,
  fold_left Rev3.push_new l acc
  = acc ++ filter (fun y => negb (existsb (str_eqb y) acc))
             (first_occurrences l).
Proof.
  induction l as [|x l IH]; intros acc; simpl.
  - rewrite app_nil_r. reflexivity.
  - rewrite IH. unfold Rev3.push_new.
    destruct (existsb (str_eqb x) acc) eqn:Hx; cbn [negb].
    + f_equal. symmetry. apply filter_filter_ext. intros y.
      destruct (existsb (str_eqb y) acc) eqn:Hy; [reflexivity|].
      destruct (str_eqb x y) eqn:Hxy; [|reflexivity].
      apply str_eqb_eq in Hxy. subst. congruence.
    + rewrite <- app_assoc. f_equal. cbn [app]. f_equal.
      symmetry. apply filter_filter_ext. intros y.
      rewrite existsb_app. cbn [existsb]. rewrite orb_false_r.
      rewrite negb_orb.
      assert (str_eqb y x = str_eqb x y) as ->.
      { destruct (str_eqb x y) eqn:Hxy.
        - apply str_eqb_eq in Hxy. subst. apply str_eqb_refl.
        - apply str_eqb_neq. apply str_eqb_neq in Hxy. congruence. }
      reflexivity.
Qed.

Lemma fold_flat_map (A B C : Type) (f : C -> B -> C) (g : A -> list B) l :
  forall acc,
  fold_left f (flat_map g l) acc
  = fold_left (fun acc x => fold_left f (g x) acc) l acc.
Proof.
  induction l as [|x l IH]; intros acc; simpl; [reflexivity|].
  rewrite fold_left_app. apply IH.
Qed.

Lemma note_refs_push fm el ids :
  Rev3.note_refs fm ids el
  = fold_left Rev3.push_new
      (flat_map (fun a => match Rev3.footnote_ref fm a with
                          | Some refId => [refId]
                          | None => []
                          end)
         (querySelectorAll Rev3.fragment_link el)) ids.
Proof.
  unfold Rev3.note_refs. revert ids.
  induction (querySelectorAll Rev3.fragment_link el) as [|a l IH];
    intros ids; simpl; [reflexivity|].
  rewrite fold_left_app, IH.
  destruct (Rev3.footnote_ref fm a); reflexivity.
Qed.

Lemma fold_push_new_nil l :
  fold_left Rev3.push_new l [] = first_occurrences l.
Proof.
  rewrite fold_push_new. cbn [app existsb negb].
  induction (first_occurrences l) as [|x fo IH]; simpl; congruence.
Qed.

(** The referenced footnotes: each once, where it is first referred to. *)
Lemma referenced_ids_first fm els :
  Rev3.referenced_ids fm els = first_occurrences (all_refs fm els).
Proof.
  unfold Rev3.referenced_ids, all_refs.
  rewrite <- fold_push_new_nil, fold_flat_map.
  assert (H : forall acc,
            fold_left (Rev3.note_refs fm) els acc
            = fold_left
                (fun acc el =>
                   fold_left Rev3.push_new
                     (flat_map
                        (fun a => match Rev3.footnote_ref fm a with
                                  | Some refId => [refId]
                                  | None => []
                                  end)
                        (querySelectorAll Rev3.fragment_link el)) acc)
                els acc).
  { induction els as [|el0 els IH]; intros acc; simpl; [reflexivity|].
    rewrite note_refs_push. apply IH. }
  apply H.
Qed.


(** *** The number of a footnote *)

Lemma re_trailing_digits_shape :
  re_trailing_digits = Cat (Grp 1 (Rep false 1 cls_d)) (Cat Eol Eps).
Proof. reflexivity. Qed.

Lemma rmatch_trailing_inv s pos st :
  rmatch false re_trailing_digits (MState pos s []) Some = Some st ->
  s <> [] /\ forallb is_digit s = true.
Proof.
  intros H. apply rmatch_sound in H as (st' & H & _).
  rewrite re_trailing_digits_shape in H.
  inversion H as [| | | | |r1 r2 s0 s1 s2 H1 H2| | | |]; subst. clear H.
  inversion H2 as [| | | | |r1 r2 s0 s3 s4 H3 H4| | | |]; subst. clear H2.
  inversion H4; subst. clear H4.
  inversion H3 as [| | | |s0 Hend| | | | |]; subst. clear H3.
  inversion H1 as [| | | | | | | |n r s0 sa Ha|]; subst. clear H1.
  inversion Ha as [| | | | | | | | |lz mn p s0 run tl Hr Hrun Hmin]; subst.
  clear Ha. simpl in *. subst tl. rewrite app_nil_r in Hr. subst s.
  split; [|exact Hrun]. destruct run; simpl in *; [lia|discriminate].
Qed.

(** [id.match(/(\d+)$/)] captures the digits an identifier ends with. *)
Lemma trailing_digits_match pre ds :
  ds <> [] -> forallb is_digit ds = true ->
  (forall u c, pre = u ++ [c] -> is_digit c = false) ->
  exists m,
    str_match false re_trailing_digits (pre ++ ds) = Some m /\
    m_group m 1 = Some ds.
Proof.
  intros Hne Hds Hpre. unfold str_match.
  assert (Hm : rmatch false re_trailing_digits
                 (MState (0 + List.length pre) ds []) Some
               = Some (MState (0 + List.length pre + List.length ds) []
                         [(1%nat, ds)])).
  { rewrite re_trailing_digits_shape. cbn [rmatch ms_pos ms_rest ms_caps].
    change cls_d with is_digit.
    apply rep_greedy_max.
    - rewrite (forallb_span _ _ Hds). cbn [fst].
      destruct ds; [congruence|simpl; lia].
    - rewrite (forallb_span _ _ Hds). cbn [fst snd ms_pos ms_rest ms_caps].
      rewrite <- (app_nil_r ds) at 3. rewrite firstn_consumed.
      reflexivity. }
  assert (Hno : forall pre' suf', pre ++ ds = pre' ++ suf' ->
            (List.length pre' < List.length pre)%nat ->
            rmatch false re_trailing_digits
              (MState (0 + List.length pre') suf' []) Some = None).
  { intros pre' suf' Heq Hl.
    destruct (rmatch false re_trailing_digits
                (MState (0 + List.length pre') suf' []) Some) eqn:Hm';
      [|reflexivity].
    apply rmatch_trailing_inv in Hm' as [_ Hd].
    destruct (app_eq_app_shorter _ _ _ _ Heq Hl) as (e & He & -> & ->).
    destruct (exists_last He) as (u & c & ->).
    rewrite !forallb_app in Hd. simpl in Hd.
    rewrite (Hpre (pre' ++ u) c) in Hd
      by (rewrite app_assoc; reflexivity).
    rewrite andb_false_r in Hd. discriminate. }
  rewrite (exec_from_first false re_trailing_digits pre ds _ 0%nat Hno Hm).
  eexists; split; reflexivity.
Qed.

Lemma trailing_digits_none id :
  (id = [] \/ exists u c, id = u ++ [c] /\ is_digit c = false) ->
  str_match false re_trailing_digits id = None.
Proof.
  intros H. unfold str_match. apply exec_from_none. intros pre suf ->.
  destruct (rmatch false re_trailing_digits
              (MState (0 + List.length pre) suf []) Some) eqn:Hm;
    [|reflexivity].
  apply rmatch_trailing_inv in Hm as [Hne Hd].
  destruct H as [H|(u & c & H & Hc)].
  - apply app_eq_nil in H as [_ ->]. congruence.
  - destruct (exists_last Hne) as (v & x & ->).
    rewrite app_assoc in H. apply app_inj_tail in H as [_ ->].
    rewrite forallb_app in Hd. simpl in Hd.
    rewrite Hc, andb_false_r in Hd. discriminate.
Qed.

(** *** The footnote index *)

Lemma lookup_attr_head k v o key :
  lookup_attr key ((k, v) :: o)
  = if str_eqb key k then Some v else lookup_attr key o.
Proof. reflexivity. Qed.

Lemma add_footnote_other q li o id :
  id <> [] -> getAttribute "id" li <> Some id ->
  lookup_attr id (Rev3.add_footnote q o li) = lookup_attr id o.
Proof.
  intros Hne Hli. unfold Rev3.add_footnote, Rev3.obj_set.
  destruct (is_empty (or_empty (getAttribute "id" li))) eqn:He;
    [reflexivity|].
  destruct (str_eqb (or_empty (getAttribute "id" li)) (js "__proto__"));
    [reflexivity|].
  rewrite lookup_attr_head.
  destruct (str_eqb id (or_empty (getAttribute "id" li))) eqn:Hid;
    [|reflexivity].
  apply str_eqb_eq in Hid. exfalso.
  destruct (getAttribute "id" li) as [v|]; cbn [or_empty] in Hid.
  - apply Hli. rewrite Hid. reflexivity.
  - apply Hne. exact Hid.
Qed.

Lemma fold_add_footnote_other q items id : forall o,
  id <> [] ->
  (forall li, In li items -> getAttribute "id" li <> Some id) ->
  lookup_attr id (fold_left (Rev3.add_footnote q) items o) = lookup_attr id o.
Proof.
  induction items as [|li items IH]; intros o Hne Hno; simpl; [reflexivity|].
  rewrite IH; [|assumption|intros li' H'; apply Hno; right; assumption].
  apply add_footnote_other; [assumption|].
  apply Hno. left; reflexivity.
Qed.

(** The index maps an identifier to the body of the last footnote item
    that has it. *)
Lemma footnote_index_lookup q items1 li items2 id o :
  getAttribute "id" li = Some id -> id <> [] -> id <> js "__proto__" ->
  (forall li', In li' items2 -> getAttribute "id" li' <> Some id) ->
  lookup_attr id
    (fold_left (Rev3.add_footnote q) (items1 ++ li :: items2) o)
  = Some (Rev3.footnote_body q li).
Proof.
  intros Hid Hne Hproto Hno.
  rewrite fold_left_app. cbn [fold_left].
  rewrite fold_add_footnote_other by assumption.
  unfold Rev3.add_footnote, Rev3.obj_set. rewrite Hid. cbn [or_empty].
  apply is_empty_false in Hne. rewrite Hne.
  apply str_eqb_neq in Hproto. rewrite Hproto.
  rewrite lookup_attr_head, str_eqb_refl. reflexivity.
Qed.

Lemma shallow_footnote_ref fm : shallow (Rev3.is_footnote_ref fm).
Proof. intros t a cs cs'. reflexivity. Qed.

(** An anchor is a footnote reference when its href is "#" and the
    identifier of an entry of the index that holds a body. *)
Lemma is_footnote_ref_iff fm a :
  Rev3.is_footnote_ref fm a = true <->
  has_tag "a" a = true /\
  exists id, getAttribute "href" a = Some (35%N :: id) /\ id <> [] /\
             Rev3.truthy (Rev3.obj_get fm id) = true.
Proof.
  unfold Rev3.is_footnote_ref, Rev3.fragment_link, Rev3.footnote_ref,
    attr_starts, link_href.
  destruct (has_tag "a" a); cbn [andb]; [|split; [discriminate|tauto]].
  destruct (getAttribute "href" a) as [[|c href]|]; cbn [or_empty].
  - split; [discriminate|]. intros (_ & id & H & _). discriminate.
  - change (js "#") with [35%N]. cbn [startsWith].
    destruct (35 =? c)%N eqn:Hc; cbn [andb tl].
    + apply N.eqb_eq in Hc. subst c.
      destruct (negb (is_empty href) && Rev3.truthy (Rev3.obj_get fm href))
        eqn:Hr.
      * apply andb_true_iff in Hr as [Hr1 Hr2].
        apply negb_true_iff, is_empty_false in Hr1.
        split; [|reflexivity]. intros _. split; [reflexivity|].
        exists href. auto.
      * split; [discriminate|]. intros (_ & id & H & Hne & Ht).
        injection H as <-. apply is_empty_false in Hne.
        rewrite Hne, Ht in Hr. discriminate.
    + split; [discriminate|]. intros (_ & id & H & _).
      injection H as H _. subst c. discriminate.
  - split; [discriminate|]. intros (_ & id & H & _). discriminate.
Qed.

Section Footnotes.
Context {E : Engine}.

(** Without a reference below the commentary elements the footnote pass
    changes nothing. *)
Lemma with_footnotes_no_refs fm els :
  (forall el x, In el els -> In x (descendants (children el)) ->
                Rev3.is_footnote_ref fm x = false) ->
  Rev3.with_footnotes fm els = els.
Proof.
  intros Hno. unfold Rev3.with_footnotes.
  assert (Hr : Rev3.referenced_ids fm els = []).
  { rewrite referenced_ids_first. unfold all_refs.
    assert (Ha : flat_map
              (fun el0 =>
                 flat_map
                   (fun a => match Rev3.footnote_ref fm a with
                             | Some refId => [refId]
                             | None => []
                             end)
                   (querySelectorAll Rev3.fragment_link el0)) els = []).
    { induction els as [|e els IH]; [reflexivity|]. cbn [flat_map].
      rewrite IH by (intros el0 x H1 H2; apply (Hno el0 x); auto;
                     right; assumption).
      rewrite app_nil_r. unfold querySelectorAll.
      assert (He : forall x, In x (descendants (children e)) ->
                             Rev3.is_footnote_ref fm x = false)
        by (intros x Hx; apply (Hno e x); auto; left; reflexivity).
      induction (descendants (children e)) as [|x l IHl]; [reflexivity|].
      cbn [filter].
      pose proof (He x (or_introl eq_refl)) as Hx.
      unfold Rev3.is_footnote_ref in Hx.
      destruct (Rev3.fragment_link x); cbn [flat_map andb] in *.
      - destruct (Rev3.footnote_ref fm x); [discriminate|].
        apply IHl. intros y Hy. apply He. right; assumption.
      - apply IHl. intros y Hy. apply He. right; assumption. }
    rewrite Ha. reflexivity. }
  rewrite Hr, app_nil_r. clear Hr.
  induction els as [|e els IH]; [reflexivity|]. cbn [List.map].
  rewrite unlink_descendants_same.
  - rewrite IH; [reflexivity|].
    intros el0 x H1 H2. apply (Hno el0 x); [right|]; assumption.
  - intros x Hx. apply (Hno e x); [left; reflexivity|assumption].
Qed.

End Footnotes.


Section Commentary.
Context {E : Engine}.

(** C3, as amended.  In the later revisions the element with the
    difficulty line is no commentary, so no anchor of it reaches the
    commentary.  The commentary elements are the clones of the content
    elements from the commentary start on that have text without the
    label and are not empty after the removal.  From a clone exactly the
    descendant anchors with a non-empty href in the exclusion set are
    removed; a clone without such an anchor is its element unchanged.  The
    exclusion set holds the hrefs of all anchors of the difficulty element
    when no element before it has a recognized link, and nothing
    otherwise.  The commentary starts after the first element, from the
    first labelled one on, that has an anchor with a YouTube or GDBrowser
    href, so that element is left out with its links.  In
    src/dataParser.ts every descendant anchor with a YouTube or GDBrowser
    href is removed from every clone. *)
Theorem commentary_anchor_removal (h3 : located) (nextH3 : option path)
    (d : number) (i : nat) :
  find_difficulty 0 (Rev2.section_content h3 nextH3) = Normal (Some (d, i)) ->
  (exists difficultyElement,
     nth_error (Rev2.section_content h3 nextH3) i = Some difficultyElement /\
     is_commentary difficultyElement = false /\
     forall h,
       set_has (excludedHrefs
                  (scan_links i 0 (Rev2.section_content h3 nextH3) no_links))
         h = true <->
       h <> [] /\
       (forall e, In e (firstn i (Rev2.section_content h3 nextH3)) ->
                  has_recognized_link e = false) /\
       exists a, In a (anchors difficultyElement) /\ link_href a = h) /\
  (forall c,
     In c (Rev2.commentary_elements (Rev2.section_content h3 nextH3) i) <->
     exists j element,
       (commentary_start (Rev2.section_content h3 nextH3) <= j)%nat /\
       nth_error (Rev2.section_content h3 nextH3) j = Some element /\
       is_commentary element = true /\
       c = remove_descendants
             (Rev2.excluded_anchor
                (excludedHrefs
                   (scan_links i 0 (Rev2.section_content h3 nextH3)
                      no_links))) element /\
       has_content c = true) /\
  (forall excluded element,
     (forall x,
        In x (descendants
                (children (remove_descendants
                             (Rev2.excluded_anchor excluded) element))) ->
        Rev2.excluded_anchor excluded x = false) /\
     ((forall x, In x (descendants (children element)) ->
                 Rev2.excluded_anchor excluded x = false) ->
      remove_descendants (Rev2.excluded_anchor excluded) element = element))
  /\
  (forall pre e_w post,
     Rev2.section_content h3 nextH3 = pre ++ e_w :: post ->
     (forall e, In e pre -> has_label (textContent e) = false) ->
     has_label (textContent e_w) = true ->
     ((forall e, In e (e_w :: post) -> has_category_href e = false) ->
      commentary_start (Rev2.section_content h3 nextH3)
      = S (List.length pre)) /\
     (forall mid e_l post',
        e_w :: post = mid ++ e_l :: post' ->
        (forall e, In e mid -> has_category_href e = false) ->
        has_category_href e_l = true ->
        commentary_start (Rev2.section_content h3 nextH3)
        = S (List.length pre + List.length mid))) /\
  (forall doc,
     (forall element x,
        In element
          (Rev2.commentary_elements (Rev2.section_content h3 nextH3) i) ->
        In x (descendants (children element)) ->
        Rev3.is_footnote_ref (Rev3.collect_footnotes doc) x = false) ->
     exists l,
       Rev3.process_h3 doc h3 nextH3 = Normal (Some l) /\
       Rev2.commentary l =
       join_outerHTML
         (Rev2.commentary_elements (Rev2.section_content h3 nextH3) i)) /\
  (forall c,
     In c (Rev1.collect_commentary
             (skipn (commentary_start (Rev1.section_content h3 nextH3))
                (Rev1.section_content h3 nextH3))) <->
     exists j element,
       (commentary_start (Rev1.section_content h3 nextH3) <= j)%nat /\
       nth_error (Rev1.section_content h3 nextH3) j = Some element /\
       is_commentary element = true /\
       c = remove_descendants Rev1.category_anchor element /\
       has_content c = true) /\
  (forall element x,
     In x (descendants
             (children (remove_descendants Rev1.category_anchor element))) ->
     Rev1.category_anchor x = false).
Proof.
  intros Hf.
  split; [|split; [|split; [|split; [|split; [|split]]]]].
  - destruct (difficulty_element_no_commentary _ _ _ Hf)
      as (de & Hn & _ & Hc).
    exists de. split; [exact Hn|]. split; [exact Hc|].
    intros h.
    rewrite (scan_excluded_spec i h _ 0 no_links eq_refl eq_refl).
    rewrite Nat.sub_0_r, Hn. split.
    + intros (_ & Hh & Hpre & el0 & a & Hs & Ha & Heq).
      injection Hs as <-. split; [exact Hh|]. split; [exact Hpre|].
      exists a. auto.
    + intros (Hh & Hpre & a & Ha & Heq).
      split; [lia|]. split; [exact Hh|]. split; [exact Hpre|].
      exists de, a. auto.
  - intros c. unfold Rev2.commentary_elements.
    rewrite rev2_collect_no_heading.
    + rewrite in_commentary_clones. split.
      * intros (el0 & Hin & Hc & Heq & Hh).
        apply In_skipn in Hin as (j & Hj & Hn).
        exists j, el0. auto.
      * intros (j & el0 & Hj & Hn & Hc & Heq & Hh).
        exists el0. split; [|auto].
        apply In_skipn. exists j. auto.
    + intros n Hn. apply (rev2_content_no_heading h3 nextH3).
      apply In_skipn in Hn as (j & _ & Hj).
      apply nth_error_In in Hj. exact Hj.
  - intros excluded element. split.
    + apply remove_descendants_none. apply shallow_excluded_anchor.
    + apply remove_descendants_same.
  - intros pre e_w post Hc Hpre Hw. rewrite Hc.
    apply commentary_start_spec; assumption.
  - intros doc Hno.
    destruct (rev3_process_h3_cases doc h3 nextH3)
      as (n & a & _ & [[Hn _]|(d' & i' & Hf' & ->)]); cbv zeta in *.
    + rewrite Hf in Hn. discriminate.
    + rewrite Hf in Hf'. injection Hf' as <- <-.
      eexists. split; [reflexivity|]. cbn [Rev2.commentary].
      rewrite with_footnotes_no_refs; [reflexivity|exact Hno].
  - intros c. unfold Rev1.collect_commentary.
    rewrite in_commentary_clones. split.
    + intros (el0 & Hin & Hc & Heq & Hh).
      apply In_skipn in Hin as (j & Hj & Hn).
      exists j, el0. auto.
    + intros (j & el0 & Hj & Hn & Hc & Heq & Hh).
      exists el0. split; [|auto].
      apply In_skipn. exists j. auto.
  - intros element. apply remove_descendants_none.
    apply shallow_category_anchor.
Qed.

End Commentary.


Section FootnoteClaim.
Context {E : Engine}.

Lemma join_outerHTML_app a b :
  join_outerHTML (a ++ b) = join_outerHTML a ++ join_outerHTML b.
Proof. unfold join_outerHTML. apply flat_map_app. Qed.

Lemma parseInt_toString_small big ds :
  (digits_value ds <= 2 ^ 53)%N ->
  parseInt_toString big ds = N_to_string (digits_value ds).
Proof.
  intros H. unfold parseInt_toString.
  apply N.leb_le in H. rewrite H. reflexivity.
Qed.

(** C7, as amended.  A descendant anchor of a commentary element is a
    footnote reference when its href is "#" and an identifier for which
    the index holds a body that is not empty (or that names a property a
    plain object inherits).  Every such anchor is replaced by a text node
    with its text; the text of the element stays and no reference is left
    below it.  The referenced identifiers are kept once each, where first
    referred to.  When there is one, a div that holds an ordered list is
    appended, so the commentary ends with its markup: one item for each
    referenced identifier, in that order, holding what the engine parses
    from the body of the index, with a value attribute that is the number
    the identifier ends with.  An identifier of the index maps to the
    stripped body of the last footnote item that has it. *)
Theorem footnotes_resolved (doc : document) (commentaryElements : list node) :
  (forall a,
     Rev3.is_footnote_ref (Rev3.collect_footnotes doc) a = true <->
     has_tag "a" a = true /\
     exists id, getAttribute "href" a = Some (35%N :: id) /\ id <> [] /\
                Rev3.truthy (Rev3.obj_get (Rev3.collect_footnotes doc) id)
                = true) /\
  (forall a,
     Rev3.is_footnote_ref (Rev3.collect_footnotes doc) a = true ->
     unlink_node (Rev3.is_footnote_ref (Rev3.collect_footnotes doc)) a
     = Text (textContent a)) /\
  (forall element,
     textContent
       (unlink_descendants
          (Rev3.is_footnote_ref (Rev3.collect_footnotes doc)) element)
     = textContent element /\
     forall x,
       In x (descendants
               (children
                  (unlink_descendants
                     (Rev3.is_footnote_ref (Rev3.collect_footnotes doc))
                     element))) ->
       Rev3.is_footnote_ref (Rev3.collect_footnotes doc) x = false) /\
  (Rev3.referenced_ids (Rev3.collect_footnotes doc) commentaryElements
   = first_occurrences
       (all_refs (Rev3.collect_footnotes doc) commentaryElements) /\
   NoDup (Rev3.referenced_ids (Rev3.collect_footnotes doc)
            commentaryElements) /\
   forall id,
     In id (Rev3.referenced_ids (Rev3.collect_footnotes doc)
              commentaryElements) <->
     In id (all_refs (Rev3.collect_footnotes doc) commentaryElements)) /\
  (Rev3.referenced_ids (Rev3.collect_footnotes doc) commentaryElements <> []
   ->
   Rev3.with_footnotes (Rev3.collect_footnotes doc) commentaryElements
   = List.map
       (unlink_descendants
          (Rev3.is_footnote_ref (Rev3.collect_footnotes doc)))
       commentaryElements
     ++ [Element (js "div") [(js "class", js "commentary-footnotes")]
           [Element (js "ol") []
              (List.map (Rev3.footnote_li (Rev3.collect_footnotes doc))
                 (Rev3.referenced_ids (Rev3.collect_footnotes doc)
                    commentaryElements))]] /\
   exists html,
     join_outerHTML
       (Rev3.with_footnotes (Rev3.collect_footnotes doc) commentaryElements)
     = html
       ++ outerHTML
            (Element (js "div") [(js "class", js "commentary-footnotes")]
               [Element (js "ol") []
                  (List.map (Rev3.footnote_li (Rev3.collect_footnotes doc))
                     (Rev3.referenced_ids (Rev3.collect_footnotes doc)
                        commentaryElements))])) /\
  (forall pre ds,
     ds <> [] -> forallb is_digit ds = true ->
     (forall u c, pre = u ++ [c] -> is_digit c = false) ->
     Rev3.footnote_li (Rev3.collect_footnotes doc) (pre ++ ds)
     = Element (js "li")
         [(js "value", parseInt_toString big_number_string ds)]
         (parse_fragment
            (Rev3.footnote_html (Rev3.collect_footnotes doc) (pre ++ ds))) /\
     ((digits_value ds <= 2 ^ 53)%N ->
      parseInt_toString big_number_string ds
      = N_to_string (digits_value ds))) /\
  (forall id,
     (id = [] \/ exists u c, id = u ++ [c] /\ is_digit c = false) ->
     Rev3.footnote_li (Rev3.collect_footnotes doc) id
     = Element (js "li") []
         (parse_fragment
            (Rev3.footnote_html (Rev3.collect_footnotes doc) id))) /\
  (forall footnotesSection items1 li items2 id,
     doc_querySelector (Rev3.footnotes_selector (doc_quirks doc)) doc
     = Some footnotesSection ->
     Rev3.footnote_items footnotesSection = items1 ++ li :: items2 ->
     getAttribute "id" li = Some id -> id <> [] -> id <> js "__proto__" ->
     (forall li', In li' items2 -> getAttribute "id" li' <> Some id) ->
     Rev3.obj_get (Rev3.collect_footnotes doc) id
     = Some (Rev3.VString (Rev3.footnote_body (doc_quirks doc) li)) /\
     Rev3.footnote_html (Rev3.collect_footnotes doc) id
     = Rev3.footnote_body (doc_quirks doc) li /\
     (Rev3.truthy (Rev3.obj_get (Rev3.collect_footnotes doc) id) = true <->
      Rev3.footnote_body (doc_quirks doc) li <> [])) /\
  (forall h3 nextH3 l,
     Rev3.process_h3 doc h3 nextH3 = Normal (Some l) ->
     exists d i,
       find_difficulty 0 (Rev2.section_content h3 nextH3)
       = Normal (Some (d, i)) /\
       Rev2.commentary l =
       join_outerHTML
         (Rev3.with_footnotes (Rev3.collect_footnotes doc)
            (Rev2.commentary_elements (Rev2.section_content h3 nextH3) i))).
Proof.
  set (fm := Rev3.collect_footnotes doc).
  split; [|split; [|split; [|split; [|split; [|split; [|split;
    [|split]]]]]]].
  - intros a. apply is_footnote_ref_iff.
  - intros a Ha. rewrite unlink_node_eq, Ha. reflexivity.
  - intros element. split; [apply unlink_descendants_text|].
    intros x. destruct element as [dd|dd|t a cs]; try (intros []).
    cbn [unlink_descendants children].
    apply unlink_none; [apply shallow_footnote_ref|reflexivity].
  - rewrite referenced_ids_first.
    split; [reflexivity|]. split; [apply first_occurrences_NoDup|].
    intros id. apply first_occurrences_In.
  - intros Hne. unfold Rev3.with_footnotes, Rev3.footnotes_wrapper.
    destruct (Rev3.referenced_ids fm commentaryElements) eqn:Hr;
      [congruence|].
    split; [reflexivity|].
    eexists. rewrite join_outerHTML_app. unfold join_outerHTML at 2.
    cbn [flat_map]. rewrite app_nil_r. reflexivity.
  - intros pre ds Hne Hds Hpre. split.
    + unfold Rev3.footnote_li.
      destruct (trailing_digits_match pre ds Hne Hds Hpre) as (m & -> & ->).
      reflexivity.
    + apply parseInt_toString_small.
  - intros id Hid. unfold Rev3.footnote_li.
    rewrite (trailing_digits_none id Hid). reflexivity.
  - intros sec items1 li items2 id Hsec Hitems Hid Hne Hproto Hlast.
    assert (Hl : lookup_attr id fm
                 = Some (Rev3.footnote_body (doc_quirks doc) li)).
    { unfold fm, Rev3.collect_footnotes. rewrite Hsec, Hitems.
      apply footnote_index_lookup; assumption. }
    unfold Rev3.footnote_html, Rev3.obj_get. rewrite Hl.
    split; [reflexivity|]. split; [reflexivity|].
    cbn [Rev3.truthy]. rewrite negb_true_iff. apply is_empty_false.
  - intros h3 nextH3 l Hp.
    destruct (rev3_process_h3_cases doc h3 nextH3)
      as (n & a & _ & [[_ H]|(d & i & Hf & H)]); [congruence|].
    rewrite H in Hp. injection Hp as <-. exists d, i.
    split; [exact Hf|reflexivity].
Qed.

End FootnoteClaim.

(** ** The order of the levels *)

Lemma levels_loop_indexed A (process : located -> option path ->
                                       completion (option A)) d :
  forall hs pre levels,
  levels_loop process hs = Normal levels ->
  levels =
  flat_map
    (fun i => pushed (process (nth i (pre ++ hs) d)
                        (option_map loc_path (nth_error (pre ++ hs) (S i)))))
    (seq (List.length pre) (List.length hs)).
Proof.
  induction hs as [|h hs IH]; intros pre levels H; simpl in H.
  - injection H as <-. reflexivity.
  - destruct (process h (option_map loc_path (hd_error hs))) as [r|] eqn:Hr;
      [|discriminate].
    destruct (levels_loop process hs) as [ls|] eqn:Hl; [|discriminate].
    simpl in H. injection H as <-.
    cbn [List.length seq flat_map].
    rewrite app_nth2 by lia. rewrite Nat.sub_diag. cbn [nth].
    assert (Hn : nth_error (pre ++ h :: hs) (S (List.length pre))
                 = hd_error hs).
    { rewrite nth_error_app2 by lia.
      replace (S (List.length pre) - List.length pre)%nat with 1%nat by lia.
      destruct hs; reflexivity. }
    rewrite Hn, Hr.
    specialize (IH (pre ++ [h]) ls eq_refl).
    rewrite <- app_assoc in IH. cbn [app] in IH.
    rewrite length_app in IH. cbn [List.length] in IH.
    rewrite Nat.add_1_r in IH. rewrite <- IH.
    destruct r; reflexivity.
Qed.

Lemma filter_seq_sorted (f : nat -> bool) : forall n a,
  StronglySorted lt (filter f (seq a n)).
Proof.
  induction n as [|n IH]; intros a; simpl; [constructor|].
  destruct (f a).
  - constructor; [apply IH|].
    apply Forall_forall. intros x Hx.
    apply filter_In in Hx as [Hx _]. apply in_seq in Hx. lia.
  - apply IH.
Qed.

Lemma flat_map_pushed_Forall2 A (g : nat -> completion (option A)) :
  (forall i, exists r, g i = Normal r) ->
  forall l,
  Forall2 (fun i lv => g i = Normal (Some lv))
    (filter (fun i => match g i with Normal (Some _) => true | _ => false end)
       l)
    (flat_map (fun i => pushed (g i)) l).
Proof.
  intros Hg. induction l as [|i l IH]; simpl; [constructor|].
  destruct (Hg i) as [[lv|] Hi]; rewrite Hi; simpl; [|exact IH].
  constructor; assumption.
Qed.

Lemma flat_map_pushed_length A (g : nat -> completion (option A)) l :
  (List.length (flat_map (fun i => pushed (g i)) l) <= List.length l)%nat.
Proof.
  induction l as [|i l IH]; simpl; [lia|].
  rewrite length_app.
  assert (List.length (pushed (g i)) <= 1)%nat
    by (destruct (g i) as [[?|]|]; simpl; lia).
  lia.
Qed.

Section Order.
Context {E : Engine}.

(** X1.  In both revisions the levels stand in the order of their headings:
    they are pushed by the steps of a strictly increasing sequence of
    headings, one each, and the step of every other heading pushes
    nothing.  So there are at most as many levels as headings. *)
Theorem levels_in_heading_order (r : response) :
  ok r = true ->
  (exists levels idxs,
     Rev3.fetchAndParseLevelData r = Normal levels /\
     StronglySorted lt idxs /\
     (forall i, In i idxs ->
        (i < List.length (h3Elements (parsed r)))%nat) /\
     Forall2 (fun i l =>
                Rev3.process_h3 (parsed r) (h3_at (parsed r) i)
                  (h3_after (parsed r) i) = Normal (Some l)) idxs levels /\
     (forall i, (i < List.length (h3Elements (parsed r)))%nat ->
        In i idxs \/
        Rev3.process_h3 (parsed r) (h3_at (parsed r) i)
          (h3_after (parsed r) i) = Normal None) /\
     (List.length levels <= List.length (h3Elements (parsed r)))%nat) /\
  (exists levels idxs,
     Rev1.fetchAndParseLevelData r = Normal levels /\
     StronglySorted lt idxs /\
     (forall i, In i idxs ->
        (i < List.length (h3Elements (parsed r)))%nat) /\
     Forall2 (fun i l =>
                Rev1.process_h3 (h3_at (parsed r) i) (h3_after (parsed r) i)
                = Normal (Some l)) idxs levels /\
     (forall i, (i < List.length (h3Elements (parsed r)))%nat ->
        In i idxs \/
        Rev1.process_h3 (h3_at (parsed r) i) (h3_after (parsed r) i)
        = Normal None) /\
     (List.length levels <= List.length (h3Elements (parsed r)))%nat).
Proof.
  intros Hok.
  assert (G : forall A (process : located -> option path ->
                                  completion (option A)),
            (forall h n, exists x, process h n = Normal x) ->
            exists levels idxs,
              fetch_and_parse process r = Normal levels /\
              StronglySorted lt idxs /\
              (forall i, In i idxs ->
                 (i < List.length (h3Elements (parsed r)))%nat) /\
              Forall2 (fun i l =>
                         process (h3_at (parsed r) i) (h3_after (parsed r) i)
                         = Normal (Some l)) idxs levels /\
              (forall i, (i < List.length (h3Elements (parsed r)))%nat ->
                 In i idxs \/
                 process (h3_at (parsed r) i) (h3_after (parsed r) i)
                 = Normal None) /\
              (List.length levels
               <= List.length (h3Elements (parsed r)))%nat).
  { intros A process Hp.
    unfold fetch_and_parse. rewrite Hok. cbn [negb].
    fold (h3Elements (parsed r)).
    destruct (levels_loop_normal A process (h3Elements (parsed r)) Hp)
      as [levels Hl].
    pose proof (levels_loop_indexed A process (Located [] (Text []) [])
                  _ [] _ Hl) as Hflat.
    cbn [app List.length] in Hflat.
    fold (h3_at (parsed r)) in Hflat.
    set (g := fun i => process (h3_at (parsed r) i) (h3_after (parsed r) i)).
    assert (Hflat' : levels
                     = flat_map (fun i => pushed (g i))
                         (seq 0 (List.length (h3Elements (parsed r))))).
    { rewrite Hflat. reflexivity. }
    exists levels,
      (filter (fun i => match g i with
                        | Normal (Some _) => true
                        | _ => false
                        end)
         (seq 0 (List.length (h3Elements (parsed r))))).
    split; [exact Hl|]. split; [apply filter_seq_sorted|].
    split.
    { intros i Hi. apply filter_In in Hi as [Hi _].
      apply in_seq in Hi. lia. }
    split.
    { rewrite Hflat'. apply (flat_map_pushed_Forall2 A g).
      intros i. apply Hp. }
    split.
    { intros i Hi. destruct (Hp (h3_at (parsed r) i) (h3_after (parsed r) i))
        as [[l|] Hg].
      - left. apply filter_In. split; [apply in_seq; lia|].
        unfold g. rewrite Hg. reflexivity.
      - right. exact Hg. }
    rewrite Hflat'.
    pose proof (flat_map_pushed_length A g
                  (seq 0 (List.length (h3Elements (parsed r))))) as Hlen.
    rewrite length_seq in Hlen. exact Hlen. }
  split.
  - apply (G _ (Rev3.process_h3 (parsed r))).
    intros h n. apply rev3_process_h3_normal.
  - apply (G _ Rev1.process_h3).
    intros h n. apply rev1_process_h3_normal.
Qed.

End Order.

(** ** The URLs of a level *)

Lemma find_app (A : Type) (p : A -> bool) l1 l2 :
  find p (l1 ++ l2)
  = match find p l1 with Some x => Some x | None => find p l2 end.
Proof.
  induction l1 as [|x l1 IH]; simpl; [reflexivity|].
  destruct (p x); [reflexivity|exact IH].
Qed.

Lemma last_such_cons (A : Type) (p : A -> bool) a l :
  last_such p (a :: l)
  = match last_such p l with
    | Some x => Some x
    | None => if p a then Some a else None
    end.
Proof.
  unfold last_such. simpl. rewrite find_app. simpl.
  destruct (find p (rev l)); [reflexivity|].
  destruct (p a); reflexivity.
Qed.

Lemma last_such_none (A : Type) (p : A -> bool) l :
  existsb p l = false -> last_such p l = None.
Proof.
  induction l as [|a l IH]; intros H; [reflexivity|].
  simpl in H. apply orb_false_iff in H as [Ha Hl].
  rewrite last_such_cons, (IH Hl), Ha. reflexivity.
Qed.

(** A loop that overwrites a variable at every element that satisfies [p]
    ends with the value of the last such element. *)
Lemma fold_overwrite (S A V : Type) (f : S -> A -> S) (proj : S -> option V)
    (p : A -> bool) (h : A -> V) :
  (forall st a, proj (f st a) = if p a then Some (h a) else proj st) ->
  forall l st,
    proj (fold_left f l st)
    = match last_such p l with
      | Some a => Some (h a)
      | None => proj st
      end.
Proof.
  intros Hf. induction l as [|a l IH]; intros st; [reflexivity|].
  cbn [fold_left]. rewrite IH, last_such_cons, Hf.
  destruct (last_such p l); [reflexivity|].
  destruct (p a); reflexivity.
Qed.

Section Urls.
Context {E : Engine}.

Lemma classify_youtube st a :
  youtubeUrl (classify_link st a)
  = if youtube_link a then Some (link_href a) else youtubeUrl st.
Proof.
  unfold classify_link, youtube_link.
  destruct (is_youtube _ _); [reflexivity|].
  destruct (is_gdbrowser _ _); reflexivity.
Qed.

Lemma classify_gdbrowser st a :
  gdBrowserUrl (classify_link st a)
  = if gdbrowser_only a then Some (link_href a) else gdBrowserUrl st.
Proof.
  unfold classify_link, gdbrowser_only.
  destruct (is_youtube _ _); [reflexivity|].
  destruct (is_gdbrowser _ _); reflexivity.
Qed.

Lemma scan_link_youtube b st a :
  youtubeUrl (scan_link b st a)
  = if youtube_link a then Some (link_href a) else youtubeUrl st.
Proof.
  unfold scan_link.
  destruct (b && negb (is_empty (link_href a))); cbn [youtubeUrl];
    apply classify_youtube.
Qed.

Lemma scan_link_gdbrowser b st a :
  gdBrowserUrl (scan_link b st a)
  = if gdbrowser_only a then Some (link_href a) else gdBrowserUrl st.
Proof.
  unfold scan_link.
  destruct (b && negb (is_empty (link_href a))); cbn [gdBrowserUrl];
    apply classify_gdbrowser.
Qed.

Lemma recognized_split a :
  recognized a = youtube_link a || gdbrowser_only a.
Proof.
  unfold recognized, youtube_link, gdbrowser_only.
  destruct (is_youtube _ _); reflexivity.
Qed.

Lemma unrecognized_none (p : node -> bool) links :
  (forall a, p a = true -> recognized a = true) ->
  existsb recognized links = false -> last_such p links = None.
Proof.
  intros Hp H. apply last_such_none.
  induction links as [|a links IH]; [reflexivity|].
  simpl in H. apply orb_false_iff in H as [Ha Hl]. simpl.
  rewrite (IH Hl), orb_false_r.
  destruct (p a) eqn:Hpa; [|reflexivity].
  rewrite (Hp a Hpa) in Ha. discriminate.
Qed.

Lemma youtube_recognized a : youtube_link a = true -> recognized a = true.
Proof. intros H. rewrite recognized_split, H. reflexivity. Qed.

Lemma gdbrowser_recognized a :
  gdbrowser_only a = true -> recognized a = true.
Proof. intros H. rewrite recognized_split, H. apply orb_true_r. Qed.

(** The URLs the link loop ends with, from its state at an element on *)
Lemma scan_links_urls d pre el post : forall idx st,
  linksFound st = false ->
  (forall e, In e pre -> has_recognized_link e = false) ->
  has_recognized_link el = true ->
  youtubeUrl (scan_links d idx (pre ++ el :: post) st)
  = match last_such youtube_link (anchors el) with
    | Some a => Some (link_href a)
    | None => youtubeUrl st
    end /\
  gdBrowserUrl (scan_links d idx (pre ++ el :: post) st)
  = match last_such gdbrowser_only (anchors el) with
    | Some a => Some (link_href a)
    | None => gdBrowserUrl st
    end.
Proof.
  induction pre as [|e pre IH]; intros idx st Hst Hpre Hel;
    cbn [app scan_links].
  - rewrite fold_scan_found, Hst. unfold has_recognized_link in Hel.
    rewrite Hel. cbn [orb]. split.
    + apply (fold_overwrite _ _ _ _ youtubeUrl youtube_link link_href).
      intros; apply scan_link_youtube.
    + apply (fold_overwrite _ _ _ _ gdBrowserUrl gdbrowser_only link_href).
      intros; apply scan_link_gdbrowser.
  - rewrite fold_scan_found, Hst.
    pose proof (Hpre e (or_introl eq_refl)) as He.
    unfold has_recognized_link in He. rewrite He. cbn [orb].
    destruct (IH (S idx)
                (fold_left (scan_link (Nat.eqb idx d)) (anchors e) st))
      as [Hy Hg].
    { rewrite fold_scan_found, Hst, He. reflexivity. }
    { intros e' He'. apply Hpre. right. assumption. }
    { assumption. }
    rewrite Hy, Hg. split.
    + rewrite (fold_overwrite _ _ _ _ youtubeUrl youtube_link link_href)
        by (intros; apply scan_link_youtube).
      rewrite (unrecognized_none youtube_link _ youtube_recognized He).
      reflexivity.
    + rewrite (fold_overwrite _ _ _ _ gdBrowserUrl gdbrowser_only link_href)
        by (intros; apply scan_link_gdbrowser).
      rewrite (unrecognized_none gdbrowser_only _ gdbrowser_recognized He).
      reflexivity.
Qed.

Lemma rev1_scan_links_urls pre el post : forall st,
  linksFound st = false ->
  (forall e, In e pre -> has_recognized_link e = false) ->
  has_recognized_link el = true ->
  youtubeUrl (Rev1.scan_links (pre ++ el :: post) st)
  = match last_such youtube_link (anchors el) with
    | Some a => Some (link_href a)
    | None => youtubeUrl st
    end /\
  gdBrowserUrl (Rev1.scan_links (pre ++ el :: post) st)
  = match last_such gdbrowser_only (anchors el) with
    | Some a => Some (link_href a)
    | None => gdBrowserUrl st
    end.
Proof.
  induction pre as [|e pre IH]; intros st Hst Hpre Hel;
    cbn [app Rev1.scan_links].
  - rewrite fold_classify_found, Hst. unfold has_recognized_link in Hel.
    rewrite Hel. cbn [orb]. split.
    + apply (fold_overwrite _ _ _ _ youtubeUrl youtube_link link_href).
      intros; apply classify_youtube.
    + apply (fold_overwrite _ _ _ _ gdBrowserUrl gdbrowser_only link_href).
      intros; apply classify_gdbrowser.
  - rewrite fold_classify_found, Hst.
    pose proof (Hpre e (or_introl eq_refl)) as He.
    unfold has_recognized_link in He. rewrite He. cbn [orb].
    destruct (IH (fold_left classify_link (anchors e) st)) as [Hy Hg].
    { rewrite fold_classify_found, Hst, He. reflexivity. }
    { intros e' He'. apply Hpre. right. assumption. }
    { assumption. }
    rewrite Hy, Hg. split.
    + rewrite (fold_overwrite _ _ _ _ youtubeUrl youtube_link link_href)
        by (intros; apply classify_youtube).
      rewrite (unrecognized_none youtube_link _ youtube_recognized He).
      reflexivity.
    + rewrite (fold_overwrite _ _ _ _ gdBrowserUrl gdbrowser_only link_href)
        by (intros; apply classify_gdbrowser).
      rewrite (unrecognized_none gdbrowser_only _ gdbrowser_recognized He).
      reflexivity.
Qed.

(** Without a recognized link the loop runs to the end and finds
    nothing. *)
Lemma scan_links_nothing d content : forall idx st,
  linksFound st = false ->
  (forall e, In e content -> has_recognized_link e = false) ->
  youtubeUrl (scan_links d idx content st) = youtubeUrl st /\
  gdBrowserUrl (scan_links d idx content st) = gdBrowserUrl st.
Proof.
  induction content as [|e content IH]; intros idx st Hst Hc;
    cbn [scan_links]; [auto|].
  rewrite fold_scan_found, Hst.
  pose proof (Hc e (or_introl eq_refl)) as He.
  unfold has_recognized_link in He. rewrite He. cbn [orb].
  destruct (IH (S idx)
              (fold_left (scan_link (Nat.eqb idx d)) (anchors e) st))
    as [Hy Hg].
  { rewrite fold_scan_found, Hst, He. reflexivity. }
  { intros e' He'. apply Hc. right. assumption. }
  rewrite Hy, Hg. split.
  - rewrite (fold_overwrite _ _ _ _ youtubeUrl youtube_link link_href)
      by (intros; apply scan_link_youtube).
    rewrite (unrecognized_none youtube_link _ youtube_recognized He).
    reflexivity.
  - rewrite (fold_overwrite _ _ _ _ gdBrowserUrl gdbrowser_only link_href)
      by (intros; apply scan_link_gdbrowser).
    rewrite (unrecognized_none gdbrowser_only _ gdbrowser_recognized He).
    reflexivity.
Qed.

Lemma rev1_scan_links_nothing content : forall st,
  linksFound st = false ->
  (forall e, In e content -> has_recognized_link e = false) ->
  youtubeUrl (Rev1.scan_links content st) = youtubeUrl st /\
  gdBrowserUrl (Rev1.scan_links content st) = gdBrowserUrl st.
Proof.
  induction content as [|e content IH]; intros st Hst Hc;
    cbn [Rev1.scan_links]; [auto|].
  rewrite fold_classify_found, Hst.
  pose proof (Hc e (or_introl eq_refl)) as He.
  unfold has_recognized_link in He. rewrite He. cbn [orb].
  destruct (IH (fold_left classify_link (anchors e) st)) as [Hy Hg].
  { rewrite fold_classify_found, Hst, He. reflexivity. }
  { intros e' He'. apply Hc. right. assumption. }
  rewrite Hy, Hg. split.
  - rewrite (fold_overwrite _ _ _ _ youtubeUrl youtube_link link_href)
      by (intros; apply classify_youtube).
    rewrite (unrecognized_none youtube_link _ youtube_recognized He).
    reflexivity.
  - rewrite (fold_overwrite _ _ _ _ gdBrowserUrl gdbrowser_only link_href)
      by (intros; apply classify_gdbrowser).
    rewrite (unrecognized_none gdbrowser_only _ gdbrowser_recognized He).
    reflexivity.
Qed.

(** X2.  The URLs of a level come from one element, the first content element
    of its section with a recognized link, and within it the last link of
    a kind wins: [youtubeUrl] is the href of its last YouTube link,
    [gdBrowserUrl] the href of its last link that is a GDBrowser link and
    no YouTube link; the href counts as it stands, empty when the anchor
    has none.  A kind without a link there is null, whatever follows. *)
Theorem urls_from_first_link_element (doc : document) (h3 : located)
    (nextH3 : option path) (pre : list node) (el : node)
    (post : list node) :
  (forall e, In e pre -> has_recognized_link e = false) ->
  has_recognized_link el = true ->
  (Rev2.section_content h3 nextH3 = pre ++ el :: post ->
   forall l, Rev3.process_h3 doc h3 nextH3 = Normal (Some l) ->
     Rev2.youtubeUrl l
     = option_map link_href (last_such youtube_link (anchors el)) /\
     Rev2.gdBrowserUrl l
     = option_map link_href (last_such gdbrowser_only (anchors el))) /\
  (Rev1.section_content h3 nextH3 = pre ++ el :: post ->
   forall l, Rev1.process_h3 h3 nextH3 = Normal (Some l) ->
     Rev1.youtubeUrl l
     = option_map link_href (last_such youtube_link (anchors el)) /\
     Rev1.gdBrowserUrl l
     = option_map link_href (last_such gdbrowser_only (anchors el))).
Proof.
  intros Hpre Hel. split.
  - intros Hc l Hl.
    destruct (rev3_process_h3_cases doc h3 nextH3)
      as (n & a & _ & [[_ H]|(d & i & _ & H)]); [congruence|].
    rewrite H in Hl. injection Hl as <-.
    cbn [Rev2.youtubeUrl Rev2.gdBrowserUrl].
    rewrite Hc.
    destruct (scan_links_urls i pre el post 0 no_links eq_refl Hpre Hel)
      as [-> ->].
    destruct (last_such youtube_link (anchors el));
      destruct (last_such gdbrowser_only (anchors el)); split; reflexivity.
  - intros Hc l Hl.
    destruct (rev1_process_h3_cases h3 nextH3)
      as (n & a & _ & [[_ H]|(d & i & _ & H)]); [congruence|].
    rewrite H in Hl. injection Hl as <-.
    cbn [Rev1.youtubeUrl Rev1.gdBrowserUrl].
    rewrite Hc.
    destruct (rev1_scan_links_urls pre el post no_links eq_refl Hpre Hel)
      as [-> ->].
    destruct (last_such youtube_link (anchors el));
      destruct (last_such gdbrowser_only (anchors el)); split; reflexivity.
Qed.

(** X3.  A section none of whose content elements has a recognized link gives
    a level with both URLs null. *)
Theorem no_recognized_link_no_urls (doc : document) (h3 : located)
    (nextH3 : option path) :
  ((forall e, In e (Rev2.section_content h3 nextH3) ->
              has_recognized_link e = false) ->
   forall l, Rev3.process_h3 doc h3 nextH3 = Normal (Some l) ->
     Rev2.youtubeUrl l = None /\ Rev2.gdBrowserUrl l = None) /\
  ((forall e, In e (Rev1.section_content h3 nextH3) ->
              has_recognized_link e = false) ->
   forall l, Rev1.process_h3 h3 nextH3 = Normal (Some l) ->
     Rev1.youtubeUrl l = None /\ Rev1.gdBrowserUrl l = None).
Proof.
  split.
  - intros Hc l Hl.
    destruct (rev3_process_h3_cases doc h3 nextH3)
      as (n & a & _ & [[_ H]|(d & i & _ & H)]); [congruence|].
    rewrite H in Hl. injection Hl as <-.
    cbn [Rev2.youtubeUrl Rev2.gdBrowserUrl].
    apply (scan_links_nothing i _ 0 no_links eq_refl Hc).
  - intros Hc l Hl.
    destruct (rev1_process_h3_cases h3 nextH3)
      as (n & a & _ & [[_ H]|(d & i & _ & H)]); [congruence|].
    rewrite H in Hl. injection Hl as <-.
    cbn [Rev1.youtubeUrl Rev1.gdBrowserUrl].
    apply (rev1_scan_links_nothing _ no_links eq_refl Hc).
Qed.

End Urls.

(** ** Links recognized by their text *)

Lemma startsWith_app (p s : jsstring) : startsWith p (p ++ s) = true.
Proof.
  induction p as [|c p IH]; [destruct s; reflexivity|].
  cbn [app startsWith]. rewrite N.eqb_refl, IH. reflexivity.
Qed.

Lemma includes_app (a s p : jsstring) :
  includes s p = true -> includes (a ++ s) p = true.
Proof.
  intros H. induction a as [|c a IH]; [exact H|].
  cbn [app includes]. rewrite IH. apply orb_true_r.
Qed.

Lemma includes_middle (a p b : jsstring) : includes (a ++ p ++ b) p = true.
Proof.
  apply includes_app. destruct (p ++ b) eqn:H; cbn [includes].
  - destruct p; [reflexivity|discriminate].
  - rewrite <- H, startsWith_app. reflexivity.
Qed.

(** Lower-casing goes code unit by code unit: what a part of the text
    becomes stands in the result, between what the parts around it
    become. *)
Lemma toLowerCase_from_app lower (a b : jsstring) : forall before,
  exists x,
    toLowerCase_from lower before (a ++ b)
    = x ++ toLowerCase_from lower (rev a ++ before) b.
Proof.
  induction a as [|c a IH]; intros before.
  - exists []. reflexivity.
  - cbn [app toLowerCase_from].
    destruct (IH (c :: before)) as [x ->].
    exists ((if (c <? 128)%N then [ascii_lower c]
             else lower (rev before) c (a ++ b)) ++ x).
    cbn [rev]. rewrite <- !app_assoc. reflexivity.
Qed.

Lemma toLowerCase_from_ascii lower (w b : jsstring) : forall before,
  forallb (fun c => (c <? 128)%N) w = true ->
  toLowerCase_from lower before (w ++ b)
  = List.map ascii_lower w ++ toLowerCase_from lower (rev w ++ before) b.
Proof.
  induction w as [|c w IH]; intros before H; [reflexivity|].
  cbn [forallb] in H. apply andb_true_iff in H as [Hc Hw].
  cbn [app toLowerCase_from List.map]. rewrite Hc.
  rewrite (IH (c :: before) Hw). cbn [rev app].
  rewrite <- app_assoc. reflexivity.
Qed.

(** A word that is an ASCII lower-case word up to case is made of ASCII
    letters and is lowered to that word. *)
Lemma ci_eq_lower (w : jsstring) (word : string) :
  forallb (fun c => (97 <=? c)%N && (c <=? 122)%N) (js word) = true ->
  ci_eq w (js word) ->
  forallb (fun c => (c <? 128)%N) w = true /\
  List.map ascii_lower w = js word.
Proof.
  unfold ci_eq. generalize (js word). clear word.
  induction w as [|c w IH]; intros [|d l] Hl H; try discriminate.
  - split; reflexivity.
  - cbn [List.map forallb] in *. injection H as Hc Hw.
    apply andb_true_iff in Hl as [Hd Hl].
    destruct (IH l Hl Hw) as [Ha Hm].
    apply andb_true_iff in Hd as [Hd1 Hd2].
    apply N.leb_le in Hd1, Hd2.
    assert (Hup : ascii_upper d = (d - 32)%N).
    { unfold ascii_upper.
      assert ((97 <=? d)%N && (d <=? 122)%N = true) as ->
        by (apply andb_true_iff; split; apply N.leb_le; lia).
      reflexivity. }
    rewrite Hup in Hc.
    assert (Hcases : c = d \/ c = (d - 32)%N).
    { unfold ascii_upper in Hc.
      destruct ((97 <=? c)%N && (c <=? 122)%N) eqn:Hr.
      - apply andb_true_iff in Hr as [H1 H2].
        apply N.leb_le in H1, H2. left. lia.
      - right. exact Hc. }
    assert (Hlow : ascii_lower c = d).
    { unfold ascii_lower. destruct Hcases as [-> | ->].
      - assert ((65 <=? d)%N && (d <=? 90)%N = false) as ->;
          [|reflexivity].
        apply andb_false_iff. right. apply N.leb_gt. lia.
      - assert ((65 <=? d - 32)%N && (d - 32 <=? 90)%N = true) as ->
          by (apply andb_true_iff; split; apply N.leb_le; lia).
        lia. }
    rewrite Hlow, Hm, Ha, andb_true_r. split; [|reflexivity].
    apply N.ltb_lt. destruct Hcases as [-> | ->]; lia.
Qed.

Section LinkText.
Context {E : Engine}.

Lemma text_includes_word (link : node) (pre w post : jsstring)
    (word : string) :
  forallb (fun c => (97 <=? c)%N && (c <=? 122)%N) (js word) = true ->
  textContent link = pre ++ w ++ post ->
  ci_eq w (js word) ->
  includes (link_text link) (js word) = true.
Proof.
  intros Hword Ht Hw. unfold link_text, toLowerCase. rewrite Ht.
  destruct (ci_eq_lower w word Hword Hw) as [Ha Hm].
  destruct (toLowerCase_from_app unicode_lower pre (w ++ post) [])
    as [x ->].
  rewrite (toLowerCase_from_ascii _ _ _ _ Ha), Hm.
  apply includes_middle.
Qed.

(** X4.  The text of a link counts in any case: an anchor whose text holds
    "youtube", whatever the case of its letters, is taken for a YouTube
    link whatever its href, and one whose text holds "gdbrowser" for a
    GDBrowser link unless it is a YouTube link.  The URL is the href as it
    stands, the empty string when the anchor has none. *)
Theorem link_text_counts_in_any_case (link : node) (pre w post : jsstring)
    (st : link_state) :
  textContent link = pre ++ w ++ post ->
  (ci_eq w (js "youtube") ->
   classify_link st link
   = LinkState (Some (or_empty (getAttribute "href" link)))
       (gdBrowserUrl st) true (excludedHrefs st)) /\
  (ci_eq w (js "gdbrowser") ->
   is_youtube (link_href link) (link_text link) = false ->
   classify_link st link
   = LinkState (youtubeUrl st)
       (Some (or_empty (getAttribute "href" link))) true
       (excludedHrefs st)).
Proof.
  intros Ht. split.
  - intros Hw.
    assert (Hy : includes (link_text link) (js "youtube") = true)
      by (apply (text_includes_word link pre w post "youtube");
          [reflexivity|assumption|assumption]).
    unfold classify_link, is_youtube. rewrite Hy, !orb_true_r.
    reflexivity.
  - intros Hw Hn.
    assert (Hg : includes (link_text link) (js "gdbrowser") = true)
      by (apply (text_includes_word link pre w post "gdbrowser");
          [reflexivity|assumption|assumption]).
    unfold classify_link. rewrite Hn. unfold is_gdbrowser.
    rewrite Hg, orb_true_r. reflexivity.
Qed.

End LinkText.

(** ** The parts of a heading *)

Lemma trim_idem (s : jsstring) : trim (trim s) = trim s.
Proof.
  destruct (trim s) as [|c t] eqn:Ht; [reflexivity|].
  destruct (exists_last (l := c :: t)) as (u & d & Hu); [discriminate|].
  apply (trim_fixed (c :: t) c d t eq_refl).
  - exists u. exact Hu.
  - exact (trim_head s c t Ht).
  - apply (trim_last s u d). rewrite Ht. exact Hu.
Qed.

Section HeadingParts.
Context {E : Engine}.

Lemma split_heading_parts h name publisher :
  split_heading h = Normal (name, publisher) ->
  trim name = name /\ trim publisher = publisher /\
  (publisher = [] -> name = trim h) /\
  (publisher <> [] ->
   name <> [] /\
   exists title sep attribution,
     trim h = title ++ sep ++ attribution /\
     separator_at (sep ++ attribution) attribution /\
     name = trim title /\ publisher = trim attribution).
Proof.
  unfold split_heading.
  destruct (str_match true re_name_author (trim h)) as [m|] eqn:Hm.
  - apply name_author_match_inv in Hm
      as (title & sep & attr & Ht & Hne & Hsep & Hattr & H1 & H2).
    rewrite H1, H2. simpl. intros H; injection H as <- <-.
    assert (Hp : trim attr <> []).
    { destruct (exists_last Hattr) as (u & d & ->).
      assert (Hd : is_space d = false).
      { apply (trim_last h (title ++ sep ++ u) d).
        rewrite Ht, <- !app_assoc. reflexivity. }
      intros Hnil. apply trim_nil_iff_spaces in Hnil.
      rewrite forallb_app in Hnil. simpl in Hnil. rewrite Hd in Hnil.
      rewrite andb_false_r in Hnil. discriminate. }
    assert (Hn : trim title <> []).
    { destruct title as [|c title]; [congruence|].
      apply trim_nonempty. eapply trim_head. rewrite Ht. reflexivity. }
    split; [apply trim_idem|]. split; [apply trim_idem|].
    split; [intros Hnil; contradiction|].
    intros _. split; [exact Hn|].
    exists title, sep, attr. auto.
  - intros H; injection H as <- <-.
    split; [apply trim_idem|]. split; [reflexivity|].
    split; [reflexivity|]. intros Hne. congruence.
Qed.

(** X5.  The name and the publisher (the author, in src/dataParser.ts) of a
    level neither begin nor end with white space.  The publisher is empty
    exactly when the heading did not split, and then the name is the whole
    trimmed text of the heading; when it split, both parts are not empty
    and are the trimmed texts before and after a separator. *)
Theorem heading_parts_trimmed (doc : document) (h3 : located)
    (nextH3 : option path) :
  (forall l, Rev3.process_h3 doc h3 nextH3 = Normal (Some l) ->
     trim (Rev2.name l) = Rev2.name l /\
     trim (Rev2.publisher l) = Rev2.publisher l /\
     (Rev2.publisher l = [] ->
      Rev2.name l = trim (textContent (loc_node h3))) /\
     (Rev2.publisher l <> [] ->
      Rev2.name l <> [] /\
      exists title sep attribution,
        trim (textContent (loc_node h3)) = title ++ sep ++ attribution /\
        separator_at (sep ++ attribution) attribution /\
        Rev2.name l = trim title /\
        Rev2.publisher l = trim attribution)) /\
  (forall l, Rev1.process_h3 h3 nextH3 = Normal (Some l) ->
     trim (Rev1.name l) = Rev1.name l /\
     trim (Rev1.author l) = Rev1.author l /\
     (Rev1.author l = [] ->
      Rev1.name l = trim (textContent (loc_node h3))) /\
     (Rev1.author l <> [] ->
      Rev1.name l <> [] /\
      exists title sep attribution,
        trim (textContent (loc_node h3)) = title ++ sep ++ attribution /\
        separator_at (sep ++ attribution) attribution /\
        Rev1.name l = trim title /\
        Rev1.author l = trim attribution)).
Proof.
  split.
  - intros l Hl.
    destruct (rev3_process_h3_cases doc h3 nextH3)
      as (n & a & Hs & [[_ H]|(d & i & _ & H)]); [congruence|].
    rewrite H in Hl. injection Hl as <-.
    cbn [Rev2.name Rev2.publisher].
    exact (split_heading_parts _ _ _ Hs).
  - intros l Hl.
    destruct (rev1_process_h3_cases h3 nextH3)
      as (n & a & Hs & [[_ H]|(d & i & _ & H)]); [congruence|].
    rewrite H in Hl. injection Hl as <-.
    cbn [Rev1.name Rev1.author].
    exact (split_heading_parts _ _ _ Hs).
Qed.

End HeadingParts.

(** ** The sign of a difficulty *)

Lemma scale10_nonneg m e : (0 <= m)%Z -> 0 <= scale10 m e.
Proof.
  intros Hm. unfold scale10. rewrite Qred_correct.
  destruct (0 <=? e)%Z eqn:He; unfold Qle; simpl.
  - apply Z.leb_le in He.
    pose proof (Z.pow_nonneg 10 e ltac:(lia)). nia.
  - lia.
Qed.

Lemma parseFloat_not_negative s :
  forallb (fun c => is_digit c || (c =? 46)%N) s = true ->
  not_negative (parseFloat s).
Proof.
  destruct s as [|c s]; [intros _; exact I|].
  cbn [forallb]. intros H. apply andb_true_iff in H as [Hc _].
  rewrite (parseFloat_unsigned c s Hc).
  destruct (span is_digit (c :: s)) as [ip s3].
  destruct (fraction_part s3) as [fp s4].
  destruct (ip ++ fp); [exact I|].
  cbn [not_negative]. apply scale10_nonneg. lia.
Qed.

Lemma find_difficulty_not_negative content idx d i :
  find_difficulty idx content = Normal (Some (d, i)) -> not_negative d.
Proof.
  intros H.
  apply find_difficulty_some in H
    as (before & el & after & m & num & _ & _ & _ & _ & _ & _ & Hnum & ->).
  apply parseFloat_not_negative, remove_commas_chars, Hnum.
Qed.

Section Sign.
Context {E : Engine}.

(** X6.  No level has a difficulty below zero: the expression takes digits,
    commas and points only, so a sign is never part of the number text. *)
Theorem difficulty_not_negative (r : response) :
  (forall levels l,
     Rev3.fetchAndParseLevelData r = Normal levels -> In l levels ->
     not_negative (Rev2.difficulty l)) /\
  (forall levels l,
     Rev1.fetchAndParseLevelData r = Normal levels -> In l levels ->
     not_negative (Rev1.difficulty l)).
Proof.
  split.
  - intros levels l Hr Hin.
    destruct (rev3_levels_origin r levels l Hr Hin)
      as (before & h3 & after & _ & Hp).
    destruct (rev3_process_h3_cases (parsed r) h3
                (option_map loc_path (hd_error after)))
      as (n & a & _ & [[_ H]|(d & i & Hf & H)]); [congruence|].
    rewrite H in Hp. injection Hp as <-. cbn [Rev2.difficulty].
    exact (find_difficulty_not_negative _ _ _ _ Hf).
  - intros levels l Hr Hin.
    destruct (rev1_levels_origin r levels l Hr Hin)
      as (before & h3 & after & _ & Hp).
    destruct (rev1_process_h3_cases h3
                (option_map loc_path (hd_error after)))
      as (n & a & _ & [[_ H]|(d & i & Hf & H)]); [congruence|].
    rewrite H in Hp. injection Hp as <-. cbn [Rev1.difficulty].
    exact (find_difficulty_not_negative _ _ _ _ Hf).
Qed.


End Sign.

(** ** The revision with footnotes and the one before it *)

Lemma In_descendants n ns : In n ns -> In n (descendants ns).
Proof.
  intros H. unfold descendants. apply in_flat_map.
  exists n. split; [exact H|]. destruct n; left; reflexivity.
Qed.

Lemma descendants_app a b :
  descendants (a ++ b) = descendants a ++ descendants b.
Proof. unfold descendants. apply flat_map_app. Qed.

Lemma descendants_children n ns x :
  In n ns -> In x (descendants (children n)) -> In x (descendants ns).
Proof.
  intros Hn Hx. unfold descendants at 1. apply in_flat_map.
  exists n. split; [exact Hn|].
  destruct n as [d|d|t a cs]; try destruct Hx.
  right. exact Hx.
Qed.

(** What is below a clone after a removal comes from what was below the
    element, with its name and attributes. *)
Lemma remove_in_origin (p q : node -> bool) : shallow q ->
  forall n x, In x (subtree (remove_in p n)) ->
  exists x', In x' (subtree n) /\ q x = q x'.
Proof.
  intros Hq. apply (node_induction
    (fun n => forall x, In x (subtree (remove_in p n)) ->
                        exists x', In x' (subtree n) /\ q x = q x')).
  - intros d x [<-|[]]. exists (Text d). split; [left|]; reflexivity.
  - intros d x [<-|[]]. exists (Comment d). split; [left|]; reflexivity.
  - intros t a cs IH x Hx. rewrite remove_in_element in Hx.
    cbn [subtree] in Hx. destruct Hx as [<-|Hx].
    + exists (Element t a cs). split; [left; reflexivity|apply Hq].
    + cut (exists x', In x' (flat_map subtree cs) /\ q x = q x').
      { intros (x' & Hin & Heq). exists x'. split; [right|]; assumption. }
      induction cs as [|c cs IHcs]; [destruct Hx|].
      inversion IH as [|? ? Hc Hcs]; subst.
      cbn [remove_where] in Hx. cbn [flat_map].
      destruct (p c).
      * destruct (IHcs Hcs Hx) as (x' & Hin & Heq).
        exists x'. split; [apply in_or_app; right|]; assumption.
      * cbn [flat_map] in Hx. apply in_app_or in Hx as [Hx|Hx].
        -- destruct (Hc x Hx) as (x' & Hin & Heq).
           exists x'. split; [apply in_or_app; left|]; assumption.
        -- destruct (IHcs Hcs Hx) as (x' & Hin & Heq).
           exists x'. split; [apply in_or_app; right|]; assumption.
Qed.

Lemma remove_where_origin (p q : node -> bool) : shallow q ->
  forall ns x, In x (descendants (remove_where p ns)) ->
  exists x', In x' (descendants ns) /\ q x = q x'.
Proof.
  intros Hq. unfold descendants.
  induction ns as [|c cs IH]; intros x Hx; [destruct Hx|].
  cbn [remove_where] in Hx. cbn [flat_map].
  destruct (p c).
  - destruct (IH x Hx) as (x' & Hin & Heq).
    exists x'. split; [apply in_or_app; right|]; assumption.
  - cbn [flat_map] in Hx. apply in_app_or in Hx as [Hx|Hx].
    + destruct (remove_in_origin p q Hq c x Hx) as (x' & Hin & Heq).
      exists x'. split; [apply in_or_app; left|]; assumption.
    + destruct (IH x Hx) as (x' & Hin & Heq).
      exists x'. split; [apply in_or_app; right|]; assumption.
Qed.

Lemma remove_descendants_origin (p q : node -> bool) el x :
  shallow q ->
  In x (descendants (children (remove_descendants p el))) ->
  exists x', In x' (descendants (children el)) /\ q x = q x'.
Proof.
  intros Hq Hx. unfold remove_descendants in Hx.
  destruct el as [d|d|t a cs]; try destruct Hx.
  rewrite remove_in_element in Hx. cbn [children] in *.
  exact (remove_where_origin p q Hq cs x Hx).
Qed.

(** The siblings after a located node are nodes of the document. *)
Lemma locate_node_next : forall n p next l,
  In l (locate_node p n next) ->
  forall e, In e (loc_next l) ->
  In e next \/ In e (descendants (children n)).
Proof.
  apply (node_induction
    (fun n => forall p next l, In l (locate_node p n next) ->
       forall e, In e (loc_next l) ->
       In e next \/ In e (descendants (children n)))).
  - intros d p next l [<-|[]] e He. left. exact He.
  - intros d p next l [<-|[]] e He. left. exact He.
  - intros t a cs IH p next l Hl e He.
    cbn [locate_node] in Hl. destruct Hl as [<-|Hl]; [left; exact He|].
    right. cbn [children].
    revert Hl. generalize 0%nat.
    induction cs as [|c cs IHcs]; intros idx Hl; [destruct Hl|].
    inversion IH as [|? ? Hc Hcs]; subst.
    apply in_app_or in Hl as [Hl|Hl].
    + destruct (Hc _ _ _ Hl e He) as [Hr|Hd].
      * apply In_descendants. right. exact Hr.
      * apply (descendants_children c); [left; reflexivity|exact Hd].
    + specialize (IHcs Hcs (S idx) Hl).
      rewrite descendants_cons. right. apply in_or_app. right. exact IHcs.
Qed.

Lemma locate_all_next ns : forall parent idx l,
  In l (locate_all parent idx ns) ->
  forall e, In e (loc_next l) -> In e (descendants ns).
Proof.
  induction ns as [|n ns IH]; intros parent idx l Hl e He; [destruct Hl|].
  cbn [locate_all] in Hl. apply in_app_or in Hl as [Hl|Hl].
  - destruct (locate_node_next _ _ _ _ Hl e He) as [Hr|Hd].
    + apply In_descendants. right. exact Hr.
    + apply (descendants_children n); [left; reflexivity|exact Hd].
  - rewrite descendants_cons. right. apply in_or_app. right.
    exact (IH _ _ _ Hl e He).
Qed.

Lemma descendants_trans ns n x :
  In n (descendants ns) -> In x (descendants (children n)) ->
  In x (descendants ns).
Proof.
  revert n x. unfold descendants at 1 3.
  induction ns as [|c cs IH]; intros n x Hn Hx; [destruct Hn|].
  cbn [flat_map] in *. apply in_app_or in Hn as [Hn|Hn].
  - apply in_or_app. left. clear IH.
    revert n x Hn Hx.
    apply (node_induction
      (fun c => forall n x, In n (subtree c) ->
                  In x (descendants (children n)) -> In x (subtree c))).
    + intros d n x [<-|[]] Hx. destruct Hx.
    + intros d n x [<-|[]] Hx. destruct Hx.
    + intros t a l IHl n x Hn Hx. cbn [subtree] in *.
      destruct Hn as [<-|Hn]; [right; exact Hx|].
      right. apply in_flat_map in Hn as (c' & Hc' & Hn).
      apply in_flat_map. exists c'. split; [exact Hc'|].
      rewrite Forall_forall in IHl. exact (IHl c' Hc' n x Hn Hx).
  - apply in_or_app. right. exact (IH n x Hn Hx).
Qed.

Lemma levels_loop_ext A (p1 p2 : located -> option path ->
                                   completion (option A)) hs :
  (forall h n, In h hs -> p1 h n = p2 h n) ->
  levels_loop p1 hs = levels_loop p2 hs.
Proof.
  induction hs as [|h hs IH]; intros H; [reflexivity|].
  cbn [levels_loop]. rewrite (H h _ (or_introl eq_refl)), IH; [reflexivity|].
  intros h' n Hin. apply H. right. exact Hin.
Qed.

Section Conservative.
Context {E : Engine}.

Lemma section_content_next h3 nextH3 e :
  In e (Rev2.section_content h3 nextH3) -> In e (loc_next h3).
Proof.
  unfold Rev2.section_content.
  destruct (collect_until_spec
              (fun q element => same_node nextH3 q || is_heading element)
              (loc_path h3) (loc_next h3) 1)
    as (before & after & Hn & -> & _).
  intros H. apply filter_In in H as [H _].
  rewrite Hn. apply in_or_app. left. exact H.
Qed.

Lemma rev2_collect_origin excl rest c :
  In c (Rev2.collect_commentary excl rest) ->
  exists el, In el rest /\
             c = remove_descendants (Rev2.excluded_anchor excl) el.
Proof.
  induction rest as [|e rest IH]; intros H; [destruct H|].
  cbn [Rev2.collect_commentary] in H.
  destruct (is_heading e); [destruct H|].
  apply in_app_or in H as [H|H].
  - exists e. split; [left; reflexivity|].
    unfold commentary_clone in H.
    destruct (is_commentary e); [|destruct H].
    destruct (has_content _); [|destruct H].
    destruct H as [<-|[]]. reflexivity.
  - destruct (IH H) as (el & Hin & ->). exists el. split; [right|]; auto.
Qed.

(** X8.  Where no anchor of the document is a reference to a footnote the
    index knows, the revision with footnotes returns what the revision
    before it returns. *)
Theorem footnote_pass_conservative (r : response) :
  (forall a, In a (descendants (doc_children (parsed r))) ->
     Rev3.is_footnote_ref (Rev3.collect_footnotes (parsed r)) a = false) ->
  Rev3.fetchAndParseLevelData r = Rev2.fetchAndParseLevelData r.
Proof.
  intros Hno.
  unfold Rev3.fetchAndParseLevelData, Rev2.fetchAndParseLevelData,
    fetch_and_parse.
  destruct (negb (ok r)); [reflexivity|].
  apply levels_loop_ext. intros h n Hh.
  unfold doc_querySelectorAll in Hh. apply filter_In in Hh as [Hh _].
  unfold Rev3.process_h3, Rev2.process_h3.
  destruct (split_heading (textContent (loc_node h))) as [np|]; [|reflexivity].
  cbn [bind].
  destruct (find_difficulty 0 (Rev2.section_content h n)) as [[[d i]|]|];
    try reflexivity.
  cbn [bind]. rewrite with_footnotes_no_refs; [reflexivity|].
  intros c x Hc Hx.
  unfold Rev2.commentary_elements in Hc.
  apply rev2_collect_origin in Hc as (el & Hel & ->).
  apply In_skipn in Hel as (j & _ & Hel).
  apply nth_error_In, section_content_next in Hel.
  pose proof (locate_all_next _ _ _ _ Hh el Hel) as Hd.
  destruct (remove_descendants_origin _
              (Rev3.is_footnote_ref (Rev3.collect_footnotes (parsed r)))
              el x (shallow_footnote_ref _) Hx) as (x' & Hx' & ->).
  apply Hno. exact (descendants_trans _ el x' Hd Hx').
Qed.

End Conservative.

(** ** The first revision and the later ones *)

(** A loop with more reasons to stop collects a prefix. *)
Lemma collect_until_prefix (stop1 stop2 : path -> node -> bool) p siblings :
  (forall q n, stop1 q n = true -> stop2 q n = true) ->
  forall k, exists rest,
    collect_until stop1 p k siblings
    = collect_until stop2 p k siblings ++ rest.
Proof.
  intros Hs. induction siblings as [|n siblings IH]; intros k.
  - exists []. reflexivity.
  - cbn [collect_until]. destruct (is_element n); [|apply IH].
    destruct (stop1 (sibling_path p k) n) eqn:H1.
    + rewrite (Hs _ _ H1). exists []. reflexivity.
    + destruct (stop2 (sibling_path p k) n).
      * eexists. reflexivity.
      * destruct (IH (S k)) as [rest ->]. exists rest. reflexivity.
Qed.

Lemma find_difficulty_prefix a b : forall idx x,
  find_difficulty idx a = Normal (Some x) ->
  find_difficulty idx (a ++ b) = Normal (Some x).
Proof.
  induction a as [|e a IH]; intros idx x H; [discriminate|].
  cbn [app find_difficulty] in *.
  destruct (str_match true re_difficulty (textContent e)); [exact H|].
  apply IH. exact H.
Qed.

Lemma levels_loop_pushed A (process : located -> option path ->
                                      completion (option A)) before h after :
  forall levels l,
  levels_loop process (before ++ h :: after) = Normal levels ->
  process h (option_map loc_path (hd_error after)) = Normal (Some l) ->
  In l levels.
Proof.
  induction before as [|b before IH]; intros levels l H Hp;
    cbn [app levels_loop] in H.
  - rewrite Hp in H. cbn [bind] in H.
    destruct (levels_loop process after); [|discriminate].
    cbn [bind] in H. injection H as <-. left. reflexivity.
  - destruct (process b _) as [x|]; [|discriminate]. cbn [bind] in H.
    destruct (levels_loop process (before ++ h :: after)) as [ls|] eqn:Hl;
      [|discriminate].
    cbn [bind] in H. injection H as <-.
    specialize (IH ls l eq_refl Hp).
    destruct x; [right|]; exact IH.
Qed.

Section Revisions13.
Context {E : Engine}.

Lemma section_content_prefix h3 nextH3 :
  exists rest,
    Rev1.section_content h3 nextH3 = Rev2.section_content h3 nextH3 ++ rest.
Proof.
  unfold Rev1.section_content, Rev2.section_content.
  apply collect_until_prefix.
  intros q n H. rewrite H. reflexivity.
Qed.

Lemma rev3_level_in_rev1 doc h3 nextH3 l :
  Rev3.process_h3 doc h3 nextH3 = Normal (Some l) ->
  exists l1,
    Rev1.process_h3 h3 nextH3 = Normal (Some l1) /\
    Rev1.name l1 = Rev2.name l /\ Rev1.author l1 = Rev2.publisher l /\
    Rev1.difficulty l1 = Rev2.difficulty l.
Proof.
  intros Hl.
  destruct (rev3_process_h3_cases doc h3 nextH3)
    as (n & a & Hs & [[_ H]|(d & i & Hf & H)]); [congruence|].
  rewrite H in Hl. injection Hl as <-.
  destruct (section_content_prefix h3 nextH3) as [rest Hr].
  pose proof (find_difficulty_prefix _ rest _ _ Hf) as Hf'.
  rewrite <- Hr in Hf'.
  destruct (rev1_process_h3_cases h3 nextH3)
    as (n1 & a1 & Hs1 & [[Hf1 _]|(d1 & i1 & Hf1 & H1)]);
    cbv zeta in *; rewrite Hs in Hs1; injection Hs1 as <- <-;
    rewrite Hf' in Hf1; [discriminate|].
  injection Hf1 as <- <-.
  eexists. split; [exact H1|].
  repeat split; reflexivity.
Qed.

(** X9.  The stop at every heading only shortens sections: the content of a
    section in the later revisions is a prefix of its content in
    src/dataParser.ts, and every level the revision with footnotes returns
    is returned by src/dataParser.ts with the same name, author and
    difficulty. *)
Theorem later_levels_among_first (r : response) (levels3 : list Rev2.LevelData)
    (levels1 : list Rev1.LevelData) :
  Rev3.fetchAndParseLevelData r = Normal levels3 ->
  Rev1.fetchAndParseLevelData r = Normal levels1 ->
  (forall h3 nextH3, exists rest,
     Rev1.section_content h3 nextH3
     = Rev2.section_content h3 nextH3 ++ rest) /\
  (forall l, In l levels3 ->
     exists l1, In l1 levels1 /\
       Rev1.name l1 = Rev2.name l /\ Rev1.author l1 = Rev2.publisher l /\
       Rev1.difficulty l1 = Rev2.difficulty l).
Proof.
  intros H3 H1. split; [apply section_content_prefix|].
  intros l Hin.
  destruct (rev3_levels_origin r levels3 l H3 Hin)
    as (before & h3 & after & Hh & Hp).
  destruct (rev3_level_in_rev1 _ _ _ _ Hp) as (l1 & Hp1 & Heq).
  exists l1. split; [|exact Heq].
  unfold Rev1.fetchAndParseLevelData, fetch_and_parse in H1.
  destruct (negb (ok r)); [discriminate|].
  fold (h3Elements (parsed r)) in H1. rewrite Hh in H1.
  exact (levels_loop_pushed _ _ _ _ _ _ l1 H1 Hp1).
Qed.

End Revisions13.

(** ** Names a plain object inherits *)

Section Inherited.
Context {E : Engine}.

(** X10.  [footnoteMap] is a plain object, so the names it inherits from
    [Object.prototype] count as footnotes it knows unless a footnote item
    of that id is stored: an anchor to "#constructor", say, is a footnote
    reference in every document, also in one without footnotes.  It is
    replaced by its text, and the item appended for it holds what the
    engine makes of the inherited value. *)
Theorem inherited_names_are_footnotes (doc : document) (a : node)
    (name : string) :
  In name Rev3.object_prototype_names ->
  lookup_attr (js name) (Rev3.collect_footnotes doc) = None ->
  has_tag "a" a = true ->
  getAttribute "href" a = Some (js "#" ++ js name) ->
  Rev3.is_footnote_ref (Rev3.collect_footnotes doc) a = true /\
  unlink_node (Rev3.is_footnote_ref (Rev3.collect_footnotes doc)) a
  = Text (textContent a) /\
  Rev3.footnote_html (Rev3.collect_footnotes doc) (js name)
  = inherited_to_string (js name) /\
  (doc_querySelector (Rev3.footnotes_selector (doc_quirks doc)) doc = None ->
   Rev3.collect_footnotes doc = []).
Proof.
  intros Hname Hown Ha Hhref.
  assert (Hget : Rev3.obj_get (Rev3.collect_footnotes doc) (js name)
                 = Some (Rev3.VInherited (js name))).
  { unfold Rev3.obj_get. rewrite Hown.
    assert (in_tags Rev3.object_prototype_names (js name) = true) as ->;
      [|reflexivity].
    unfold in_tags. apply existsb_exists. exists name.
    split; [exact Hname|apply str_eqb_refl]. }
  assert (Hne : js name <> []).
  { intros Hnil. revert Hname. clear -Hnil. intros Hname.
    simpl in Hname.
    repeat (destruct Hname as [<-|Hname]; [discriminate|]).
    destruct Hname. }
  assert (Hr : Rev3.is_footnote_ref (Rev3.collect_footnotes doc) a = true).
  { apply is_footnote_ref_iff. split; [exact Ha|].
    exists (js name). split; [exact Hhref|]. split; [exact Hne|].
    rewrite Hget. reflexivity. }
  split; [exact Hr|]. split.
  { rewrite unlink_node_eq, Hr. reflexivity. }
  split.
  { unfold Rev3.footnote_html. rewrite Hget. reflexivity. }
  intros Hq. unfold Rev3.collect_footnotes. rewrite Hq. reflexivity.
Qed.

End Inherited.

(** ** The entry point *)

Section EntryPoint.
Context {E : Engine}.
Variable construct : list Rev2.LevelData -> completion unit.
Variable type_error_message : jsstring.

Lemma rev3_fetch_ok r :
  ok r = true -> exists levels, Rev3.fetchAndParseLevelData r = Normal levels.
Proof.
  intros Hok. unfold Rev3.fetchAndParseLevelData, fetch_and_parse.
  rewrite Hok. cbn [negb]. apply levels_loop_normal.
  intros h n. apply rev3_process_h3_normal.
Qed.

Lemma rev3_fetch_not_ok r :
  ok r = false ->
  Rev3.fetchAndParseLevelData r
  = Throw (Error (js "Failed to fetch blog post: " ++ statusText r)).
Proof.
  intros Hok. unfold Rev3.fetchAndParseLevelData, fetch_and_parse.
  rewrite Hok. reflexivity.
Qed.

(** A section has a difficulty line exactly when its step pushes a
    level. *)
Lemma rev3_pushes_iff doc h3 nextH3 :
  (exists l, Rev3.process_h3 doc h3 nextH3 = Normal (Some l)) <->
  exists el, In el (Rev2.section_content h3 nextH3) /\
             has_difficulty_line (textContent el).
Proof.
  destruct (rev3_process_h3_cases doc h3 nextH3)
    as (n & a & _ & [[Hf H]|(d & i & Hf & H)]); cbv zeta in *.
  - split.
    + intros [l Hl]. congruence.
    + intros (el & Hin & Hd). exfalso.
      exact (proj1 (find_difficulty_none _ _) Hf el Hin Hd).
  - split; [|eauto]. intros _.
    apply find_difficulty_some in Hf
      as (before & el & after & m & num & Hc & _ & _ & Hm & _).
    exists el. split; [rewrite Hc; apply in_or_app; right; left; reflexivity|].
    destruct (str_match true re_difficulty (textContent el)) eqn:Hs;
      [|discriminate].
    apply difficulty_match_some in Hs as (num' & _ & _ & _ & Hl). exact Hl.
Qed.

Lemma rev3_levels_nonempty_iff r levels :
  Rev3.fetchAndParseLevelData r = Normal levels ->
  (levels <> [] <->
   exists before h3 after el,
     h3Elements (parsed r) = before ++ h3 :: after /\
     In el (Rev2.section_content h3 (option_map loc_path (hd_error after))) /\
     has_difficulty_line (textContent el)).
Proof.
  intros Hr. split.
  - intros Hne. destruct levels as [|l levels]; [congruence|].
    destruct (rev3_levels_origin r _ l Hr (or_introl eq_refl))
      as (before & h3 & after & Hh & Hp).
    destruct (proj1 (rev3_pushes_iff _ _ _) (ex_intro _ l Hp))
      as (el & Hin & Hd).
    exists before, h3, after, el. auto.
  - intros (before & h3 & after & el & Hh & Hin & Hd) ->.
    destruct (proj2 (rev3_pushes_iff (parsed r) h3
                       (option_map loc_path (hd_error after)))
                (ex_intro _ el (conj Hin Hd))) as [l Hl].
    unfold Rev3.fetchAndParseLevelData, fetch_and_parse in Hr.
    destruct (negb (ok r)); [discriminate|].
    fold (h3Elements (parsed r)) in Hr. rewrite Hh in Hr.
    exact (levels_loop_pushed _ _ _ _ _ _ l Hr Hl).
Qed.

(** X11.  The visualization is constructed exactly when the container exists,
    the response is ok and some section of the document has a difficulty
    line; it is given the levels the parser returned, and there is at
    least one. *)
Theorem visualization_iff_some_level (app : bool) (r : response) :
  ((exists data,
      In (Main.NewVisualization data)
        (Main.init construct type_error_message app r)) <->
   app = true /\ ok r = true /\
   exists before h3 after el,
     h3Elements (parsed r) = before ++ h3 :: after /\
     In el (Rev2.section_content h3 (option_map loc_path (hd_error after))) /\
     has_difficulty_line (textContent el)) /\
  (forall data,
     In (Main.NewVisualization data)
       (Main.init construct type_error_message app r) ->
     Rev3.fetchAndParseLevelData r = Normal data /\ data <> []).
Proof.
  assert (Hdata : forall data,
            In (Main.NewVisualization data)
              (Main.init construct type_error_message app r) ->
            app = true /\
            Rev3.fetchAndParseLevelData r = Normal data /\ data <> []).
  { intros data. unfold Main.init, Main.try_block, Main.catch_block.
    destruct app; cbn [negb].
    - destruct (Rev3.fetchAndParseLevelData r) as [levels|e].
      + destruct levels as [|l levels]; cbn [List.length Nat.eqb].
        * intros [H|[]]. discriminate.
        * destruct (construct (l :: levels)) as [u|e].
          -- intros [H|[]]. injection H as <-.
             repeat split; discriminate.
          -- cbn [List.app]. intros [H|[H|[H|[]]]]; try discriminate.
             injection H as <-. repeat split; discriminate.
      + cbn [List.app]. intros [H|[H|[]]]; discriminate.
    - cbn [List.app]. intros [H|[]]. discriminate. }
  split; [|intros data H; apply Hdata in H; tauto].
  split.
  - intros (data & H). apply Hdata in H as (Ha & Hr & Hne).
    split; [exact Ha|].
    assert (Hok : ok r = true).
    { destruct (ok r) eqn:Hok; [reflexivity|].
      rewrite (rev3_fetch_not_ok r Hok) in Hr. discriminate. }
    split; [exact Hok|].
    exact (proj1 (rev3_levels_nonempty_iff r data Hr) Hne).
  - intros (-> & Hok & Hex).
    destruct (rev3_fetch_ok r Hok) as [levels Hr].
    pose proof (proj2 (rev3_levels_nonempty_iff r levels Hr) Hex) as Hne.
    exists levels.
    unfold Main.init, Main.try_block. cbn [negb]. rewrite Hr.
    destruct levels as [|l levels]; [congruence|].
    cbn [List.length Nat.eqb].
    destruct (construct (l :: levels)); left; reflexivity.
Qed.

(** X12.  The container shows "No level data found" and nothing else happens
    exactly when the container exists, the response is ok and no section
    of the document has a difficulty line. *)
Theorem no_data_message_iff (app : bool) (r : response) :
  Main.init construct type_error_message app r
  = [Main.SetInnerHTML Main.no_data_html] <->
  app = true /\ ok r = true /\
  forall before h3 after el,
    h3Elements (parsed r) = before ++ h3 :: after ->
    In el (Rev2.section_content h3 (option_map loc_path (hd_error after))) ->
    ~ has_difficulty_line (textContent el).
Proof.
  split.
  - unfold Main.init, Main.try_block, Main.catch_block.
    destruct app; cbn [negb]; [|cbn [List.app]; discriminate].
    destruct (Rev3.fetchAndParseLevelData r) as [levels|e] eqn:Hr;
      [|cbn [List.app]; discriminate].
    destruct levels as [|l levels]; cbn [List.length Nat.eqb].
    + intros _. split; [reflexivity|].
      assert (Hok : ok r = true).
      { destruct (ok r) eqn:Hok; [reflexivity|].
        rewrite (rev3_fetch_not_ok r Hok) in Hr. discriminate. }
      split; [exact Hok|].
      intros before h3 after el Hh Hin Hd.
      apply (proj2 (rev3_levels_nonempty_iff r [] Hr)); [|reflexivity].
      exists before, h3, after, el. auto.
    + destruct (construct (l :: levels)); cbn [List.app]; discriminate.
  - intros (-> & Hok & Hno).
    destruct (rev3_fetch_ok r Hok) as [levels Hr].
    unfold Main.init, Main.try_block. cbn [negb]. rewrite Hr.
    destruct levels as [|l levels]; [reflexivity|].
    exfalso.
    destruct (proj1 (rev3_levels_nonempty_iff r _ Hr))
      as (before & h3 & after & el & Hh & Hin & Hd); [discriminate|].
    exact (Hno before h3 after el Hh Hin Hd).
Qed.


End EntryPoint.

(** ** The navigation state *)

Section Navigation.
Import Visualization.
Variable L : Type.
Variable name : L -> jsstring.
Variable data : list L.

Lemma data_at_some i :
  (0 <= i < data_length data)%Z -> exists l, data_at data i = Some l.
Proof.
  intros Hi. unfold Visualization.data_at.
  assert ((i <? 0)%Z = false) as -> by (apply Z.ltb_ge; lia).
  destruct (nth_error data (Z.to_nat i)) eqn:Hn; [eauto|].
  apply nth_error_None in Hn. unfold Visualization.data_length in Hi. lia.
Qed.

Lemma data_at_of_nat i : data_at data (Z.of_nat i) = nth_error data i.
Proof.
  unfold Visualization.data_at.
  assert ((Z.of_nat i <? 0)%Z = false) as -> by (apply Z.ltb_ge; lia).
  rewrite Nat2Z.id. reflexivity.
Qed.

Lemma slice0_nth n i :
  (0 <= n)%Z ->
  nth_error (slice0 data n) i
  = if (i <? Z.to_nat n)%nat then nth_error data i else None.
Proof.
  intros Hn. unfold Visualization.slice0.
  assert ((n <? 0)%Z = false) as -> by (apply Z.ltb_ge; lia).
  apply nth_error_firstn.
Qed.

Lemma slice0_nth_some n i d :
  (0 <= n)%Z -> nth_error (slice0 data n) i = Some d ->
  (Z.of_nat i < n)%Z /\ nth_error data i = Some d.
Proof.
  intros Hn H. rewrite slice0_nth in H by assumption.
  destruct (i <? Z.to_nat n)%nat eqn:Hi; [|discriminate].
  apply Nat.ltb_lt in Hi. split; [lia|exact H].
Qed.

Lemma slice0_length n :
  (0 <= n <= data_length data)%Z -> List.length (slice0 data n) = Z.to_nat n.
Proof.
  intros Hn. unfold Visualization.slice0.
  assert ((n <? 0)%Z = false) as -> by (apply Z.ltb_ge; lia).
  rewrite length_firstn. unfold Visualization.data_length in Hn. lia.
Qed.

(** [update data()] on a state with its two counters in range *)
Lemma update_in_range s :
  (0 <= selectedLevelIndex s < data_length data)%Z ->
  exists l,
    data_at data (selectedLevelIndex s) = Some l /\
    update data s
    = Normal (State (visibleLevels s) (selectedLevelIndex s)
                (visibleLevels s <=? 1)%Z
                (data_length data <=? visibleLevels s)%Z
                (isSelecting s) (Some l)).
Proof.
  intros Hs. destruct (data_at_some _ Hs) as [l Hl]. exists l.
  split; [exact Hl|]. unfold Visualization.update.
  assert ((selectedLevelIndex s <? data_length data)%Z = true) as ->
    by (apply Z.ltb_lt; lia).
  rewrite Hl. reflexivity.
Qed.

Lemma goForward_spec s :
  consistent data s ->
  exists s',
    goForward data s = Normal s' /\ consistent data s' /\
    isSelecting s' = isSelecting s /\
    ((visibleLevels s < data_length data)%Z ->
     visibleLevels s' = (visibleLevels s + 1)%Z /\
     selectedLevelIndex s' = visibleLevels s) /\
    ((data_length data <= visibleLevels s)%Z -> s' = s).
Proof.
  intros (Hv & Hsel & Hb & Hf & Hd). unfold Visualization.goForward.
  destruct (visibleLevels s <? data_length data)%Z eqn:Hlt.
  - apply Z.ltb_lt in Hlt.
    destruct (update_in_range
                (State (visibleLevels s + 1) (visibleLevels s + 1 - 1)
                   (backDisabled s) (forwardDisabled s) (isSelecting s)
                   (details s))) as (l & Hl & ->).
    { cbn. lia. }
    cbn in Hl. cbn [bind]. eexists. split; [reflexivity|].
    unfold Visualization.updateNavigationButtons. cbn.
    split.
    { unfold Visualization.consistent. cbn.
      repeat split; try lia; try reflexivity. symmetry. exact Hl. }
    split; [reflexivity|].
    split; [intros _; split; lia|intros; lia].
  - apply Z.ltb_ge in Hlt. exists s. split; [reflexivity|].
    split; [repeat split; assumption || lia|].
    split; [reflexivity|]. split; [intros; lia|reflexivity].
Qed.

Lemma goBack_spec s :
  consistent data s ->
  exists s',
    goBack data s = Normal s' /\ consistent data s' /\
    isSelecting s' = isSelecting s /\
    ((1 < visibleLevels s)%Z ->
     visibleLevels s' = (visibleLevels s - 1)%Z /\
     selectedLevelIndex s' = (visibleLevels s - 2)%Z) /\
    ((visibleLevels s <= 1)%Z -> s' = s).
Proof.
  intros (Hv & Hsel & Hb & Hf & Hd). unfold Visualization.goBack.
  destruct (1 <? visibleLevels s)%Z eqn:Hlt.
  - apply Z.ltb_lt in Hlt.
    destruct (update_in_range
                (State (visibleLevels s - 1) (visibleLevels s - 1 - 1)
                   (backDisabled s) (forwardDisabled s) (isSelecting s)
                   (details s))) as (l & Hl & ->).
    { cbn. lia. }
    cbn in Hl. cbn [bind]. eexists. split; [reflexivity|].
    unfold Visualization.updateNavigationButtons. cbn.
    split.
    { unfold Visualization.consistent. cbn.
      repeat split; try lia; try reflexivity. symmetry. exact Hl. }
    split; [reflexivity|].
    split; [intros _; split; lia|intros; lia].
  - apply Z.ltb_ge in Hlt. exists s. split; [reflexivity|].
    split; [repeat split; assumption || lia|].
    split; [reflexivity|]. split; [intros; lia|reflexivity].
Qed.

(** Selecting a visible level keeps the state consistent data. *)
Lemma select_consistent s i d sel :
  consistent data s -> (Z.of_nat i < visibleLevels s)%Z ->
  nth_error data i = Some d ->
  consistent data (State (visibleLevels s) (Z.of_nat i) (backDisabled s)
                (forwardDisabled s) sel (Some d)).
Proof.
  intros (Hv & Hsel & Hb & Hf & Hd) Hi Hn.
  unfold Visualization.consistent. cbn.
  repeat split; try lia; try assumption.
  rewrite data_at_of_nat. symmetry. exact Hn.
Qed.

Lemma find_named_spec d visibleData : forall i j level,
  find_named name d i visibleData = Some (j, level) ->
  (i <= j)%nat /\ nth_error visibleData (j - i) = Some level /\
  name level = d /\
  forall k l', (k < j - i)%nat -> nth_error visibleData k = Some l' ->
               name l' <> d.
Proof.
  induction visibleData as [|l rest IH]; intros i j level H;
    [discriminate|].
  cbn [find_named] in H.
  destruct (str_eqb (name l) d) eqn:Hn.
  - injection H as <- <-. rewrite Nat.sub_diag.
    split; [lia|]. split; [reflexivity|].
    split; [apply str_eqb_eq; exact Hn|]. intros k l' Hk. lia.
  - apply IH in H as (Hle & Hnth & Hname & Hfirst).
    split; [lia|].
    replace (j - i)%nat with (S (j - S i)) by lia.
    split; [exact Hnth|]. split; [exact Hname|].
    intros [|k] l' Hk Hl'.
    + injection Hl' as <-. apply str_eqb_neq. exact Hn.
    + apply (Hfirst k l'); [lia|exact Hl'].
Qed.

(** The level [xToNearestIndex] returns, from a position of its loop on *)
Lemma nearest_from_spec xScale x rest : forall pre nearest minDist,
  (minDist = None /\ pre = []) \/
  (exists dn,
     minDist = Some (band_distance name xScale x dn) /\
     nth_error pre nearest = Some dn /\
     forall j dj, nth_error pre j = Some dj ->
       band_distance name xScale x dn <= band_distance name xScale x dj
       /\ ((j < nearest)%nat ->
           band_distance name xScale x dn
           < band_distance name xScale x dj)) ->
  pre ++ rest <> [] ->
  exists d,
    nth_error (pre ++ rest)
      (nearest_from name xScale x (List.length pre) rest nearest minDist)
    = Some d /\
    forall j dj, nth_error (pre ++ rest) j = Some dj ->
      band_distance name xScale x d <= band_distance name xScale x dj /\
      ((j < nearest_from name xScale x (List.length pre) rest nearest
               minDist)%nat ->
       band_distance name xScale x d < band_distance name xScale x dj).
Proof.
  induction rest as [|d rest IH]; intros pre nearest minDist Hinv Hne.
  - cbn [nearest_from]. rewrite app_nil_r in *.
    destruct Hinv as [[_ ->]|(dn & _ & Hn & Hmin)]; [congruence|].
    exists dn. split; [exact Hn|exact Hmin].
  - cbn [nearest_from].
    assert (Happ : pre ++ d :: rest = (pre ++ [d]) ++ rest)
      by (rewrite <- app_assoc; reflexivity).
    assert (Hlen : S (List.length pre) = List.length (pre ++ [d]))
      by (rewrite length_app; simpl; lia).
    assert (Hd : nth_error (pre ++ [d]) (List.length pre) = Some d).
    { rewrite nth_error_app2 by lia. rewrite Nat.sub_diag. reflexivity. }
    assert (Hlast : forall j dj, nth_error (pre ++ [d]) j = Some dj ->
              ((j < List.length pre)%nat /\ nth_error pre j = Some dj) \/
              (j = List.length pre /\ dj = d)).
    { intros j dj Hj.
      destruct (Nat.lt_ge_cases j (List.length pre)) as [Hlt|Hge].
      - left. rewrite nth_error_app1 in Hj by assumption. auto.
      - right. rewrite nth_error_app2 in Hj by assumption.
        destruct (j - List.length pre)%nat as [|k] eqn:Hk.
        + injection Hj as <-. split; [lia|reflexivity].
        + destruct k; discriminate. }
    rewrite Happ, Hlen.
    destruct (below (band_distance name xScale x d) minDist) eqn:Hb.
    + apply IH; [|destruct pre; discriminate].
      right. exists d. split; [reflexivity|]. split; [exact Hd|].
      intros j dj Hj. destruct (Hlast j dj Hj) as [[Hlt Hp]|[-> ->]].
      * destruct Hinv as [[_ ->]|(dn & -> & Hn & Hmin)];
          [destruct j; discriminate|].
        cbn [below] in Hb. apply negb_true_iff in Hb.
        assert (Hlt' : band_distance name xScale x d
                       < band_distance name xScale x dn).
        { apply Qnot_le_lt. intros Hle.
          apply Qle_bool_iff in Hle. congruence. }
        destruct (Hmin j dj Hp) as [Hle _].
        split; [apply Qlt_le_weak|intros _];
          exact (Qlt_le_trans _ _ _ Hlt' Hle).
      * split; [apply Qle_refl|intros; lia].
    + apply IH; [|destruct pre; discriminate].
      destruct Hinv as [[-> _]|(dn & -> & Hn & Hmin)]; [discriminate|].
      right. exists dn. split; [reflexivity|].
      assert (Hnl : (nearest < List.length pre)%nat)
        by (apply nth_error_Some; congruence).
      split; [rewrite nth_error_app1 by assumption; exact Hn|].
      intros j dj Hj. destruct (Hlast j dj Hj) as [[Hlt Hp]|[-> ->]].
      * exact (Hmin j dj Hp).
      * cbn [below] in Hb. apply negb_false_iff in Hb.
        apply Qle_bool_iff in Hb. split; [exact Hb|intros; lia].
Qed.

Lemma constructed_spec :
  data <> [] ->
  exists s,
    constructed data = Normal s /\ consistent data s /\
    visibleLevels s = 1%Z /\ selectedLevelIndex s = 0%Z.
Proof.
  intros Hne.
  assert (Hlen : (1 <= data_length data)%Z).
  { unfold Visualization.data_length. destruct data; [congruence|].
    cbn [List.length]. lia. }
  unfold Visualization.constructed.
  destruct (update_in_range created) as (l & Hl & ->).
  { cbn. lia. }
  cbn in Hl. eexists. split; [reflexivity|]. cbn.
  split; [|split; reflexivity].
  unfold Visualization.consistent. cbn.
  repeat split; try lia; try reflexivity. symmetry. exact Hl.
Qed.

Lemma nearest_visible_level xScale s x :
  slice0 data (visibleLevels s) <> [] ->
  exists d,
    nth_error (slice0 data (visibleLevels s))
      (xToNearestIndex name data xScale s x) = Some d /\
    forall j dj,
      nth_error (slice0 data (visibleLevels s)) j = Some dj ->
      band_distance name xScale x d <= band_distance name xScale x dj /\
      ((j < xToNearestIndex name data xScale s x)%nat ->
       band_distance name xScale x d < band_distance name xScale x dj).
Proof.
  intros Hne. unfold Visualization.xToNearestIndex.
  apply (nearest_from_spec xScale x (slice0 data (visibleLevels s)) []
           0%nat None); [left; split; reflexivity|exact Hne].
Qed.

Lemma nearest_index_visible xScale s x :
  consistent data s ->
  exists d,
    (Z.of_nat (xToNearestIndex name data xScale s x) < visibleLevels s)%Z /\
    nth_error data (xToNearestIndex name data xScale s x) = Some d.
Proof.
  intros (Hv & _).
  destruct (nearest_visible_level xScale s x) as (d & Hd & _).
  { intros Hnil. apply (f_equal (@List.length L)) in Hnil.
    rewrite slice0_length in Hnil by lia. cbn in Hnil. lia. }
  exists d. apply slice0_nth_some; [lia|exact Hd].
Qed.

Lemma handle_consistent e s :
  consistent data s ->
  exists s', handle name data e s = Normal s' /\ consistent data s'.
Proof.
  intros Hc. destruct e as [| |i|d|xScale x|xScale x|]; cbn [handle].
  - destruct (goForward_spec s Hc) as (s' & H & Hc' & _). eauto.
  - destruct (goBack_spec s Hc) as (s' & H & Hc' & _). eauto.
  - unfold Visualization.click_area.
    destruct (nth_error (slice0 data (visibleLevels s)) i) as [d|] eqn:Hn;
      [|eauto].
    apply slice0_nth_some in Hn as [Hi Hd];
      [|destruct Hc as (Hv & _); lia].
    eexists. split; [reflexivity|].
    exact (select_consistent s _ _ _ Hc Hi Hd).
  - unfold Visualization.click_label.
    destruct (find_named name d 0 (slice0 data (visibleLevels s)))
      as [[i level]|] eqn:Hf; [|eauto].
    apply find_named_spec in Hf as (_ & Hn & _).
    rewrite Nat.sub_0_r in Hn.
    apply slice0_nth_some in Hn as [Hi Hd];
      [|destruct Hc as (Hv & _); lia].
    eexists. split; [reflexivity|].
    exact (select_consistent s _ _ _ Hc Hi Hd).
  - unfold Visualization.long_press.
    destruct (nearest_index_visible xScale s x Hc) as (d & Hi & Hd).
    rewrite data_at_of_nat, Hd. eexists. split; [reflexivity|].
    exact (select_consistent s _ _ _ Hc Hi Hd).
  - unfold Visualization.movePress.
    destruct (negb (isSelecting s)); [eauto|].
    destruct (negb (Z.of_nat (xToNearestIndex name data xScale s x)
                    =? selectedLevelIndex s)%Z); [|eauto].
    destruct (nearest_index_visible xScale s x Hc) as (d & Hi & Hd).
    rewrite data_at_of_nat, Hd. eexists. split; [reflexivity|].
    exact (select_consistent s _ _ _ Hc Hi Hd).
  - eexists. split; [reflexivity|].
    unfold Visualization.endPress. destruct (isSelecting s); exact Hc.
Qed.

Lemma handle_all_consistent events : forall s,
  consistent data s ->
  exists s', handle_all name data events s = Normal s' /\
             consistent data s'.
Proof.
  induction events as [|e events IH]; intros s Hc; cbn [handle_all].
  - eauto.
  - destruct (handle_consistent e s Hc) as (s1 & -> & Hc1). cbn [bind].
    apply IH. exact Hc1.
Qed.

(** X14.  Whatever the user does, in whatever order, no handler throws, and
    after each event the selected level is one of the visible levels, the
    details panel shows it, at least one level and at most all levels are
    visible, and each button is disabled exactly at its end of the
    range. *)
Theorem navigation_consistent (events : list event) :
  data <> [] ->
  exists s,
    (s0 <- constructed data ;; handle_all name data events s0) = Normal s /\
    consistent data s.
Proof.
  intros Hne. destruct (constructed_spec Hne) as (s0 & -> & Hc & _).
  cbn [bind]. apply handle_all_consistent. exact Hc.
Qed.

Lemma forward_from n : forall s,
  consistent data s ->
  exists s',
    handle_all name data (repeat GoForward n) s = Normal s' /\
    consistent data s' /\
    visibleLevels s'
    = Z.min (visibleLevels s + Z.of_nat n) (data_length data) /\
    (n <> 0%nat -> (visibleLevels s < data_length data)%Z ->
     selectedLevelIndex s' = (visibleLevels s' - 1)%Z).
Proof.
  induction n as [|n IH]; intros s Hc.
  - exists s. split; [reflexivity|]. split; [exact Hc|].
    destruct Hc as (Hv & _). split; [lia|congruence].
  - cbn [repeat handle_all handle].
    destruct (goForward_spec s Hc) as (s1 & -> & Hc1 & _ & Hlt & Hge).
    cbn [bind].
    destruct (IH s1 Hc1) as (s' & Hs' & Hc' & Hvis & Hsel).
    exists s'. split; [exact Hs'|]. split; [exact Hc'|].
    destruct Hc as (Hv & _).
    destruct (Z.lt_ge_cases (visibleLevels s) (data_length data))
      as [Hl|Hg].
    + destruct (Hlt Hl) as [Hv1 Hs1]. split; [lia|].
      intros _ _.
      destruct (Z.lt_ge_cases (visibleLevels s1) (data_length data))
        as [Hl1|Hg1].
      * destruct n as [|n]; [|apply Hsel; [discriminate|exact Hl1]].
        cbn in Hs'. injection Hs' as <-. lia.
      * assert (Hstay : forall m t, consistent data t ->
                  (data_length data <= visibleLevels t)%Z ->
                  handle_all name data (repeat GoForward m) t = Normal t).
        { clear. induction m as [|m IHm]; intros t Ht Hfull;
            [reflexivity|].
          cbn [repeat handle_all handle].
          destruct (goForward_spec t Ht) as (t1 & -> & _ & _ & _ & He).
          rewrite (He Hfull). cbn [bind]. apply IHm; assumption. }
        rewrite (Hstay n s1 Hc1 Hg1) in Hs'. injection Hs' as <-. lia.
    + rewrite (Hge Hg) in *. split; [lia|]. intros _ Hl. lia.
Qed.

(** X15.  Forward [n] times from the start shows [1 + n] levels, all of them
    when there are no more, and the newest of them is selected and shown;
    a press when all are visible changes nothing. *)
Theorem forward_reveals_levels (n : nat) :
  data <> [] ->
  exists s,
    (s0 <- constructed data ;;
     handle_all name data (repeat GoForward n) s0) = Normal s /\
    visibleLevels s = Z.min (1 + Z.of_nat n) (data_length data) /\
    selectedLevelIndex s = (visibleLevels s - 1)%Z /\
    details s = data_at data (visibleLevels s - 1) /\
    forwardDisabled s = (data_length data <=? 1 + Z.of_nat n)%Z /\
    ((data_length data <= visibleLevels s)%Z ->
     goForward data s = Normal s).
Proof.
  intros Hne. destruct (constructed_spec Hne) as (s0 & -> & Hc & Hv0 & Hs0).
  cbn [bind].
  destruct (forward_from n s0 Hc) as (s & Hs & Hcs & Hvis & Hsel).
  exists s. split; [exact Hs|]. rewrite Hv0 in Hvis.
  split; [exact Hvis|].
  assert (Hs1 : selectedLevelIndex s = (visibleLevels s - 1)%Z).
  { destruct n as [|n].
    - cbn in Hs. injection Hs as <-. lia.
    - destruct (Z.lt_ge_cases (visibleLevels s0) (data_length data))
        as [Hl|Hg]; [apply Hsel; [discriminate|exact Hl]|].
      destruct Hc as (Hv & _).
      assert (Hone : data_length data = 1%Z) by lia.
      destruct Hcs as (Hvs & Hss & _). lia. }
  split; [exact Hs1|].
  pose proof Hcs as (Hvs & Hss & Hb & Hf & Hd).
  split; [rewrite Hd, Hs1; reflexivity|].
  split.
  { rewrite Hf, Hvis.
    destruct (Z.leb_spec (data_length data) (1 + Z.of_nat n));
      [apply Z.leb_le|apply Z.leb_gt]; lia. }
  intros Hfull.
  destruct (goForward_spec s Hcs) as (s' & -> & _ & _ & _ & He).
  rewrite (He Hfull). reflexivity.
Qed.


(** X17.  The press selects a visible level, the one whose band middle is
    nearest to the position, the leftmost of them when several are
    equally near; without a visible level it answers 0. *)
Theorem nearest_index_is_nearest (xScale : band_scale) (s : state L)
    (x : Q) :
  (slice0 data (visibleLevels s) <> [] ->
   exists d,
     nth_error (slice0 data (visibleLevels s))
       (xToNearestIndex name data xScale s x) = Some d /\
     forall j dj,
       nth_error (slice0 data (visibleLevels s)) j = Some dj ->
       band_distance name xScale x d <= band_distance name xScale x dj /\
       ((j < xToNearestIndex name data xScale s x)%nat ->
        band_distance name xScale x d < band_distance name xScale x dj)) /\
  (slice0 data (visibleLevels s) = [] ->
   xToNearestIndex name data xScale s x = 0%nat).
Proof.
  split; [apply nearest_visible_level|].
  intros Hnil. unfold Visualization.xToNearestIndex. rewrite Hnil.
  reflexivity.
Qed.

End Navigation.

(** ** The size of the chart *)

(** X18.  The svg element is as wide as the window, in both layouts.  On a
    window at most 768 wide the chart is never less than 200 high, and
    exactly 200 up to a window height of 755; it is 40 narrower than the
    window.  On a wider window the chart is at least 309 wide and the svg
    element as high as the window: the height of the chart has no lower
    bound there and is not positive for a window at most 165 high. *)
Theorem chart_size (innerWidth innerHeight : Z) :
  Visualization.svg_width (Visualization.resized innerWidth innerHeight)
  == inject_Z innerWidth /\
  ((innerWidth <= 768)%Z ->
   200 <= Visualization.height (Visualization.resized innerWidth innerHeight)
   /\
   Visualization.width (Visualization.resized innerWidth innerHeight)
   == inject_Z innerWidth - 40 /\
   ((innerHeight <= 755)%Z ->
    Visualization.height (Visualization.resized innerWidth innerHeight)
    == 200)) /\
  ((768 < innerWidth)%Z ->
   309 <= Visualization.width (Visualization.resized innerWidth innerHeight)
   /\
   Visualization.svg_height (Visualization.resized innerWidth innerHeight)
   == inject_Z innerHeight /\
   (Visualization.height (Visualization.resized innerWidth innerHeight) <= 0
    <-> (innerHeight <= 165)%Z)).
Proof.
  unfold Visualization.resized, Visualization.updateMobileState.
  split; [|split].
  - destruct (innerWidth <=? 768)%Z;
      unfold Visualization.updateDimensions, Visualization.svg_width;
      cbn [Visualization.width Visualization.margin Visualization.left
           Visualization.right]; ring.
  - intros Hw. apply Z.leb_le in Hw. rewrite Hw.
    unfold Visualization.updateDimensions.
    cbn [Visualization.width Visualization.height Visualization.margin
         Visualization.left Visualization.right Visualization.top
         Visualization.bottom].
    unfold Visualization.Math_max.
    split; [|split].
    + destruct (Qle_bool 200 _) eqn:Hle.
      * apply Qle_bool_iff. exact Hle.
      * apply Qle_refl.
    + ring.
    + intros Hh.
      destruct (Qle_bool 200 _) eqn:Hle; [|reflexivity].
      apply Qle_bool_iff in Hle. exfalso.
      unfold Qle, Qminus, Qplus, Qmult, Qopp, inject_Z in Hle.
      cbn in Hle. lia.
  - intros Hw. apply Z.leb_gt in Hw. rewrite Hw.
    unfold Visualization.updateDimensions, Visualization.svg_height.
    cbn [Visualization.width Visualization.height Visualization.margin
         Visualization.left Visualization.right Visualization.top
         Visualization.bottom].
    split; [|split].
    + unfold Qle, Qminus, Qplus, Qopp, inject_Z. cbn. lia.
    + ring.
    + unfold Qle, Qminus, Qplus, Qopp, inject_Z. cbn. lia.
Qed.

(** ** The examples *)

#[local] Existing Instance example_engine.

(** In the two-section document "Level Beta" has no difficulty line: its
    step pushes nothing. *)
Lemma no_difficulty_line_no_record_witness :
  Rev1.process_h3 (h3_at doc_alpha_beta 1) (h3_after doc_alpha_beta 1)
  = Normal None /\
  Rev3.process_h3 doc_alpha_beta (h3_at doc_alpha_beta 1)
    (h3_after doc_alpha_beta 1) = Normal None.
Proof.
  destruct (no_difficulty_line_no_record (fetched doc_alpha_beta))
    as (H1 & H3 & _).
  split; [apply H1|apply H3];
    intros e Hin; vm_compute in Hin; destruct Hin as [<-|[]];
    apply difficulty_match_none; vm_compute; reflexivity.
Defined.


(** In the two-section document the first heading is
    "Level Alpha by Coder1". *)
Lemma heading_splits_at_first_separator_witness :
  Rev2.name level_alpha = trim (js "Level Alpha") /\
  Rev2.publisher level_alpha = trim (js "Coder1").
Proof.
  refine (proj2 (proj1 (heading_splits_at_first_separator doc_alpha_beta
            (h3_at doc_alpha_beta 0) (h3_after doc_alpha_beta 0))
            (js "Level Alpha") (js " ") (js "by") (js " ") (js "Coder1")
            _ _ _ _ _ _ _ _ _ _ _) level_alpha _);
    try reflexivity; try discriminate.
  - left. reflexivity.
  - intros t1 t2 Heq Hn1 Hn2 rest. vm_compute in Heq.
    do 12 (destruct t1 as [|? t1];
           [simpl in Heq; subst t2;
            try congruence;
            apply no_separator_by_matcher; vm_compute; reflexivity
           |simpl in Heq; try discriminate; injection Heq as <- Heq]).
Defined.

(** The heading "Stand by Me by Jane" is "Stand by Me", " by ", "Jane";
    the level pushed for it is named "Stand", by "Me by Jane". *)
Lemma heading_with_two_separators :
  trim (textContent (loc_node (h3_at doc_two_separators 0)))
  = js "Stand by Me" ++ js " " ++ js "by" ++ js " " ++ js "Jane" /\
  exists l,
    (forall E : Engine,
       @Rev3.fetchAndParseLevelData E (fetched doc_two_separators)
       = Normal [l]) /\
    Rev2.name l = js "Stand" /\ Rev2.publisher l = js "Me by Jane" /\
    Rev2.name l <> trim (js "Stand by Me") /\
    Rev2.publisher l <> trim (js "Jane").
Proof.
  split; [vm_compute; reflexivity|].
  eexists. split; [intros E; vm_compute; reflexivity|].
  split; [reflexivity|]. split; [reflexivity|].
  split; vm_compute; discriminate.
Qed.

Lemma name_empty_iff_heading_blank_witness :
  exists before h3 after,
    h3Elements doc_alpha_beta = before ++ h3 :: after /\
    Rev3.process_h3 doc_alpha_beta h3
      (option_map loc_path (hd_error after)) = Normal (Some level_alpha) /\
    (Rev2.name level_alpha = [] <-> trim (textContent (loc_node h3)) = []).
Proof.
  refine (proj2 (name_empty_iff_heading_blank (fetched doc_alpha_beta))
            [level_alpha] level_alpha _ (or_introl eq_refl)).
  vm_compute. reflexivity.
Defined.

(** An h3 without text, followed by a difficulty line: the level pushed
    has the empty name. *)
Lemma empty_heading_gives_empty_name :
  exists l,
    (forall E : Engine,
       @Rev3.fetchAndParseLevelData E (fetched doc_empty_heading)
       = Normal [l]) /\
    (forall E : Engine,
       @Rev1.fetchAndParseLevelData E (fetched doc_empty_heading)
       = Normal [Rev1.Level [] [] (Fin 5) None None []]) /\
    Rev2.name l = [].
Proof.
  eexists. split; [intros E; vm_compute; reflexivity|].
  split; [intros E; vm_compute; reflexivity|reflexivity].
Qed.



(** In src/dataParser.ts the h2 of the section and the paragraph after it
    are content, and commentary, of the h3 before them. *)
Lemma heading_inside_content :
  Rev1.section_content (h3_at doc_inner_heading 0)
    (h3_after doc_inner_heading 0)
  = [ el "p" [] [txt "Difficulty value: 1"];
      el "h2" [] [txt "Other"];
      el "p" [] [txt "More"] ] /\
  is_heading (el "h2" [] [txt "Other"]) = true /\
  (forall E : Engine,
     @Rev1.fetchAndParseLevelData E (fetched doc_inner_heading)
     = Normal [Rev1.Level (js "Level X") [] (Fin 1) None None
                 (join_outerHTML [ el "h2" [] [txt "Other"];
                                   el "p" [] [txt "More"] ])]).
Proof.
  split; [vm_compute; reflexivity|].
  split; [vm_compute; reflexivity|].
  intros E. vm_compute. reflexivity.
Qed.

Lemma link_scan_stops_at_first_link_witness :
  scan_links 0 0
    ([el "p" [] [txt "Difficulty value: 3"]]
     ++ el "p" [] [el "a" [attr "href" "https://gdbrowser.com/1"]
                     [txt "Level"]]
     :: [el "p" [] [el "a" [attr "href" "https://youtu.be/x"]
                      [txt "Video"]]]) no_links
  = scan_links 0 0
      ([el "p" [] [txt "Difficulty value: 3"]]
       ++ [el "p" [] [el "a" [attr "href" "https://gdbrowser.com/1"]
                        [txt "Level"]]]) no_links.
Proof.
  refine (proj1 (proj1 link_scan_stops_at_first_link 0%nat _ _ _ _ _)).
  - intros e [<-|[]]. vm_compute. reflexivity.
  - vm_compute. reflexivity.
Defined.

(** In the document that repeats the link of the difficulty line the
    difficulty element is no commentary, and the exclusion set holds the
    hrefs of its anchors. *)
Lemma commentary_anchor_removal_witness :
  exists difficultyElement,
    nth_error (Rev2.section_content (h3_at doc_same_href 0)
                 (h3_after doc_same_href 0)) 0 = Some difficultyElement /\
    is_commentary difficultyElement = false /\
    forall h,
      set_has (excludedHrefs
                 (scan_links 0 0
                    (Rev2.section_content (h3_at doc_same_href 0)
                       (h3_after doc_same_href 0)) no_links)) h = true <->
      h <> [] /\
      (forall e,
         In e (firstn 0 (Rev2.section_content (h3_at doc_same_href 0)
                           (h3_after doc_same_href 0))) ->
         has_recognized_link e = false) /\
      exists a, In a (anchors difficultyElement) /\ link_href a = h.
Proof.
  refine (proj1 (commentary_anchor_removal (h3_at doc_same_href 0)
            (h3_after doc_same_href 0) (Fin 5) 0 _)).
  vm_compute. reflexivity.
Defined.

(** The difficulty line has no link; the YouTube link stands in the next
    paragraph, an element of its own.  The commentary starts after that
    paragraph and holds neither it nor its link. *)
Lemma link_in_later_element_left_out :
  exists l later link,
    (forall E : Engine,
       @Rev3.fetchAndParseLevelData E (fetched doc_links_line)
       = Normal [l]) /\
    find_difficulty 0
      (Rev2.section_content (h3_at doc_links_line 0)
         (h3_after doc_links_line 0)) = Normal (Some (Fin 5, 0%nat)) /\
    nth_error (Rev2.section_content (h3_at doc_links_line 0)
                 (h3_after doc_links_line 0)) 1 = Some later /\
    In link (anchors later) /\
    (forall E : Engine,
       is_youtube (link_href link) (@link_text E link) = true) /\
    Rev2.youtubeUrl l = Some (link_href link) /\
    Rev2.commentary l = outerHTML (el "p" [] [txt "Great level."]) /\
    includes (Rev2.commentary l) (outerHTML link) = false.
Proof.
  eexists. eexists. eexists.
  split; [intros E; vm_compute; reflexivity|].
  split; [vm_compute; reflexivity|].
  split; [vm_compute; reflexivity|].
  split; [left; reflexivity|].
  split; [intros E; vm_compute; reflexivity|].
  repeat split; vm_compute; reflexivity.
Qed.

(** A link with the href of the link of the difficulty line is removed
    from a later element, another YouTube link there is kept; the first
    revision removes both. *)
Lemma same_href_removed_later :
  (exists l,
     (forall E : Engine,
        @Rev3.fetchAndParseLevelData E (fetched doc_same_href)
        = Normal [l]) /\
     Rev2.commentary l =
     outerHTML (el "p" [] [txt "See "; txt " and ";
                           el "a" [attr "href" "https://youtu.be/y"]
                             [txt "that"]])) /\
  (exists l,
     (forall E : Engine,
        @Rev1.fetchAndParseLevelData E (fetched doc_same_href)
        = Normal [l]) /\
     Rev1.commentary l = outerHTML (el "p" [] [txt "See "; txt " and "])).
Proof.
  split; eexists; (split; [intros E; vm_compute; reflexivity|]);
    vm_compute; reflexivity.
Qed.

(** The footnote fn7 is referred to twice.  Both anchors become text, and
    one item with value 7 is appended. *)
Lemma footnotes_resolved_witness :
  Rev3.fetchAndParseLevelData (fetched doc_footnote)
  = Normal [Rev2.Level (js "Level X") [] (Fin 4) None None
              (join_outerHTML
                 [ el "p" [] [txt "Hard"; txt "7"; txt " indeed"; txt "7"];
                   el "div" [attr "class" "commentary-footnotes"]
                     [el "ol" []
                        [el "li" [attr "value" "7"] [txt "A note."]]] ])] /\
  Rev3.with_footnotes (Rev3.collect_footnotes doc_footnote)
    [el "p" [] [txt "Hard";
                el "a" [attr "href" "#fn7"] [el "sup" [] [txt "7"]];
                txt " indeed";
                el "a" [attr "href" "#fn7"] [el "sup" [] [txt "7"]]]]
  = [ el "p" [] [txt "Hard"; txt "7"; txt " indeed"; txt "7"];
      el "div" [attr "class" "commentary-footnotes"]
        [el "ol" [] [el "li" [attr "value" "7"] [txt "A note."]]] ] /\
  Rev3.footnote_li (Rev3.collect_footnotes doc_footnote)
    (js "fn" ++ js "7")
  = Element (js "li") [(js "value", parseInt_toString big_number_string
                                      (js "7"))]
      (parse_fragment
         (Rev3.footnote_html (Rev3.collect_footnotes doc_footnote)
            (js "fn" ++ js "7"))).
Proof.
  split; [vm_compute; reflexivity|]. split.
  - refine (eq_trans
              (proj1 (proj1 (proj2 (proj2 (proj2 (proj2
                 (footnotes_resolved doc_footnote _))))) _)) _).
    + vm_compute. discriminate.
    + vm_compute. reflexivity.
  - refine (proj1 (proj1 (proj2 (proj2 (proj2 (proj2 (proj2
              (footnotes_resolved doc_footnote [])))))) (js "fn") (js "7")
              _ _ _)).
    + discriminate.
    + reflexivity.
    + intros u c Hu. change (js "fn") with [102%N; 110%N] in Hu.
      apply (f_equal (@rev N)) in Hu. rewrite rev_app_distr in Hu.
      simpl in Hu. injection Hu as <- _. reflexivity.
Defined.

(** The footnote fn1 is in the index, but its item holds only the
    back-reference, which is stripped: the body is empty, the anchor that
    refers to it stays an anchor, and no list is appended. *)
Lemma empty_footnote_not_resolved :
  exists footnotesSection li l,
    doc_querySelector (Rev3.footnotes_selector false) doc_empty_footnote
    = Some footnotesSection /\
    Rev3.footnote_items footnotesSection = [li] /\
    getAttribute "id" li = Some (js "fn1") /\
    (forall E : Engine,
       @Rev3.fetchAndParseLevelData E (fetched doc_empty_footnote)
       = Normal [l]) /\
    Rev2.commentary l =
    outerHTML (el "p" [] [txt "Hard";
                          el "a" [attr "href" "#fn1"]
                            [el "sup" [] [txt "1"]]]).
Proof.
  eexists. eexists. eexists.
  split; [vm_compute; reflexivity|].
  split; [vm_compute; reflexivity|].
  split; [vm_compute; reflexivity|].
  split; [intros E; vm_compute; reflexivity|].
  vm_compute. reflexivity.
Qed.

(** The two headings of the example give one level, that of the first. *)
Lemma levels_in_heading_order_witness :
  exists levels idxs,
    Rev3.fetchAndParseLevelData (fetched doc_alpha_beta) = Normal levels /\
    StronglySorted lt idxs /\
    (forall i, In i idxs ->
       (i < List.length (h3Elements (parsed (fetched doc_alpha_beta))))%nat)
    /\
    Forall2 (fun i l =>
               Rev3.process_h3 (parsed (fetched doc_alpha_beta))
                 (h3_at (parsed (fetched doc_alpha_beta)) i)
                 (h3_after (parsed (fetched doc_alpha_beta)) i)
               = Normal (Some l)) idxs levels /\
    (forall i,
       (i < List.length (h3Elements (parsed (fetched doc_alpha_beta))))%nat ->
       In i idxs \/
       Rev3.process_h3 (parsed (fetched doc_alpha_beta))
         (h3_at (parsed (fetched doc_alpha_beta)) i)
         (h3_after (parsed (fetched doc_alpha_beta)) i) = Normal None) /\
    (List.length levels
     <= List.length (h3Elements (parsed (fetched doc_alpha_beta))))%nat.
Proof.
  exact (proj1 (levels_in_heading_order (fetched doc_alpha_beta) eq_refl)).
Defined.

(** Of the two YouTube links beside the difficulty line the second gives
    the URL. *)
Lemma urls_from_first_link_element_witness :
  exists l,
    Rev3.process_h3 doc_two_videos (h3_at doc_two_videos 0)
      (h3_after doc_two_videos 0) = Normal (Some l) /\
    Rev2.youtubeUrl l = Some (js "https://youtu.be/second") /\
    Rev2.gdBrowserUrl l = None.
Proof.
  eexists. split; [vm_compute; reflexivity|].
  refine (proj1 (urls_from_first_link_element doc_two_videos
            (h3_at doc_two_videos 0) (h3_after doc_two_videos 0)
            []
            (el "p" []
               [ txt "Difficulty value: 7 ";
                 el "a" [attr "href" "https://youtu.be/first"] [txt "one"];
                 el "a" [attr "href" "https://youtu.be/second"]
                   [txt "two"] ])
            [el "p" [] [txt "Some words."]] _ _) _ _ _).
  - intros e [].
  - vm_compute. reflexivity.
  - vm_compute. reflexivity.
  - vm_compute. reflexivity.
Defined.


(** The example document has no footnotes: both revisions return the
    same. *)
Lemma footnote_pass_conservative_witness :
  Rev3.fetchAndParseLevelData (fetched doc_alpha_beta)
  = Rev2.fetchAndParseLevelData (fetched doc_alpha_beta).
Proof.
  apply footnote_pass_conservative.
  intros a Ha.
  assert (H : forallb
                (fun a => negb (Rev3.is_footnote_ref
                                  (Rev3.collect_footnotes
                                     (parsed (fetched doc_alpha_beta))) a))
                (descendants
                   (doc_children (parsed (fetched doc_alpha_beta))))
              = true) by (vm_compute; reflexivity).
  apply negb_true_iff.
  exact (proj1 (forallb_forall _ _) H a Ha).
Defined.

(** The section with an h2 in it: the later revision stops at the h2, the
    first one does not, and both give the level "Level X" of difficulty
    1. *)
Lemma later_levels_among_first_witness :
  (forall h3 nextH3, exists rest,
     Rev1.section_content h3 nextH3
     = Rev2.section_content h3 nextH3 ++ rest) /\
  (forall l,
     In l [Rev2.Level (js "Level X") [] (Fin 1) None None []] ->
     exists l1,
       In l1 [Rev1.Level (js "Level X") [] (Fin 1) None None
                (join_outerHTML [ el "h2" [] [txt "Other"];
                                  el "p" [] [txt "More"] ])] /\
       Rev1.name l1 = Rev2.name l /\ Rev1.author l1 = Rev2.publisher l /\
       Rev1.difficulty l1 = Rev2.difficulty l).
Proof.
  apply (later_levels_among_first (fetched doc_inner_heading)).
  - vm_compute. reflexivity.
  - vm_compute. reflexivity.
Defined.

(** An anchor to "#constructor" in a document without footnotes *)
Lemma inherited_names_are_footnotes_witness :
  Rev3.is_footnote_ref (Rev3.collect_footnotes doc_alpha_beta)
    (el "a" [attr "href" "#constructor"] [txt "c"]) = true /\
  unlink_node (Rev3.is_footnote_ref (Rev3.collect_footnotes doc_alpha_beta))
    (el "a" [attr "href" "#constructor"] [txt "c"])
  = Text (textContent (el "a" [attr "href" "#constructor"] [txt "c"])) /\
  Rev3.footnote_html (Rev3.collect_footnotes doc_alpha_beta)
    (js "constructor")
  = inherited_to_string (js "constructor") /\
  (doc_querySelector (Rev3.footnotes_selector (doc_quirks doc_alpha_beta))
     doc_alpha_beta = None ->
   Rev3.collect_footnotes doc_alpha_beta = []).
Proof.
  apply (inherited_names_are_footnotes doc_alpha_beta
           (el "a" [attr "href" "#constructor"] [txt "c"]) "constructor").
  - left. reflexivity.
  - vm_compute. reflexivity.
  - vm_compute. reflexivity.
  - vm_compute. reflexivity.
Defined.

(** Forward, a click on the first level, and back *)
Lemma navigation_consistent_witness :
  exists s,
    (s0 <- Visualization.constructed two_levels ;;
     Visualization.handle_all Rev1.name two_levels
       [Visualization.GoForward; Visualization.ClickArea 0;
        Visualization.GoBack] s0) = Normal s /\
    Visualization.consistent two_levels s.
Proof.
  apply (navigation_consistent Rev1.LevelData Rev1.name two_levels).
  discriminate.
Defined.

(** Three presses with two levels *)
Lemma forward_reveals_levels_witness :
  exists s,
    (s0 <- Visualization.constructed two_levels ;;
     Visualization.handle_all Rev1.name two_levels
       (repeat Visualization.GoForward 3) s0) = Normal s /\
    Visualization.visibleLevels s
    = Z.min (1 + Z.of_nat 3) (Visualization.data_length two_levels) /\
    Visualization.selectedLevelIndex s
    = (Visualization.visibleLevels s - 1)%Z /\
    Visualization.details s
    = Visualization.data_at two_levels (Visualization.visibleLevels s - 1)
    /\
    Visualization.forwardDisabled s
    = (Visualization.data_length two_levels <=? 1 + Z.of_nat 3)%Z /\
    ((Visualization.data_length two_levels
      <= Visualization.visibleLevels s)%Z ->
     Visualization.goForward two_levels s = Normal s).
Proof.
  apply (forward_reveals_levels Rev1.LevelData Rev1.name two_levels 3).
  discriminate.
Defined.


(** An anchor without href whose text is "Watch on YouTube" *)
Lemma link_text_counts_in_any_case_witness :
  classify_link no_links (el "a" [] [txt "Watch on YouTube"])
  = LinkState (Some []) None true [].
Proof.
  refine (proj1 (link_text_counts_in_any_case
                   (el "a" [] [txt "Watch on YouTube"])
                   (js "Watch on ") (js "YouTube") [] no_links _) _).
  - reflexivity.
  - reflexivity.
Defined.
